(** * Monte Carlo options pricing engine: a shallow embedding

    The models under [src/models] (MonteCarloSimulation, AsianOption,
    BarrierOption, LookbackOption) and [utils/matrixOperations.js] are
    embedded as Rocq functions, and the statements of the engine's
    specification are settled against them.

    Conventions of the embedding:
    - a JavaScript number is a [num]: NaN, the two infinities, or a real.
      Arithmetic on finite numbers is exact real arithmetic (no rounding, no
      overflow, one zero); the special values follow IEEE 754 as JavaScript
      exposes it;
    - a JavaScript object is a finite map from property names to values;
      an instance also carries its class, for method dispatch;
    - [Math.random] reads the next entry of a stream of uniforms that is
      threaded through every computation, together with the exception, if
      one is thrown. *)

From Stdlib Require Import Reals Lra Lia ZArith.
From stdpp Require Import base strings gmap list.

Open Scope R_scope.

(** ** Numbers *)

Inductive num : Type :=
| NaN
| PosInf
| NegInf
| Real (x : R).

Module Num.

Definition Rltb (x y : R) : bool := if Rlt_dec x y then true else false.
Definition Rleb (x y : R) : bool := if Rle_dec x y then true else false.
Definition Reqb (x y : R) : bool := if Req_dec_T x y then true else false.

Definition finite (a : num) : bool :=
  match a with Real _ => true | _ => false end.

Definition neg (a : num) : num :=
  match a with
  | NaN => NaN
  | PosInf => NegInf
  | NegInf => PosInf
  | Real x => Real (- x)
  end.

Definition add (a b : num) : num :=
  match a, b with
  | NaN, _ | _, NaN => NaN
  | PosInf, NegInf | NegInf, PosInf => NaN
  | PosInf, _ | _, PosInf => PosInf
  | NegInf, _ | _, NegInf => NegInf
  | Real x, Real y => Real (x + y)
  end.

Definition sub (a b : num) : num := add a (neg b).

(** An infinity with the sign of [x]; NaN when [x] is zero. *)
Definition signed_inf (x : R) : num :=
  if Rltb 0 x then PosInf else if Rltb x 0 then NegInf else NaN.

Definition mul (a b : num) : num :=
  match a, b with
  | NaN, _ | _, NaN => NaN
  | PosInf, PosInf | NegInf, NegInf => PosInf
  | PosInf, NegInf | NegInf, PosInf => NegInf
  | PosInf, Real y | Real y, PosInf => signed_inf y
  | NegInf, Real y | Real y, NegInf => signed_inf (- y)
  | Real x, Real y => Real (x * y)
  end.

(** Division. A finite number over zero is an infinity with the sign of
    the numerator (the embedding has one zero), and 0/0 is NaN. *)
Definition div (a b : num) : num :=
  match a, b with
  | NaN, _ | _, NaN => NaN
  | Real x, Real y => if Reqb y 0 then signed_inf x else Real (x / y)
  | Real _, _ => Real 0
  | PosInf, Real y => if Rltb y 0 then NegInf else PosInf
  | NegInf, Real y => if Rltb y 0 then PosInf else NegInf
  | _, _ => NaN
  end.

(** [a < b], [a <= b], [a >= b], [a > b]: false as soon as one side is NaN. *)
Definition ltb (a b : num) : bool :=
  match a, b with
  | NaN, _ | _, NaN => false
  | _, NegInf | PosInf, _ => false
  | NegInf, _ | _, PosInf => true
  | Real x, Real y => Rltb x y
  end.

Definition leb (a b : num) : bool :=
  match a, b with
  | NaN, _ | _, NaN => false
  | NegInf, _ | _, PosInf => true
  | _, NegInf | PosInf, _ => false
  | Real x, Real y => Rleb x y
  end.

Definition geb (a b : num) : bool := leb b a.
Definition gtb (a b : num) : bool := ltb b a.

(** [Math.max(a, b)] and [Math.min(a, b)]: NaN as soon as one argument is. *)
Definition max (a b : num) : num :=
  match a, b with
  | NaN, _ | _, NaN => NaN
  | _, _ => if ltb a b then b else a
  end.

Definition min (a b : num) : num :=
  match a, b with
  | NaN, _ | _, NaN => NaN
  | _, _ => if ltb b a then b else a
  end.

(** [Math.max(...xs)] and [Math.min(...xs)]; the neutral elements are the
    values JavaScript returns for no argument at all. *)
Definition max_list (xs : list num) : num := foldl max NegInf xs.
Definition min_list (xs : list num) : num := foldl min PosInf xs.

Definition exp (a : num) : num :=
  match a with
  | NaN => NaN
  | PosInf => PosInf
  | NegInf => Real 0
  | Real x => Real (Rtrigo_def.exp x)
  end.

Definition sqrt (a : num) : num :=
  match a with
  | NaN | NegInf => NaN
  | PosInf => PosInf
  | Real x => if Rltb x 0 then NaN else Real (R_sqrt.sqrt x)
  end.

Definition log (a : num) : num :=
  match a with
  | NaN | NegInf => NaN
  | PosInf => PosInf
  | Real x =>
      if Rltb x 0 then NaN else if Reqb x 0 then NegInf else Real (ln x)
  end.

(** [Math.pow(a, 2)]. *)
Definition sqr (a : num) : num :=
  match a with
  | NaN => NaN
  | PosInf | NegInf => PosInf
  | Real x => Real (x * x)
  end.

Definition abs (a : num) : num :=
  match a with
  | NaN => NaN
  | PosInf | NegInf => PosInf
  | Real x => Real (Rabs x)
  end.

(** Integer part functions on the reals, through [up]. *)
Definition floorZ (x : R) : Z := (up x - 1)%Z.
Definition ceilZ (x : R) : Z := (1 - up (- x))%Z.

Definition floor (a : num) : num :=
  match a with Real x => Real (IZR (floorZ x)) | _ => a end.
Definition ceil (a : num) : num :=
  match a with Real x => Real (IZR (ceilZ x)) | _ => a end.

Definition of_nat (n : nat) : num := Real (INR n).

(** The natural number a number denotes when it is a valid array length
    (an integer of [0, 2^32 - 1]), as [new Array(len)] and array indexing
    require. *)
Definition to_length (a : num) : option nat :=
  match a with
  | Real x =>
      let z := floorZ x in
      if Reqb (IZR z) x && (0 <=? z)%Z && (z <? 2 ^ 32)%Z
      then Some (Z.to_nat z) else None
  | _ => None
  end.

(** Trips of [for (let i = 0; i < a; i++)]: the naturals below [a], none
    when [a] is NaN. The engine allocates [new Array(a)] (or
    [new Array(a + 1)]) before each such loop, which throws on an infinite
    [a]: the loop is then never reached. *)
Definition trips (a : num) : nat :=
  match a with
  | Real x => Z.to_nat (ceilZ x)
  | _ => 0%nat
  end.

End Num.

Declare Scope num_scope.
Delimit Scope num_scope with num.
Bind Scope num_scope with num.
Infix "+" := Num.add : num_scope.
Infix "-" := Num.sub : num_scope.
Infix "*" := Num.mul : num_scope.
Infix "/" := Num.div : num_scope.
Notation "- a" := (Num.neg a) : num_scope.

(** ** Values, objects, exceptions *)

Inductive value : Type :=
| VUndef
| VNum (a : num)
| VBool (b : bool)
| VStr (s : string).

Abbreviation obj := (gmap string value).

Inductive exn : Type :=
| Error (msg : string)
| TypeError
| RangeError.

Inductive outcome (A : Type) : Type :=
| Ok (a : A)
| Throw (e : exn).
Arguments Ok {A} a.
Arguments Throw {A} e.

Module Js.

(** ToNumber. The strings of the engine ('call', 'up-and-out', ...) are not
    numerals; a configuration holds numbers under its numeric keys. *)
Definition to_number (v : value) : num :=
  match v with
  | VUndef => NaN
  | VNum a => a
  | VBool b => if b then Real 1 else Real 0
  | VStr _ => NaN
  end.

(** ToBoolean. *)
Definition truthy (v : value) : bool :=
  match v with
  | VUndef => false
  | VNum NaN => false
  | VNum (Real x) => negb (Num.Reqb x 0)
  | VNum _ => true
  | VBool b => b
  | VStr s => match s with EmptyString => false | _ => true end
  end.

(** [o.k]: a missing property reads as undefined. *)
Definition prop (o : obj) (k : string) : value := default VUndef (o !! k).

(** [a || b]. *)
Definition or_else (a b : value) : value := if truthy a then a else b.

(** A parameter with a default value, [{ k = d }]: the default replaces
    undefined only. *)
Definition or_default (a d : value) : value :=
  match a with VUndef => d | _ => a end.

(** [v === 'lit'] for a string literal. *)
Definition is_string (v : value) (lit : string) : bool :=
  match v with VStr s => String.eqb s lit | _ => false end.

Definition ends_with (s suffix : string) : bool :=
  let n := String.length s in
  let k := String.length suffix in
  (k <=? n)%nat && String.eqb (String.substring (n - k) k s) suffix.

(** [v.startsWith(lit)] and [v.endsWith(lit)]: a TypeError when [v] is not
    a string. *)
Definition startsWith (v : value) (lit : string) : outcome bool :=
  match v with VStr s => Ok (String.prefix lit s) | _ => Throw TypeError end.

Definition endsWith (v : value) (lit : string) : outcome bool :=
  match v with VStr s => Ok (ends_with s lit) | _ => Throw TypeError end.

(** Arrays of numbers are lists; a hole or an index out of range reads as
    undefined, which is NaN wherever the engine uses it. *)
Definition at_index (l : list num) (i : nat) : num := default NaN (l !! i).

(** [l[l.length - 1]]. *)
Definition last_of (l : list num) : num :=
  match l with
  | [] => NaN
  | _ => at_index l (length l - 1)
  end.

(** [l[i] = v]: an assignment past the end extends the array. *)
Definition set_index {A} (hole : A) (i : nat) (v : A) (l : list A) : list A :=
  if (i <? length l)%nat then <[i := v]> l
  else l ++ replicate (i - length l) hole ++ [v].

(** [new Array(len)]. *)
Definition new_array {A} (hole : A) (len : num) : outcome (list A) :=
  match Num.to_length len with
  | Some n => Ok (replicate n hole)
  | None => Throw RangeError
  end.

(** [l.reduce(f)] with no initial value: a TypeError on the empty array. *)
Definition reduce1 {A} (f : A -> A -> A) (l : list A) : outcome A :=
  match l with
  | [] => Throw TypeError
  | x :: t => Ok (foldl f x t)
  end.

Definition length_of {A} (l : list A) : num := Num.of_nat (length l).

(** [l.slice(0, e)]. *)
Definition slice_to {A} (e : num) (l : list A) : list A :=
  match e with
  | NaN | NegInf => []
  | PosInf => l
  | Real x =>
      let k := if Num.Rltb x 0 then Num.ceilZ x else Num.floorZ x in
      if (k <? 0)%Z then take (Z.to_nat (Z.of_nat (length l) + k)) l
      else take (Z.to_nat k) l
  end.

(** [l.sort((a, b) => a - b)], as an insertion sort driven by the
    comparator: [x] moves past [y] while [x - y > 0]. On an array without
    NaN every correct sort returns this same array; with NaN the order is
    left to the engine, and this is one of the orders it may produce. *)
Fixpoint insert_sorted (x : num) (l : list num) : list num :=
  match l with
  | [] => [x]
  | y :: t =>
      if Num.gtb (Num.sub x y) (Real 0) then y :: insert_sorted x t
      else x :: l
  end.

Definition sort (l : list num) : list num := foldr insert_sorted [] l.

End Js.

(** ** The random source and the monad of the engine *)

Record rng : Type := { draws : nat -> R; cursor : nat }.

Definition M (A : Type) : Type := rng -> outcome (A * rng).

Definition ret {A} (a : A) : M A := fun s => Ok (a, s).

Definition bind {A B} (m : M A) (k : A -> M B) : M B :=
  fun s => match m s with
           | Ok (a, s') => k a s'
           | Throw e => Throw e
           end.

Definition lift {A} (o : outcome A) : M A :=
  fun s => match o with Ok a => Ok (a, s) | Throw e => Throw e end.

(** [Math.random()]. *)
Definition random : M num :=
  fun s => Ok (Real (draws s (cursor s)),
               {| draws := draws s; cursor := S (cursor s) |}).

Definition obind {A B} (o : outcome A) (k : A -> outcome B) : outcome B :=
  match o with Ok a => k a | Throw e => Throw e end.

Notation "'do' x <- m ; k" := (bind m (fun x => k))
  (at level 10, x name, m at level 100, k at level 200).
Notation "'try' x <- o ; k" := (obind o (fun x => k))
  (at level 10, x name, o at level 100, k at level 200).

(** ** Results *)

Record ConfidenceInterval : Type :=
  { mean : num; lower : num; upper : num }.

Record PricingResult : Type :=
  { price : num;
    confidence : ConfidenceInterval;
    paths : list (list num);
    payoffs : list num }.

Record GreeksResult : Type :=
  { delta : num; gamma : num; theta : num; vega : num; rho : num }.

Record RiskMetricsResult : Type :=
  { var95 : num; sharpeRatio : num; sortinoRatio : num }.

(** A [PricingResult] used as an operand of [-] or [*]: a plain object has
    no numeric value, ToNumber gives NaN. *)
Definition result_to_number (res : PricingResult) : num := NaN.

(** Reading a property in an arithmetic context: [this.k] under ToNumber. *)
Definition numprop (this : obj) (k : string) : num :=
  Js.to_number (Js.prop this k).

(** ** MonteCarloSimulation *)

Module MonteCarloSimulation.

(** The constructor destructures its argument by the keys [spot], [strike],
    [volatility], [riskFreeRate], [maturity], [steps], [simulations],
    [useAntithetic], [useStratified], [jumpDiffusion], [type], and stores
    them as [S0], [K], [sigma], [r], [T], ... on the instance. *)
Definition constructor (params : obj) : obj :=
  let spot := Js.prop params "spot" in
  let strike := Js.prop params "strike" in
  let volatility := Js.prop params "volatility" in
  let riskFreeRate := Js.prop params "riskFreeRate" in
  let maturity := Js.prop params "maturity" in
  let steps := Js.prop params "steps" in
  let simulations := Js.prop params "simulations" in
  let useAntithetic := Js.or_default (Js.prop params "useAntithetic") (VBool true) in
  let useStratified := Js.or_default (Js.prop params "useStratified") (VBool true) in
  let jumpDiffusion := Js.or_default (Js.prop params "jumpDiffusion") (VBool false) in
  let type := Js.or_default (Js.prop params "type") (VStr "call") in
  let this : obj := <["S0" := spot]> ∅ in
  let this := <["K" := strike]> this in
  let this := <["sigma" := volatility]> this in
  let this := <["r" := riskFreeRate]> this in
  let this := <["T" := maturity]> this in
  let this := <["steps" := steps]> this in
  let this := <["simulations" := simulations]> this in
  let this := <["dt" := VNum (numprop this "T" / numprop this "steps")]> this in
  let this := <["useAntithetic" := useAntithetic]> this in
  let this := <["useStratified" := useStratified]> this in
  let this := <["jumpDiffusion" := jumpDiffusion]> this in
  let this := <["type" := type]> this in
  if Js.truthy jumpDiffusion then
    <["sigmaJ" := VNum (Real 0.2)]>
      (<["muJ" := VNum (Real (-0.1))]>
         (<["lambda" := VNum (Real 1.0)]> this))
  else this.

(** Acklam's approximation of the inverse normal distribution function. *)
Definition normalInverse (p : num) : num :=
  let a1 := Real (-39.6968302866538) in
  let a2 := Real 220.946098424521 in
  let a3 := Real (-275.928510446969) in
  let a4 := Real 138.357751867269 in
  let a5 := Real (-30.6647980661472) in
  let a6 := Real 2.50662827745924 in
  let b1 := Real (-54.4760987982241) in
  let b2 := Real 161.585836858041 in
  let b3 := Real (-155.698979859887) in
  let b4 := Real 66.8013118877197 in
  let b5 := Real (-13.2806815528857) in
  let c1 := Real (-7.78489400243029E-03) in
  let c2 := Real (-0.322396458041136) in
  let c3 := Real (-2.40075827716184) in
  let c4 := Real (-2.54973253934373) in
  let c5 := Real 4.37466414146497 in
  let c6 := Real 2.93816398269878 in
  let d1 := Real 7.78469570904146E-03 in
  let d2 := Real 0.32246712907004 in
  let d3 := Real 2.445134137143 in
  let d4 := Real 3.75440866190742 in
  let p_low := Real 0.02425 in
  let p_high := (Real 1 - p_low)%num in
  (if Num.ltb p p_low then
    let q := Num.sqrt (Real (-2) * Num.log p) in
    (((((c1 * q + c2) * q + c3) * q + c4) * q + c5) * q + c6) /
    ((((d1 * q + d2) * q + d3) * q + d4) * q + Real 1)
  else if Num.leb p p_high then
    let q := p - Real 0.5 in
    let r := q * q in
    (((((a1 * r + a2) * r + a3) * r + a4) * r + a5) * r + a6) * q /
    (((((b1 * r + b2) * r + b3) * r + b4) * r + b5) * r + Real 1)
  else
    let q := Num.sqrt (Real (-2) * Num.log (Real 1 - p)) in
    - (((((c1 * q + c2) * q + c3) * q + c4) * q + c5) * q + c6) /
    ((((d1 * q + d2) * q + d3) * q + d4) * q + Real 1))%num.

(** The two sampling loops of [generateRandomNumbers]: [n] trips left,
    [i] the loop index, [z] the array being filled. *)
Fixpoint stratified_loop (n i : nat) (effectiveSimulations : num)
    (z : list num) : M (list num) :=
  match n with
  | O => ret z
  | S n' =>
      do x <- random;
      let u := (Num.of_nat i + x) / effectiveSimulations in
      stratified_loop n' (S i) effectiveSimulations
        (Js.set_index NaN i (normalInverse u) z)
  end%num.

Fixpoint standard_loop (n i : nat) (z : list num) : M (list num) :=
  match n with
  | O => ret z
  | S n' =>
      do x <- random;
      standard_loop n' (S i) (Js.set_index NaN i (normalInverse x) z)
  end.

Definition generateRandomNumbers (this : obj) : M (list num) :=
  let effectiveSimulations :=
    if Js.truthy (Js.prop this "useAntithetic")
    then Num.ceil (numprop this "simulations" / Real 2)
    else numprop this "simulations" in
  do z <- lift (Js.new_array NaN effectiveSimulations);
  do z <- (if Js.truthy (Js.prop this "useStratified")
           then stratified_loop (Num.trips effectiveSimulations) 0
                  effectiveSimulations z
           else standard_loop (Num.trips effectiveSimulations) 0 z);
  if Js.truthy (Js.prop this "useAntithetic") then
    let antithetic := map Num.neg z in
    ret (Js.slice_to (numprop this "simulations") (z ++ antithetic))
  else ret z.

(** One trip of the inner loop of [simulatePaths], up to the exponent. *)
Definition step_movement (this : obj) (drift diffusion : num) : M num :=
  do zs <- generateRandomNumbers this;
  let z := Js.at_index zs 0 in
  let movement := (drift + diffusion * z)%num in
  if Js.truthy (Js.prop this "jumpDiffusion") then
    do u <- random;
    let jumpOccurs := Num.ltb u (numprop this "lambda" * numprop this "dt") in
    if jumpOccurs then
      do v <- random;
      let jumpSize := (numprop this "muJ"
                       + numprop this "sigmaJ" * normalInverse v)%num in
      ret (movement + jumpSize)%num
    else ret movement
  else ret movement.

Fixpoint step_loop (this : obj) (drift diffusion : num) (n step : nat)
    (path : list num) : M (list num) :=
  match n with
  | O => ret path
  | S n' =>
      do movement <- step_movement this drift diffusion;
      step_loop this drift diffusion n' (S step)
        (Js.set_index NaN (S step)
           (Js.at_index path step * Num.exp movement)%num path)
  end.

Fixpoint sim_loop (this : obj) (drift diffusion : num) (n sim : nat)
    (paths : list (list num)) : M (list (list num)) :=
  match n with
  | O => ret paths
  | S n' =>
      do path <- lift (Js.new_array NaN (numprop this "steps" + Real 1));
      let path := Js.set_index NaN 0 (numprop this "S0") path in
      do path <- step_loop this drift diffusion
                   (Num.trips (numprop this "steps")) 0 path;
      sim_loop this drift diffusion n' (S sim) (Js.set_index [] sim path paths)
  end.

Definition simulatePaths (this : obj) : M (list (list num)) :=
  do paths <- lift (Js.new_array [] (numprop this "simulations"));
  let drift := ((numprop this "r"
                 - Real 0.5 * numprop this "sigma" * numprop this "sigma")
                * numprop this "dt")%num in
  let diffusion := (numprop this "sigma" * Num.sqrt (numprop this "dt"))%num in
  sim_loop this drift diffusion (Num.trips (numprop this "simulations")) 0 paths.

Definition calculateConfidenceInterval (prices : list num)
    : outcome ConfidenceInterval :=
  try total <- Js.reduce1 Num.add prices;
  let mean := (total / Js.length_of prices)%num in
  let variance :=
    (foldl (fun a b => a + Num.sqr (b - mean)) (Real 0) prices
     / (Js.length_of prices - Real 1))%num in
  let stderr := Num.sqrt (variance / Js.length_of prices) in
  let ci95 := (Real 1.96 * stderr)%num in
  Ok {| mean := mean; lower := (mean - ci95)%num; upper := (mean + ci95)%num |}.

(** The vanilla payoff of a terminal price. *)
Definition vanilla_payoff (this : obj) (finalPrice : num) : num :=
  if Js.is_string (Js.prop this "type") "call"
  then Num.max (finalPrice - numprop this "K") (Real 0)
  else Num.max (numprop this "K" - finalPrice) (Real 0).

(** The discounting and the assembly of the result, which the four
    [calculatePrice] methods spell out identically. *)
Definition present_value (this : obj) (paths : list (list num))
    (payoffs : list num) : outcome PricingResult :=
  let discount := Num.exp (- numprop this "r" * numprop this "T") in
  try total <- Js.reduce1 Num.add payoffs;
  let price := (total / Js.length_of payoffs * discount)%num in
  try ci <- calculateConfidenceInterval (map (fun p => p * discount)%num payoffs);
  Ok {| price := price; confidence := ci; paths := paths;
        payoffs := map (fun p => p * discount)%num payoffs |}.

(** [calculatePrice(paths)] on a path set that is given. *)
Definition calculatePrice_given (this : obj) (paths : list (list num))
    : outcome PricingResult :=
  let payoffs := map (fun path => vanilla_payoff this (Js.last_of path)) paths in
  present_value this paths payoffs.

(** [calculatePrice(paths = null)]: no argument simulates the paths. *)
Definition calculatePrice (this : obj) (paths : option (list (list num)))
    : M PricingResult :=
  match paths with
  | None => do ps <- simulatePaths this; lift (calculatePrice_given this ps)
  | Some ps => lift (calculatePrice_given this ps)
  end.

(** [a[i]] for a number [i]. *)
Definition index_by (l : list num) (i : num) : num :=
  match Num.to_length i with
  | Some k => Js.at_index l k
  | None => NaN
  end.

Definition calculateRiskMetrics (this : obj) (paths : list (list num))
    : outcome RiskMetricsResult :=
  let prices := map Js.last_of paths in
  let returns := map (fun price => Num.log (price / numprop this "S0")) prices in
  let sortedReturns := Js.sort returns in
  let var95 :=
    (- index_by sortedReturns (Num.floor (Real 0.05 * Js.length_of returns)))%num in
  try total <- Js.reduce1 Num.add returns;
  let meanReturn := (total / Js.length_of returns)%num in
  let stdDev :=
    Num.sqrt (foldl (fun a b => a + Num.sqr (b - meanReturn)) (Real 0) returns
              / (Js.length_of returns - Real 1))%num in
  let sharpeRatio := ((meanReturn - numprop this "r") / stdDev)%num in
  let negativeReturns := filter (fun r => Num.ltb r (Real 0) = true) returns in
  let downstdDev :=
    Num.sqrt (foldl (fun a b => a + Num.sqr b) (Real 0) negativeReturns
              / Js.length_of negativeReturns)%num in
  let sortinoRatio := ((meanReturn - numprop this "r") / downstdDev)%num in
  Ok {| var95 := var95; sharpeRatio := sharpeRatio; sortinoRatio := sortinoRatio |}.

End MonteCarloSimulation.

(** [paths.map(f)] for a callback that may throw: the first exception ends
    the traversal. *)
Fixpoint map_outcome {A B} (f : A -> outcome B) (l : list A) : outcome (list B) :=
  match l with
  | [] => Ok []
  | x :: t =>
      try y <- f x;
      try ys <- map_outcome f t;
      Ok (y :: ys)
  end.

(** ** AsianOption *)

Module AsianOption.

Definition constructor (params : obj) : obj :=
  let this := MonteCarloSimulation.constructor params in
  let this := <["type" := Js.or_else (Js.prop params "type") (VStr "call")]> this in
  <["averageType" :=
      Js.or_else (Js.prop params "averageType") (VStr "arithmetic")]> this.

Definition average (this : obj) (path : list num) : outcome num :=
  if Js.is_string (Js.prop this "averageType") "arithmetic" then
    try total <- Js.reduce1 Num.add path;
    Ok (total / Js.length_of path)%num
  else
    try total <- Js.reduce1 (fun a b => a + Num.log b)%num path;
    Ok (Num.exp (total / Js.length_of path)).

Definition payoff (this : obj) (path : list num) : outcome num :=
  try average <- average this path;
  if Js.is_string (Js.prop this "type") "call"
  then Ok (Num.max (average - numprop this "K") (Real 0))
  else Ok (Num.max (numprop this "K" - average) (Real 0)).

Definition calculatePrice_given (this : obj) (paths : list (list num))
    : outcome PricingResult :=
  try payoffs <- map_outcome (payoff this) paths;
  MonteCarloSimulation.present_value this paths payoffs.

Definition calculatePrice (this : obj) (paths : option (list (list num)))
    : M PricingResult :=
  match paths with
  | None =>
      do ps <- MonteCarloSimulation.simulatePaths this;
      lift (calculatePrice_given this ps)
  | Some ps => lift (calculatePrice_given this ps)
  end.

End AsianOption.

(** ** BarrierOption *)

Module BarrierOption.

Definition constructor (params : obj) : outcome obj :=
  let this := MonteCarloSimulation.constructor params in
  let this := <["type" := Js.or_else (Js.prop params "type") (VStr "call")]> this in
  let this :=
    <["barrierType" :=
        Js.or_else (Js.prop params "barrierType") (VStr "up-and-out")]> this in
  let this :=
    <["barrier" :=
        Js.or_else (Js.prop params "barrier")
          (VNum (numprop this "K" * Real 1.2))]> this in
  try up <- Js.startsWith (Js.prop this "barrierType") "up";
  if up && Num.leb (numprop this "barrier") (numprop this "S0")
  then Throw (Error "Up barrier must be above spot price")
  else
    try down <- Js.startsWith (Js.prop this "barrierType") "down";
    if down && Num.geb (numprop this "barrier") (numprop this "S0")
    then Throw (Error "Down barrier must be below spot price")
    else Ok this.

Definition checkBarrierHit (this : obj) (path : list num) : outcome bool :=
  try up <- Js.startsWith (Js.prop this "barrierType") "up";
  if up
  then Ok (existsb (fun price => Num.geb price (numprop this "barrier")) path)
  else Ok (existsb (fun price => Num.leb price (numprop this "barrier")) path).

Definition payoff (this : obj) (path : list num) : outcome num :=
  try isBarrierHit <- checkBarrierHit this path;
  let finalPrice := Js.last_of path in
  try out <- Js.endsWith (Js.prop this "barrierType") "out";
  if out then
    if negb isBarrierHit
    then Ok (MonteCarloSimulation.vanilla_payoff this finalPrice)
    else Ok (Real 0)
  else
    if isBarrierHit
    then Ok (MonteCarloSimulation.vanilla_payoff this finalPrice)
    else Ok (Real 0).

Definition calculatePrice_given (this : obj) (paths : list (list num))
    : outcome PricingResult :=
  try payoffs <- map_outcome (payoff this) paths;
  MonteCarloSimulation.present_value this paths payoffs.

Definition calculatePrice (this : obj) (paths : option (list (list num)))
    : M PricingResult :=
  match paths with
  | None =>
      do ps <- MonteCarloSimulation.simulatePaths this;
      lift (calculatePrice_given this ps)
  | Some ps => lift (calculatePrice_given this ps)
  end.

(** The barrier that [adjustForContinuousBarrier] substitutes. *)
Definition adjustedBarrier (this : obj) : outcome num :=
  let beta := Real 0.5826 in
  let h := (numprop this "T" / numprop this "steps")%num in
  let adjustment := (beta * numprop this "sigma" * Num.sqrt h)%num in
  try up <- Js.startsWith (Js.prop this "barrierType") "up";
  if up
  then Ok (numprop this "barrier" * Num.exp (- adjustment))%num
  else Ok (numprop this "barrier" * Num.exp adjustment)%num.

(** The method writes [this.barrier] twice; the instance it leaves behind
    is returned next to the result. An exception of the repricing leaves
    the substituted barrier in place. *)
Definition adjustForContinuousBarrier (this : obj) (result : PricingResult)
    : outcome PricingResult * obj :=
  match adjustedBarrier this with
  | Throw e => (Throw e, this)
  | Ok adjusted =>
      let tempBarrier := Js.prop this "barrier" in
      let this1 := <["barrier" := VNum adjusted]> this in
      match calculatePrice_given this1 (paths result) with
      | Throw e => (Throw e, this1)
      | Ok adjustedResult =>
          (Ok adjustedResult, <["barrier" := tempBarrier]> this1)
      end
  end.

End BarrierOption.

(** ** LookbackOption *)

Module LookbackOption.

Definition constructor (params : obj) : obj :=
  let this := MonteCarloSimulation.constructor params in
  let this := <["type" := Js.or_else (Js.prop params "type") (VStr "call")]> this in
  <["lookbackType" :=
      Js.or_else (Js.prop params "lookbackType") (VStr "fixed")]> this.

Definition payoff (this : obj) (path : list num) : num :=
  if Js.is_string (Js.prop this "lookbackType") "fixed" then
    if Js.is_string (Js.prop this "type") "call" then
      let maxPrice := Num.max_list path in
      Num.max (maxPrice - numprop this "K") (Real 0)
    else
      let minPrice := Num.min_list path in
      Num.max (numprop this "K" - minPrice) (Real 0)
  else
    let finalPrice := Js.last_of path in
    if Js.is_string (Js.prop this "type") "call" then
      let minPrice := Num.min_list path in
      Num.max (finalPrice - minPrice) (Real 0)
    else
      let maxPrice := Num.max_list path in
      Num.max (maxPrice - finalPrice) (Real 0).

Definition calculatePrice_given (this : obj) (paths : list (list num))
    : outcome PricingResult :=
  MonteCarloSimulation.present_value this paths (map (payoff this) paths).

Definition calculatePrice (this : obj) (paths : option (list (list num)))
    : M PricingResult :=
  match paths with
  | None =>
      do ps <- MonteCarloSimulation.simulatePaths this;
      lift (calculatePrice_given this ps)
  | Some ps => lift (calculatePrice_given this ps)
  end.

Definition adjustForContinuousMonitoring (this : obj) (result : PricingResult)
    : outcome PricingResult :=
  let beta := Real 0.5826 in
  let h := (numprop this "T" / numprop this "steps")%num in
  let adjustment := (beta * numprop this "sigma" * Num.sqrt h)%num in
  let adjustedPayoffs :=
    map (fun payoff => payoff * Num.exp adjustment)%num (payoffs result) in
  try total <- Js.reduce1 Num.add adjustedPayoffs;
  try ci <- MonteCarloSimulation.calculateConfidenceInterval adjustedPayoffs;
  Ok {| price := (total / Js.length_of adjustedPayoffs)%num;
        confidence := ci;
        paths := paths result;
        payoffs := adjustedPayoffs |}.

End LookbackOption.

(** ** Instances and the inherited Greeks *)

Inductive class : Type := Vanilla | Asian | Barrier | Lookback.

Record instance : Type := { class_of : class; own : obj }.

(** [this.calculatePrice(paths)]: the method of the instance's class. *)
Definition calculatePrice (this : instance) (paths : option (list (list num)))
    : M PricingResult :=
  match class_of this with
  | Vanilla => MonteCarloSimulation.calculatePrice (own this) paths
  | Asian => AsianOption.calculatePrice (own this) paths
  | Barrier => BarrierOption.calculatePrice (own this) paths
  | Lookback => LookbackOption.calculatePrice (own this) paths
  end.

(** [new MonteCarloSimulation({ ...this, k: v })]: the own properties of the
    instance, under their own names, with [k] added. *)
Definition bumped (this : instance) (k : string) (v : num) : obj :=
  MonteCarloSimulation.constructor (<[k := VNum v]> (own this)).

(** [sim.calculatePrice(sim.simulatePaths())] on a plain simulation. *)
Definition reprice (sim : obj) : M PricingResult :=
  do ps <- MonteCarloSimulation.simulatePaths sim;
  MonteCarloSimulation.calculatePrice sim (Some ps).

(** [calculateGreeks] is defined by MonteCarloSimulation and inherited by
    the three option classes. The operands of its differences are the
    objects [calculatePrice] returns. *)
Definition calculateGreeks (this : instance) (paths : list (list num))
    : M GreeksResult :=
  let h := Real 0.01 in
  let S0 := numprop (own this) "S0" in
  do basePrice <- calculatePrice this (Some paths);
  let spotUp := bumped this "spot" (S0 * (Real 1 + h)) in
  let spotDown := bumped this "spot" (S0 * (Real 1 - h)) in
  do up1 <- reprice spotUp;
  do down1 <- reprice spotDown;
  let delta := ((result_to_number up1 - result_to_number down1)
                / (Real 2 * h * S0))%num in
  do up2 <- reprice spotUp;
  do down2 <- reprice spotDown;
  let gamma := ((result_to_number up2 - Real 2 * result_to_number basePrice
                 + result_to_number down2) / (h * h * S0 * S0))%num in
  let thetaSim := bumped this "maturity" (numprop (own this) "T" * (Real 1 - h)) in
  do th <- reprice thetaSim;
  let theta := (- (result_to_number th - result_to_number basePrice)
                / (h * numprop (own this) "T"))%num in
  let vegaSim := bumped this "volatility" (numprop (own this) "sigma" * (Real 1 + h)) in
  do ve <- reprice vegaSim;
  let vega := ((result_to_number ve - result_to_number basePrice)
               / (h * numprop (own this) "sigma"))%num in
  let rhoSim := bumped this "riskFreeRate" (numprop (own this) "r" * (Real 1 + h)) in
  do rh <- reprice rhoSim;
  let rho := ((result_to_number rh - result_to_number basePrice)
              / (h * numprop (own this) "r"))%num in
  ret {| delta := delta; gamma := gamma; theta := theta; vega := vega; rho := rho |}.

(** ** Correlation utilities: the Cholesky factorisation *)

Module Matrix.

(** [m[i][j]]. *)
Definition entry (m : list (list num)) (i j : nat) : num :=
  Js.at_index (default [] (m !! i)) j.

(** [m[i][j] = v]. *)
Definition set_entry (m : list (list num)) (i j : nat) (v : num)
    : list (list num) :=
  Js.set_index [] i (Js.set_index NaN j v (default [] (m !! i))) m.

(** [for (k = 0; k < j; k++) sum += a[k] * b[k]], from [sum = 0], on the
    rows [a] and [b] of [L]. *)
Definition dot_prefix (L : list (list num)) (a b j : nat) : num :=
  foldl (fun sum k => sum + entry L a k * entry L b k)%num (Real 0) (seq 0 j).

(** The loop over [j <= i]: [n] trips left. *)
Fixpoint column_loop (matrix : list (list num)) (i n j : nat)
    (L : list (list num)) : list (list num) :=
  match n with
  | O => L
  | S n' =>
      let L' :=
        if (j =? i)%nat then
          let sum := dot_prefix L j j j in
          set_entry L i j (Num.sqrt (entry matrix i i - sum))
        else
          let sum := dot_prefix L i j j in
          set_entry L i j ((entry matrix i j - sum) / entry L j j)%num
      in column_loop matrix i n' (S j) L'
  end.

(** The loop over the rows [i < n], with the test that follows each row. *)
Fixpoint row_loop (matrix : list (list num)) (n i : nat)
    (L : list (list num)) : outcome (list (list num)) :=
  match n with
  | O => Ok L
  | S n' =>
      let L' := column_loop matrix i (S i) 0 L in
      if Num.leb (entry L' i i) (Real 0)
      then Throw (Error "Matrix is not positive definite")
      else row_loop matrix n' (S i) L'
  end.

Definition cholesky (matrix : list (list num)) : outcome (list (list num)) :=
  let n := length matrix in
  let L := replicate n (replicate n (Real 0)) in
  row_loop matrix n 0 L.

End Matrix.

(** ** Configurations *)

(** The parameters a caller supplies (SimulationParameters): numbers under
    the numeric keys, whole numbers of steps and of simulations. *)
Record SimulationParameters : Type :=
  { spot : num;
    strike : num;
    volatility : num;
    riskFreeRate : num;
    maturity : num;
    steps : nat;
    simulations : nat;
    useAntithetic : bool;
    useStratified : bool;
    jumpDiffusion : bool;
    type : string }.

(** The object literal handed to a constructor. *)
Definition to_params (c : SimulationParameters) : obj :=
  <["spot" := VNum (spot c)]>
    (<["strike" := VNum (strike c)]>
    (<["volatility" := VNum (volatility c)]>
    (<["riskFreeRate" := VNum (riskFreeRate c)]>
    (<["maturity" := VNum (maturity c)]>
    (<["steps" := VNum (Num.of_nat (steps c))]>
    (<["simulations" := VNum (Num.of_nat (simulations c))]>
    (<["useAntithetic" := VBool (useAntithetic c)]>
    (<["useStratified" := VBool (useStratified c)]>
    (<["jumpDiffusion" := VBool (jumpDiffusion c)]>
    (<["type" := VStr (type c)]> ∅)))))))))).

(** The variant-specific keys of a request. *)
Definition with_key (k : string) (v : value) (params : obj) : obj :=
  <[k := v]> params.

(** [new C(params)]: only the constructor of BarrierOption can throw. *)
Definition new_instance (c : class) (params : obj) : outcome instance :=
  match c with
  | Vanilla => Ok {| class_of := Vanilla; own := MonteCarloSimulation.constructor params |}
  | Asian => Ok {| class_of := Asian; own := AsianOption.constructor params |}
  | Barrier =>
      try this <- BarrierOption.constructor params;
      Ok {| class_of := Barrier; own := this |}
  | Lookback => Ok {| class_of := Lookback; own := LookbackOption.constructor params |}
  end.

(** ** Reference definitions

    The wording of the specification, as definitions of their own, to be
    compared with the embedded code. *)

(** The random source after [k] more calls of [Math.random]. *)
Definition advance (k : nat) (s : rng) : rng :=
  {| draws := draws s; cursor := cursor s + k |}.

(** The uniform that the [i]-th next call of [Math.random] returns. *)
Definition uniform_at (s : rng) (i : nat) : num :=
  Real (draws s (cursor s + i)).

(** The effective draw count: [ceil(m/2)] with antithetic variates. *)
Definition effective_count (antithetic : bool) (m : nat) : nat :=
  if antithetic then ((m + 1) / 2)%nat else m.

(** The [i]-th effective draw: [normalInverse((i + U)/m_eff)] when
    stratified, [normalInverse(U)] otherwise. *)
Definition effective_draw (stratified : bool) (m_eff : nat) (s : rng) (i : nat)
    : num :=
  MonteCarloSimulation.normalInverse
    (if stratified
     then ((Num.of_nat i + uniform_at s i) / Num.of_nat m_eff)%num
     else uniform_at s i).

(** The draws as section 4.3 words them: the effective draws, followed with
    antithetic variates by their mirror images, cut to [m]. *)
Definition specified_draws (antithetic stratified : bool) (m : nat) (s : rng)
    : list num :=
  let m_eff := effective_count antithetic m in
  let z := map (effective_draw stratified m_eff s) (seq 0 m_eff) in
  if antithetic then take m (z ++ map Num.neg z) else z.

(** A request used to exercise the statements below: an at-the-money call
    over two steps and three simulations, and a source of uniforms that
    returns 1/2 for ever. *)
Definition sample_parameters : SimulationParameters :=
  {| spot := Real 100; strike := Real 100; volatility := Real 0.2;
     riskFreeRate := Real 0.05; maturity := Real 1;
     steps := 2; simulations := 3;
     useAntithetic := true; useStratified := true; jumpDiffusion := false;
     type := "call" |}.

Definition sample_rng : rng := {| draws := fun _ => 1 / 2; cursor := 0 |}.

(** The request for a barrier option: the common parameters and the two
    variant keys. *)
Definition barrier_request (c : SimulationParameters) (barrierType : string)
    (barrier : num) : obj :=
  with_key "barrier" (VNum barrier)
    (with_key "barrierType" (VStr barrierType) (to_params c)).

(** The barrier a constructed option monitors: the one supplied, or 1.2 K
    when the supplied one is missing, zero or NaN. *)
Definition effective_barrier (params : obj) : num :=
  Js.to_number
    (Js.or_else (Js.prop params "barrier")
       (VNum (Js.to_number (Js.prop params "strike") * Real 1.2))).

(** The barrier type a constructed option has. *)
Definition effective_barrierType (params : obj) : value :=
  Js.or_else (Js.prop params "barrierType") (VStr "up-and-out").



(** The up-and-out call with barrier 120 on the sample request, as its
    constructor builds it. *)
Definition sample_barrier : obj :=
  <["barrier" := VNum (Real 120)]>
    (<["barrierType" := VStr "up-and-out"]>
       (<["type" := VStr "call"]>
          (MonteCarloSimulation.constructor (to_params sample_parameters)))).

(** The arithmetic mean of a sample of reals. *)
Definition sum_R (l : list R) : R := foldr Rplus 0 l.
Definition mean_R (l : list R) : R := sum_R l / INR (length l).

(** A number that is a real, and one that is a positive real. *)
Definition is_real (a : num) : Prop := exists x, a = Real x.
Definition positive (a : num) : Prop := exists x, a = Real x /\ 0 < x.

(** A path of the data model: at least one price, every price positive. *)
Definition well_formed_path (path : list num) : Prop :=
  path <> [] /\ Forall positive path.

(** A pricing result that carries a path set, for the corrections. *)
Definition result_on (paths : list (list num)) (payoffs : list num)
    : PricingResult :=
  {| price := Real 0;
     confidence := {| mean := Real 0; lower := Real 0; upper := Real 0 |};
     paths := paths;
     payoffs := payoffs |}.

(** The sample request as a put. *)
Definition sample_put : SimulationParameters :=
  {| spot := Real 100; strike := Real 100; volatility := Real 0.2;
     riskFreeRate := Real 0.05; maturity := Real 1;
     steps := 2; simulations := 3;
     useAntithetic := true; useStratified := true; jumpDiffusion := false;
     type := "put" |}.

(** The paths as section 4.3 words them. One step calls
    [generateRandomNumbers] on the random source as it stands, takes the
    first entry of the array as its normal [Z], and moves the logarithm of
    the price by [drift + diffusion Z], plus the jump when jump diffusion is
    enabled and the next uniform falls below [lambda dt]. *)
Inductive step_of (this : obj) (drift diffusion : num)
    : rng -> num -> rng -> Prop :=
| step_plain s zs s1 :
    Js.truthy (Js.prop this "jumpDiffusion") = false ->
    MonteCarloSimulation.generateRandomNumbers this s = Ok (zs, s1) ->
    step_of this drift diffusion s
      (drift + diffusion * Js.at_index zs 0)%num s1
| step_no_jump s zs s1 :
    Js.truthy (Js.prop this "jumpDiffusion") = true ->
    MonteCarloSimulation.generateRandomNumbers this s = Ok (zs, s1) ->
    Num.ltb (uniform_at s1 0) (numprop this "lambda" * numprop this "dt") = false ->
    step_of this drift diffusion s
      (drift + diffusion * Js.at_index zs 0)%num (advance 1 s1)
| step_jump s zs s1 :
    Js.truthy (Js.prop this "jumpDiffusion") = true ->
    MonteCarloSimulation.generateRandomNumbers this s = Ok (zs, s1) ->
    Num.ltb (uniform_at s1 0) (numprop this "lambda" * numprop this "dt") = true ->
    step_of this drift diffusion s
      (drift + diffusion * Js.at_index zs 0
       + (numprop this "muJ"
          + numprop this "sigmaJ"
            * MonteCarloSimulation.normalInverse (uniform_at s1 1)))%num
      (advance 2 s1).

(** [k] steps from a price: each next price is the previous one times the
    exponential of the step's movement. *)
Inductive walk (this : obj) (drift diffusion : num)
    : nat -> num -> rng -> list num -> rng -> Prop :=
| walk_end price s : walk this drift diffusion 0 price s [] s
| walk_step k price s movement s1 rest s2 :
    step_of this drift diffusion s movement s1 ->
    walk this drift diffusion k (price * Num.exp movement)%num s1 rest s2 ->
    walk this drift diffusion (S k) price s
      ((price * Num.exp movement)%num :: rest) s2.

(** [m] paths of [n] steps, one after the other, each from [S0]. *)
Inductive walks (this : obj) (drift diffusion : num) (n : nat)
    : nat -> rng -> list (list num) -> rng -> Prop :=
| walks_end s : walks this drift diffusion n 0 s [] s
| walks_next m s rest s1 others s2 :
    walk this drift diffusion n (numprop this "S0") s rest s1 ->
    walks this drift diffusion n m s1 others s2 ->
    walks this drift diffusion n (S m) s
      ((numprop this "S0" :: rest) :: others) s2.

(** The drift [(r - sigma^2 / 2) dt] and the diffusion [sigma sqrt(dt)]. *)
Definition drift_of (this : obj) : num :=
  ((numprop this "r" - Real 0.5 * numprop this "sigma" * numprop this "sigma")
   * numprop this "dt")%num.

Definition diffusion_of (this : obj) : num :=
  (numprop this "sigma" * Num.sqrt (numprop this "dt"))%num.

(** The terminal log-returns [ln(S_T / S0)] of a path set. *)
Definition log_returns (this : obj) (paths : list (list num)) : list num :=
  map (fun path => Num.log (Js.last_of path / numprop this "S0")%num) paths.

(** The sample request at a zero risk-free rate. *)
Definition sample_zero_rate : SimulationParameters :=
  {| spot := Real 100; strike := Real 100; volatility := Real 0.2;
     riskFreeRate := Real 0; maturity := Real 1;
     steps := 2; simulations := 3;
     useAntithetic := true; useStratified := true; jumpDiffusion := false;
     type := "call" |}.

(** The plain simulation built from the sample request. *)
Definition sample_instance : instance :=
  {| class_of := Vanilla;
     own := MonteCarloSimulation.constructor (to_params sample_parameters) |}.

(** ** Special functions: the normal distribution function

    AsianOption, BarrierOption and LookbackOption each carry the same
    [normalCDF], letter for letter. *)

Module SpecialFunctions.

Definition normalCDF (x : num) : num :=
  (let t := Real 1 / (Real 1 + Real 0.2316419 * Num.abs x) in
   let d := Real 0.3989423 * Num.exp (- x * x / Real 2) in
   let p := d * t * (Real 0.3193815
                     + t * (Real (-0.3565638)
                            + t * (Real 1.781478
                                   + t * (Real (-1.821256)
                                          + t * Real 1.330274)))) in
   if Num.gtb x (Real 0) then Real 1 - p else p)%num.

End SpecialFunctions.

(** ** AsianOption: the control variate *)

Module ControlVariate.

(** [x.reduce((sum, xi, i) => sum + (xi - meanX) * (y[i] - meanY), 0)]:
    the fold carries the index next to the sum. *)
Fixpoint cross_sum (meanX meanY : num) (y : list num) (i : nat) (sum : num)
    (x : list num) : num :=
  match x with
  | [] => sum
  | xi :: x' =>
      cross_sum meanX meanY y (S i)
        (sum + (xi - meanX) * (Js.at_index y i - meanY))%num x'
  end.

Definition calculateCovariance (x y : list num) : outcome num :=
  let n := Js.length_of x in
  try totalX <- Js.reduce1 Num.add x;
  let meanX := (totalX / n)%num in
  try totalY <- Js.reduce1 Num.add y;
  let meanY := (totalY / n)%num in
  Ok (cross_sum meanX meanY y 0 (Real 0) x / (n - Real 1))%num.

Definition calculateVariance (x : list num) : outcome num :=
  let n := Js.length_of x in
  try total <- Js.reduce1 Num.add x;
  let mean := (total / n)%num in
  Ok (foldl (fun sum xi => sum + Num.sqr (xi - mean))%num (Real 0) x
      / (n - Real 1))%num.

Definition calculateGeometricPrice (this : obj) : num :=
  (let n := numprop this "steps" + Real 1 in
   let sigma_adj :=
     numprop this "sigma"
     * Num.sqrt ((n + Real 1) * (Real 2 * n + Real 1) / (Real 6 * n * n)) in
   let mu_adj :=
     (numprop this "r" - Real 0.5 * numprop this "sigma" * numprop this "sigma")
     * (n + Real 1) / (Real 2 * n)
     + Real 0.5 * sigma_adj * sigma_adj in
   let d1 :=
     (Num.log (numprop this "S0" / numprop this "K")
      + (mu_adj + Real 0.5 * sigma_adj * sigma_adj) * numprop this "T")
     / (sigma_adj * Num.sqrt (numprop this "T")) in
   let d2 := d1 - sigma_adj * Num.sqrt (numprop this "T") in
   if Js.is_string (Js.prop this "type") "call" then
     numprop this "S0" * Num.exp ((mu_adj - numprop this "r") * numprop this "T")
     * SpecialFunctions.normalCDF d1
     - numprop this "K" * Num.exp (- numprop this "r" * numprop this "T")
       * SpecialFunctions.normalCDF d2
   else
     numprop this "K" * Num.exp (- numprop this "r" * numprop this "T")
     * SpecialFunctions.normalCDF (- d2)
     - numprop this "S0" * Num.exp ((mu_adj - numprop this "r") * numprop this "T")
       * SpecialFunctions.normalCDF (- d1))%num.

Definition arithmeticPayoff (this : obj) (path : list num) : outcome num :=
  try total <- Js.reduce1 Num.add path;
  let arithmeticAvg := (total / Js.length_of path)%num in
  if Js.is_string (Js.prop this "type") "call"
  then Ok (Num.max (arithmeticAvg - numprop this "K") (Real 0))
  else Ok (Num.max (numprop this "K" - arithmeticAvg) (Real 0)).

Definition geometricPayoff (this : obj) (path : list num) : outcome num :=
  try total <- Js.reduce1 (fun a b => a + Num.log b)%num path;
  let geometricAvg := Num.exp (total / Js.length_of path) in
  if Js.is_string (Js.prop this "type") "call"
  then Ok (Num.max (geometricAvg - numprop this "K") (Real 0))
  else Ok (Num.max (numprop this "K" - geometricAvg) (Real 0)).

(** [arithmeticPayoffs.map((x, i) => x - beta * (geometricPayoffs[i] - g))]. *)
Fixpoint adjust (beta geometricPrice : num) (geometricPayoffs : list num)
    (i : nat) (arithmeticPayoffs : list num) : list num :=
  match arithmeticPayoffs with
  | [] => []
  | x :: rest =>
      (x - beta * (Js.at_index geometricPayoffs i - geometricPrice))%num
      :: adjust beta geometricPrice geometricPayoffs (S i) rest
  end.

Definition calculateControlVariate (this : obj) (paths : list (list num))
    : outcome PricingResult :=
  try arithmeticPayoffs <- map_outcome (arithmeticPayoff this) paths;
  try geometricPayoffs <- map_outcome (geometricPayoff this) paths;
  let geometricPrice := calculateGeometricPrice this in
  try covXY <- calculateCovariance arithmeticPayoffs geometricPayoffs;
  try varY <- calculateVariance geometricPayoffs;
  let beta := (covXY / varY)%num in
  let adjustedPayoffs :=
    adjust beta geometricPrice geometricPayoffs 0 arithmeticPayoffs in
  MonteCarloSimulation.present_value this paths adjustedPayoffs.

End ControlVariate.

(** ** Correlation utilities: the other matrix operations *)

Module MatrixOperations.

(** [Array(rows).fill().map(() => Array(cols).fill(0))]. *)
Definition zeros (rows cols : nat) : list (list num) :=
  replicate rows (replicate cols (Real 0)).

(** [transpose]: the loop over [j < cols] of row [i], [n] trips left. *)
Fixpoint transpose_row (matrix : list (list num)) (i n j : nat)
    (result : list (list num)) : list (list num) :=
  match n with
  | O => result
  | S n' =>
      transpose_row matrix i n' (S j)
        (Matrix.set_entry result j i (Matrix.entry matrix i j))
  end.

Fixpoint transpose_rows (matrix : list (list num)) (cols n i : nat)
    (result : list (list num)) : list (list num) :=
  match n with
  | O => result
  | S n' =>
      transpose_rows matrix cols n' (S i) (transpose_row matrix i cols 0 result)
  end.

(** [matrix[0].length] on the empty matrix is a TypeError. *)
Definition transpose (matrix : list (list num)) : outcome (list (list num)) :=
  match matrix with
  | [] => Throw TypeError
  | row0 :: _ =>
      let rows := length matrix in
      let cols := length row0 in
      Ok (transpose_rows matrix cols rows 0 (zeros cols rows))
  end.

(** [matrixMultiply]: the loop over [k < p] that accumulates into
    [result[i][j]]. *)
Fixpoint multiply_cell (a b : list (list num)) (i j n k : nat)
    (result : list (list num)) : list (list num) :=
  match n with
  | O => result
  | S n' =>
      multiply_cell a b i j n' (S k)
        (Matrix.set_entry result i j
           (Matrix.entry result i j + Matrix.entry a i k * Matrix.entry b k j)%num)
  end.

Fixpoint multiply_row (a b : list (list num)) (p i n j : nat)
    (result : list (list num)) : list (list num) :=
  match n with
  | O => result
  | S n' => multiply_row a b p i n' (S j) (multiply_cell a b i j p 0 result)
  end.

Fixpoint multiply_rows (a b : list (list num)) (p cols n i : nat)
    (result : list (list num)) : list (list num) :=
  match n with
  | O => result
  | S n' => multiply_rows a b p cols n' (S i) (multiply_row a b p i cols 0 result)
  end.

Definition matrixMultiply (a b : list (list num)) : outcome (list (list num)) :=
  let m := length a in
  match b with
  | [] => Throw TypeError
  | b0 :: _ =>
      let n := length b0 in
      let p := length b in
      match a with
      | [] => Throw TypeError
      | a0 :: _ =>
          if negb (length a0 =? p)%nat
          then Throw (Error "Invalid matrix dimensions for multiplication")
          else Ok (multiply_rows a b p n m 0 (zeros m n))
      end
  end.

(** [isSymmetric]: the loop over [j < i], then the loop over [i < n]; a
    pair that differs by more than the tolerance ends both. *)
Fixpoint symmetric_row (matrix : list (list num)) (i n j : nat) : bool :=
  match n with
  | O => true
  | S n' =>
      if Num.gtb (Num.abs (Matrix.entry matrix i j - Matrix.entry matrix j i))
           (Real 1e-10)
      then false
      else symmetric_row matrix i n' (S j)
  end.

Fixpoint symmetric_rows (matrix : list (list num)) (n i : nat) : bool :=
  match n with
  | O => true
  | S n' =>
      if symmetric_row matrix i i 0 then symmetric_rows matrix n' (S i)
      else false
  end.

Definition isSymmetric (matrix : list (list num)) : bool :=
  symmetric_rows matrix (length matrix) 0.

(** The loop over the diagonal and the loop over all entries of
    [isValidCorrelationMatrix]. *)
Fixpoint unit_diagonal (matrix : list (list num)) (n i : nat) : bool :=
  match n with
  | O => true
  | S n' =>
      if Num.gtb (Num.abs (Matrix.entry matrix i i - Real 1)) (Real 1e-10)
      then false
      else unit_diagonal matrix n' (S i)
  end.

Fixpoint bounded_row (matrix : list (list num)) (i n j : nat) : bool :=
  match n with
  | O => true
  | S n' =>
      if Num.ltb (Matrix.entry matrix i j) (Real (-1))
         || Num.gtb (Matrix.entry matrix i j) (Real 1)
      then false
      else bounded_row matrix i n' (S j)
  end.

Fixpoint bounded_rows (matrix : list (list num)) (size n i : nat) : bool :=
  match n with
  | O => true
  | S n' =>
      if bounded_row matrix i size 0 then bounded_rows matrix size n' (S i)
      else false
  end.

Definition isValidCorrelationMatrix (matrix : list (list num)) : bool :=
  let n := length matrix in
  if negb (forallb (fun row => (length row =? n)%nat) matrix) then false
  else if negb (isSymmetric matrix) then false
  else if negb (unit_diagonal matrix n 0) then false
  else if negb (bounded_rows matrix n n 0) then false
  else match Matrix.cholesky matrix with
       | Ok _ => true
       | Throw _ => false
       end.

(** [generateCorrelatedVariables]: the loop over [j <= i] that accumulates
    into [result[i]]. *)
Fixpoint correlate_row (L : list (list num)) (standardNormals : list num)
    (i n j : nat) (result : list num) : list num :=
  match n with
  | O => result
  | S n' =>
      correlate_row L standardNormals i n' (S j)
        (Js.set_index NaN i
           (Js.at_index result i
            + Matrix.entry L i j * Js.at_index standardNormals j)%num result)
  end.

Fixpoint correlate_rows (L : list (list num)) (standardNormals : list num)
    (n i : nat) (result : list num) : list num :=
  match n with
  | O => result
  | S n' =>
      correlate_rows L standardNormals n' (S i)
        (correlate_row L standardNormals i (S i) 0 result)
  end.

Definition generateCorrelatedVariables (correlationMatrix : list (list num))
    (standardNormals : list num) : outcome (list num) :=
  try L <- Matrix.cholesky correlationMatrix;
  let n := length correlationMatrix in
  Ok (correlate_rows L standardNormals n 0 (replicate n (Real 0))).

End MatrixOperations.

(** ** Reference definitions on paths of reals *)

(** A path set whose prices are reals. *)
Definition real_paths (rpaths : list (list R)) : list (list num) :=
  map (map Real) rpaths.

(** The terminal price of a path of reals. *)
Definition terminal (path : list R) : R := List.last path 0.

(** The vanilla payoff on reals. *)
Definition vanilla_R (call : bool) (k x : R) : R :=
  if call then Rmax (x - k) 0 else Rmax (k - x) 0.

(** The largest and the smallest price of a path of reals. *)
Definition highest (path : list R) : R :=
  match path with [] => 0 | x :: rest => foldl Rmax x rest end.
Definition lowest (path : list R) : R :=
  match path with [] => 0 | x :: rest => foldl Rmin x rest end.

(** The breach of a real barrier by a path of reals, and the payoff of a
    knock-out ([out]) or knock-in option from the breach and the vanilla
    payoff. *)
Definition breach_R (up : bool) (b : R) (path : list R) : bool :=
  existsb (fun x => if up then Num.Rleb b x else Num.Rleb x b) path.

Definition knock_R (out hit : bool) (v : R) : R :=
  if out then (if hit then 0 else v) else (if hit then v else 0).

(** The lookback payoff on a path of reals: fixed strike against the
    extremum, floating strike against the terminal price. *)
Definition lookback_R (fixed call : bool) (k : R) (path : list R) : R :=
  if fixed then
    if call then Rmax (highest path - k) 0 else Rmax (k - lowest path) 0
  else
    if call then Rmax (terminal path - lowest path) 0
    else Rmax (highest path - terminal path) 0.

(** A matrix of [r] rows of [c] entries each. *)
Definition shape (r c : nat) (L : list (list num)) : Prop :=
  length L = r /\ Forall (fun row => length row = c) L.

(** The sum [a[i][0] b[0][j] + ... + a[i][p-1] b[p-1][j]], accumulated from
    zero in that order. *)
Definition dot (a b : list (list num)) (i j p : nat) : num :=
  foldl (fun acc k => acc + Matrix.entry a i k * Matrix.entry b k j)%num
    (Real 0) (seq 0 p).

(** The test [isSymmetric] applies to a pair of entries: whether they
    differ by more than the tolerance. *)
Definition differ (matrix : list (list num)) (i j : nat) : bool :=
  Num.gtb (Num.abs (Matrix.entry matrix i j - Matrix.entry matrix j i))
    (Real 1e-10).

(** The geometric mean of a path of positive reals. *)
Definition geometric_mean_R (path : list R) : R :=
  exp (sum_R (map ln path) / INR (length path)).

(** A number that is zero or NaN: what a sum of products with a vanishing
    factor can be. *)
Definition zero_or_nan (a : num) : Prop := a = Real 0 \/ a = NaN.

(** The terminal log-returns of a set of paths of reals. *)
Definition returns_R (s0 : R) (rpaths : list (list R)) : list R :=
  map (fun path => ln (terminal path / s0)) rpaths.

(** ** The pricing worker *)

Module PricingWorker.

(** The separator of the option tags. *)
Definition hyphen : Ascii.ascii :=
  Eval cbv in match "-" with String c _ => c | EmptyString => Ascii.zero end.

(** [s.split('-')]: the segments between the separators, at least one. *)
Fixpoint split (sep : Ascii.ascii) (s : string) : list string :=
  match s with
  | EmptyString => [EmptyString]
  | String c t =>
      if Ascii.eqb c sep then EmptyString :: split sep t
      else match split sep t with
           | seg :: segs => String c seg :: segs
           | [] => [String c EmptyString]
           end
  end.

(** [s.replace(/(call|put)$/, '')]: the string without a final 'call' or
    'put'. *)
Definition strip_call_put (s : string) : string :=
  if Js.ends_with s "call"
  then String.substring 0 (String.length s - 4) s
  else if Js.ends_with s "put"
  then String.substring 0 (String.length s - 3) s
  else s.

Definition replace_call_put (v : value) : outcome string :=
  match v with VStr s => Ok (strip_call_put s) | _ => Throw TypeError end.

(** [const [baseType, subType] = params.optionType.split('-')] and the
    switch on [baseType]. The handler of createOption rethrows what it
    catches. *)
Definition createOption (params : obj) : outcome instance :=
  match Js.prop params "optionType" with
  | VStr tag =>
      let parts := split hyphen tag in
      let baseType := default EmptyString (parts !! 0%nat) in
      let subType :=
        match parts !! 1%nat with Some s => VStr s | None => VUndef end in
      if String.eqb baseType "asian" then
        new_instance Asian (with_key "type" subType params)
      else if String.eqb baseType "barrier" then
        try call <- Js.endsWith subType "call";
        try barrierType <- replace_call_put subType;
        new_instance Barrier
          (with_key "barrierType" (VStr barrierType)
             (with_key "type" (VStr (if call then "call" else "put")) params))
      else if String.eqb baseType "lookback" then
        new_instance Lookback (with_key "lookbackType" subType params)
      else Throw (Error ("Invalid option type: " ++ baseType))
  | _ => Throw TypeError
  end.

(** What the worker posts on success: the final result with the Greeks and
    the risk metrics added. *)
Record Reply : Type :=
  { result : PricingResult;
    greeks : GreeksResult;
    riskMetrics : RiskMetricsResult }.

(** [option.adjustForContinuousBarrier(result)] and
    [option.adjustForContinuousMonitoring(result)]: each method exists on
    one class only. *)
Definition adjustForContinuousBarrier (option : instance)
    (result : PricingResult) : outcome PricingResult :=
  match class_of option with
  | Barrier => fst (BarrierOption.adjustForContinuousBarrier (own option) result)
  | _ => Throw TypeError
  end.

Definition adjustForContinuousMonitoring (option : instance)
    (result : PricingResult) : outcome PricingResult :=
  match class_of option with
  | Lookback => LookbackOption.adjustForContinuousMonitoring (own option) result
  | _ => Throw TypeError
  end.

(** The body of the [try] of [self.onmessage], on the message
    [{ params, optionType }]. *)
Definition handle (params : obj) (optionType : value) : M Reply :=
  do option <- lift (createOption params);
  do paths <- MonteCarloSimulation.simulatePaths (own option);
  do result <- calculatePrice option (Some paths);
  do greeks <- calculateGreeks option paths;
  do riskMetrics <-
    lift (MonteCarloSimulation.calculateRiskMetrics (own option) paths);
  do barrier <- lift (Js.startsWith optionType "barrier");
  do finalResult <-
    (if barrier then lift (adjustForContinuousBarrier option result)
     else
       do lookback <- lift (Js.startsWith optionType "lookback");
       if lookback then lift (adjustForContinuousMonitoring option result)
       else ret result);
  ret {| result := finalResult; greeks := greeks; riskMetrics := riskMetrics |}.

(** The message posted: the reply, or the error of the [catch]. *)
Inductive message : Type :=
| Posted (reply : Reply)
| Failed (e : exn).

Definition onmessage (params : obj) (optionType : value) (s : rng) : message :=
  match handle params optionType s with
  | Ok (reply, _) => Posted reply
  | Throw e => Failed e
  end.

End PricingWorker.

(** A string without a hyphen. *)
Fixpoint hyphen_free (s : string) : bool :=
  match s with
  | EmptyString => true
  | String c t => negb (Ascii.eqb c PricingWorker.hyphen) && hyphen_free t
  end.

(** ** The closed forms of LookbackOption *)

Module LookbackAnalytic.

(** [calculateAnalyticalPrice()]. The quantities [e1], [e2] that the method
    computes for the fixed-strike call are never used. *)
Definition calculateAnalyticalPrice (this : obj) : num :=
  (let N := SpecialFunctions.normalCDF in
   let S0 := numprop this "S0" in
   let K := numprop this "K" in
   let sigma := numprop this "sigma" in
   let r := numprop this "r" in
   let T := numprop this "T" in
   let sigma2 := sigma * sigma in
   let root_T := Num.sqrt T in
   let a := (r + Real 0.5 * sigma2) * T / (sigma * root_T) in
   if Js.is_string (Js.prop this "lookbackType") "fixed" then
     let d1 := Num.log (S0 / K) / (sigma * root_T) + a in
     let d2 := d1 - sigma * root_T in
     if Js.is_string (Js.prop this "type") "call" then
       S0 * N d1 - K * Num.exp (- r * T) * N d2
       + S0 * sigma * sigma * T / (Real 2 * r)
         * (Num.exp (- r * T) * N (- d2) - N (- d1))
     else
       K * Num.exp (- r * T) * N (- d2) - S0 * N (- d1)
       + S0 * sigma * sigma * T / (Real 2 * r)
         * (Num.exp (- r * T) * N d2 - N d1)
   else
     let q1 := (r + sigma2 / Real 2) * T / (sigma * root_T) in
     let q2 := q1 - sigma * root_T in
     if Js.is_string (Js.prop this "type") "call" then
       S0 * (N a + sigma * root_T / Real 2
                   * (Num.exp (- r * T) * N (- q2) - N (- q1)))
     else
       S0 * (- N (- a) + sigma * root_T / Real 2
                         * (Num.exp (- r * T) * N q2 - N q1)))%num.

End LookbackAnalytic.

(** * Properties *)

(** ** Numbers *)

Module NumFacts.

Lemma Rltb_true x y : x < y -> Num.Rltb x y = true.
Proof. intros H. unfold Num.Rltb. destruct (Rlt_dec x y); [reflexivity | lra]. Qed.

Lemma Rltb_false x y : y <= x -> Num.Rltb x y = false.
Proof. intros H. unfold Num.Rltb. destruct (Rlt_dec x y); [lra | reflexivity]. Qed.

Lemma Rleb_true x y : x <= y -> Num.Rleb x y = true.
Proof. intros H. unfold Num.Rleb. destruct (Rle_dec x y); [reflexivity | lra]. Qed.

Lemma Rleb_false x y : y < x -> Num.Rleb x y = false.
Proof. intros H. unfold Num.Rleb. destruct (Rle_dec x y); [lra | reflexivity]. Qed.

Lemma Reqb_true x y : x = y -> Num.Reqb x y = true.
Proof. intros H. unfold Num.Reqb. destruct (Req_dec_T x y); [reflexivity | lra]. Qed.

Lemma Reqb_false x y : x <> y -> Num.Reqb x y = false.
Proof. intros H. unfold Num.Reqb. destruct (Req_dec_T x y); [contradiction | reflexivity]. Qed.

Lemma Rltb_spec x y : Num.Rltb x y = true <-> x < y.
Proof. unfold Num.Rltb. destruct (Rlt_dec x y); split; (lra || discriminate || auto). Qed.

Lemma Rleb_spec x y : Num.Rleb x y = true <-> x <= y.
Proof. unfold Num.Rleb. destruct (Rle_dec x y); split; (lra || discriminate || auto). Qed.

Lemma up_IZR (z : Z) : up (IZR z) = (z + 1)%Z.
Proof.
  symmetry. apply tech_up.
  - rewrite plus_IZR. lra.
  - rewrite plus_IZR. lra.
Qed.

Lemma floorZ_IZR (z : Z) : Num.floorZ (IZR z) = z.
Proof. unfold Num.floorZ. rewrite up_IZR. lia. Qed.

Lemma ceilZ_IZR (z : Z) : Num.ceilZ (IZR z) = z.
Proof. unfold Num.ceilZ. rewrite <- opp_IZR, up_IZR. lia. Qed.

Lemma to_length_of_nat (n : nat) :
  (Z.of_nat n < 2 ^ 32)%Z -> Num.to_length (Num.of_nat n) = Some n.
Proof.
  intros Hn. unfold Num.to_length, Num.of_nat.
  rewrite INR_IZR_INZ, floorZ_IZR, Reqb_true by reflexivity.
  replace (0 <=? Z.of_nat n)%Z with true by (symmetry; apply Z.leb_le; lia).
  replace (Z.of_nat n <? 2 ^ 32)%Z with true by (symmetry; apply Z.ltb_lt; lia).
  simpl. by rewrite Nat2Z.id.
Qed.

Lemma trips_of_nat (n : nat) : Num.trips (Num.of_nat n) = n.
Proof.
  unfold Num.trips, Num.of_nat.
  by rewrite INR_IZR_INZ, ceilZ_IZR, Nat2Z.id.
Qed.

Lemma ceilZ_half (m : nat) :
  Num.ceilZ (INR m / 2) = Z.of_nat ((m + 1) / 2).
Proof.
  unfold Num.ceilZ.
  assert (Hdiv : (2 * ((m + 1) / 2) <= m + 1 < 2 * ((m + 1) / 2) + 2)%nat).
  { pose proof (Nat.div_mod_eq (m + 1) 2) as E.
    pose proof (Nat.mod_upper_bound (m + 1) 2) as B. lia. }
  set (c := ((m + 1) / 2)%nat) in *.
  assert (Hlo : 2 * INR c <= INR m + 1).
  { rewrite !INR_IZR_INZ, <- mult_IZR, <- plus_IZR. apply IZR_le. lia. }
  assert (Hhi : INR m <= 2 * INR c).
  { rewrite !INR_IZR_INZ, <- mult_IZR. apply IZR_le. lia. }
  assert (Hup : (1 - Z.of_nat c)%Z = up (- (INR m / 2))).
  { apply tech_up; rewrite minus_IZR, <- INR_IZR_INZ; lra. }
  rewrite <- Hup. lia.
Qed.

Lemma ceil_half (m : nat) :
  Num.ceil (Num.of_nat m / Real 2) = Num.of_nat ((m + 1) / 2).
Proof.
  unfold Num.of_nat. simpl.
  rewrite Reqb_false by lra. simpl.
  by rewrite ceilZ_half, <- INR_IZR_INZ.
Qed.

End NumFacts.

(** ** The monad *)

Lemma bind_ok {A B} (m : M A) (k : A -> M B) s a s' :
  m s = Ok (a, s') -> bind m k s = k a s'.
Proof. intros H. unfold bind. by rewrite H. Qed.

Lemma bind_throw {A B} (m : M A) (k : A -> M B) s e :
  m s = Throw e -> bind m k s = Throw e.
Proof. intros H. unfold bind. by rewrite H. Qed.

Lemma random_eq s : random s = Ok (uniform_at s 0, advance 1 s).
Proof.
  unfold random, uniform_at, advance.
  by rewrite Nat.add_0_r, Nat.add_1_r.
Qed.

Lemma advance_advance j k s : advance k (advance j s) = advance (j + k) s.
Proof. unfold advance. simpl. f_equal. lia. Qed.

Lemma advance_0 s : advance 0 s = s.
Proof. destruct s as [d c]. unfold advance. simpl. by rewrite Nat.add_0_r. Qed.

(** ** Arrays *)

Lemma set_index_fill {A} (hole v : A) (done rest : list A) (x : A) i :
  length done = i ->
  Js.set_index hole i v (done ++ x :: rest) = (done ++ [v]) ++ rest.
Proof.
  intros Hlen. unfold Js.set_index.
  rewrite length_app. simpl.
  replace (i <? length done + S (length rest))%nat with true
    by (symmetry; apply Nat.ltb_lt; lia).
  rewrite insert_app_r_alt by lia.
  replace (i - length done)%nat with 0%nat by lia.
  simpl. by rewrite <- app_assoc.
Qed.

(** ** generateRandomNumbers *)

Section Sampling.

Import MonteCarloSimulation.

Lemma stratified_loop_fill (eff : num) (n : nat) :
  forall (i b : nat) (done : list num) (s : rng),
    cursor s = (b + i)%nat ->
    length done = i ->
    stratified_loop n i eff (done ++ replicate n NaN) s
    = Ok (done ++ map (fun k => normalInverse
                                  ((Num.of_nat k + Real (draws s (b + k))) / eff)%num)
                    (seq i n),
          {| draws := draws s; cursor := b + i + n |}).
Proof.
  induction n as [|n IH]; intros i b done s Hc Hlen.
  - simpl. unfold ret. rewrite app_nil_r, Nat.add_0_r, <- Hc.
    by destruct s.
  - simpl. unfold bind at 1. unfold random at 1.
    rewrite set_index_fill by done.
    rewrite (IH (S i) b) by (simpl; rewrite ?length_app; simpl; lia).
    simpl. rewrite <- app_assoc. simpl. rewrite Hc.
    do 3 f_equal. lia.
Qed.

Lemma standard_loop_fill (n : nat) :
  forall (i b : nat) (done : list num) (s : rng),
    cursor s = (b + i)%nat ->
    length done = i ->
    standard_loop n i (done ++ replicate n NaN) s
    = Ok (done ++ map (fun k => normalInverse (Real (draws s (b + k)))) (seq i n),
          {| draws := draws s; cursor := b + i + n |}).
Proof.
  induction n as [|n IH]; intros i b done s Hc Hlen.
  - simpl. unfold ret. rewrite app_nil_r, Nat.add_0_r, <- Hc.
    by destruct s.
  - simpl. unfold bind at 1. unfold random at 1.
    rewrite set_index_fill by done.
    rewrite (IH (S i) b) by (simpl; rewrite ?length_app; simpl; lia).
    simpl. rewrite <- app_assoc. simpl. rewrite Hc.
    do 3 f_equal. lia.
Qed.

End Sampling.

Lemma slice_to_of_nat {A} (m : nat) (l : list A) :
  Js.slice_to (Num.of_nat m) l = take m l.
Proof.
  unfold Js.slice_to, Num.of_nat.
  rewrite NumFacts.Rltb_false by apply pos_INR.
  rewrite INR_IZR_INZ, NumFacts.floorZ_IZR.
  replace (Z.of_nat m <? 0)%Z with false by (symmetry; apply Z.ltb_ge; lia).
  by rewrite Nat2Z.id.
Qed.

Lemma new_array_of_nat {A} (hole : A) (n : nat) :
  (Z.of_nat n < 2 ^ 32)%Z ->
  Js.new_array hole (Num.of_nat n) = Ok (replicate n hole).
Proof. intros H. unfold Js.new_array. by rewrite NumFacts.to_length_of_nat. Qed.

Lemma effective_count_le antithetic m : (effective_count antithetic m <= m)%nat.
Proof.
  unfold effective_count. destruct antithetic; [|lia].
  pose proof (Nat.div_mod_eq (m + 1) 2).
  pose proof (Nat.mod_upper_bound (m + 1) 2). lia.
Qed.

Lemma effective_count_double m : (m <= 2 * effective_count true m)%nat.
Proof.
  unfold effective_count.
  pose proof (Nat.div_mod_eq (m + 1) 2).
  pose proof (Nat.mod_upper_bound (m + 1) 2). lia.
Qed.

Lemma specified_draws_length antithetic stratified m s :
  length (specified_draws antithetic stratified m s) = m.
Proof.
  unfold specified_draws. destruct antithetic.
  - rewrite length_take, length_app, !length_map, length_seq.
    pose proof (effective_count_double m). lia.
  - by rewrite length_map, length_seq.
Qed.

(** The body of [generateRandomNumbers] on an instance whose [simulations]
    is the whole number [m]. *)
Lemma generateRandomNumbers_run (this : obj) (m : nat) (s : rng) :
  Js.prop this "simulations" = VNum (Num.of_nat m) ->
  (Z.of_nat m < 2 ^ 32)%Z ->
  MonteCarloSimulation.generateRandomNumbers this s
  = Ok (specified_draws (Js.truthy (Js.prop this "useAntithetic"))
          (Js.truthy (Js.prop this "useStratified")) m s,
        advance (effective_count (Js.truthy (Js.prop this "useAntithetic")) m) s).
Proof.
  intros Hm Hbound.
  unfold MonteCarloSimulation.generateRandomNumbers, numprop.
  rewrite Hm. simpl Js.to_number.
  set (anti := Js.truthy (Js.prop this "useAntithetic")).
  set (strat := Js.truthy (Js.prop this "useStratified")).
  assert (Heff : (if anti then Num.ceil (Num.of_nat m / Real 2) else Num.of_nat m)
                 = Num.of_nat (effective_count anti m)).
  { destruct anti; unfold effective_count; [apply NumFacts.ceil_half | reflexivity]. }
  rewrite Heff.
  pose proof (effective_count_le anti m) as Hle.
  set (e := effective_count anti m) in *.
  unfold bind at 1, lift.
  rewrite new_array_of_nat by lia.
  rewrite NumFacts.trips_of_nat.
  assert (Hloop :
    (if strat
     then MonteCarloSimulation.stratified_loop e 0 (Num.of_nat e) (replicate e NaN)
     else MonteCarloSimulation.standard_loop e 0 (replicate e NaN)) s
    = Ok (map (effective_draw strat e s) (seq 0 e), advance e s)).
  { destruct strat.
    - pose proof (stratified_loop_fill (Num.of_nat e) e 0 (cursor s) [] s) as H.
      simpl in H. rewrite H by lia.
      unfold advance. by rewrite Nat.add_0_r.
    - pose proof (standard_loop_fill e 0 (cursor s) [] s) as H.
      simpl in H. rewrite H by lia.
      unfold advance. by rewrite Nat.add_0_r. }
  rewrite (bind_ok _ _ _ _ _ Hloop).
  unfold specified_draws. fold e.
  destruct anti; unfold ret; [|reflexivity].
  by rewrite slice_to_of_nat.
Qed.

(** C6. On an instance whose [simulations] is the whole number [m],
    [generateRandomNumbers] returns the draws the two flags specify: the
    [i]-th of the [m_eff] effective draws is [normalInverse((i + U)/m_eff)]
    when stratified and [normalInverse(U)] otherwise, [U] being the next
    uniform; with antithetic variates [m_eff] is [ceil(m/2)], the effective
    draws are followed by their negations and the whole is cut to [m]
    entries. The array has length exactly [m], and [m_eff] uniforms are
    consumed. *)
Theorem generateRandomNumbers_as_specified (this : obj) (m : nat) (s : rng) :
  Js.prop this "simulations" = VNum (Num.of_nat m) ->
  (Z.of_nat m < 2 ^ 32)%Z ->
  let antithetic := Js.truthy (Js.prop this "useAntithetic") in
  let stratified := Js.truthy (Js.prop this "useStratified") in
  MonteCarloSimulation.generateRandomNumbers this s
  = Ok (specified_draws antithetic stratified m s,
        advance (effective_count antithetic m) s)
  /\ length (specified_draws antithetic stratified m s) = m
  /\ Num.ceil (Num.of_nat m / Real 2) = Num.of_nat (effective_count true m).
Proof.
  intros Hm Hbound antithetic stratified. split; [|split].
  - by apply generateRandomNumbers_run.
  - apply specified_draws_length.
  - apply NumFacts.ceil_half.
Qed.

Lemma generateRandomNumbers_as_specified_witness :
  let this := MonteCarloSimulation.constructor (to_params sample_parameters) in
  MonteCarloSimulation.generateRandomNumbers this sample_rng
  = Ok (specified_draws true true 3 sample_rng, advance 2 sample_rng)
  /\ length (specified_draws true true 3 sample_rng) = 3%nat.
Proof.
  intros this.
  destruct (generateRandomNumbers_as_specified this 3 sample_rng) as (H1 & H2 & _).
  - reflexivity.
  - reflexivity.
  - split; [exact H1 | exact H2].
Defined.

(** ** The constructors *)

Section ConstructorFields.

Import MonteCarloSimulation.

Ltac constructor_field :=
  unfold constructor, numprop, Js.prop; cbv zeta;
  destruct (Js.truthy _); simplify_map_eq; reflexivity.

Lemma constructor_S0 params :
  Js.prop (constructor params) "S0" = Js.prop params "spot".
Proof. constructor_field. Qed.

Lemma constructor_K params :
  Js.prop (constructor params) "K" = Js.prop params "strike".
Proof. constructor_field. Qed.

Lemma constructor_sigma params :
  Js.prop (constructor params) "sigma" = Js.prop params "volatility".
Proof. constructor_field. Qed.

Lemma constructor_r params :
  Js.prop (constructor params) "r" = Js.prop params "riskFreeRate".
Proof. constructor_field. Qed.

Lemma constructor_T params :
  Js.prop (constructor params) "T" = Js.prop params "maturity".
Proof. constructor_field. Qed.

Lemma constructor_steps params :
  Js.prop (constructor params) "steps" = Js.prop params "steps".
Proof. constructor_field. Qed.

Lemma constructor_simulations params :
  Js.prop (constructor params) "simulations" = Js.prop params "simulations".
Proof. constructor_field. Qed.

Lemma constructor_dt params :
  Js.prop (constructor params) "dt"
  = VNum (Js.to_number (Js.prop params "maturity")
          / Js.to_number (Js.prop params "steps")).
Proof. constructor_field. Qed.

Lemma constructor_useAntithetic params :
  Js.prop (constructor params) "useAntithetic"
  = Js.or_default (Js.prop params "useAntithetic") (VBool true).
Proof. constructor_field. Qed.

Lemma constructor_useStratified params :
  Js.prop (constructor params) "useStratified"
  = Js.or_default (Js.prop params "useStratified") (VBool true).
Proof. constructor_field. Qed.

Lemma constructor_jumpDiffusion params :
  Js.prop (constructor params) "jumpDiffusion"
  = Js.or_default (Js.prop params "jumpDiffusion") (VBool false).
Proof. constructor_field. Qed.

Lemma constructor_type params :
  Js.prop (constructor params) "type"
  = Js.or_default (Js.prop params "type") (VStr "call").
Proof. constructor_field. Qed.

(** The instance has no property under the names the constructor reads its
    five real-valued parameters from. *)
Lemma constructor_no_parameter_keys params :
  constructor params !! "spot" = None
  /\ constructor params !! "strike" = None
  /\ constructor params !! "volatility" = None
  /\ constructor params !! "riskFreeRate" = None
  /\ constructor params !! "maturity" = None.
Proof.
  unfold constructor; cbv zeta.
  destruct (Js.truthy _); by simplify_map_eq.
Qed.

End ConstructorFields.

Lemma prop_insert_eq (o : obj) k v : Js.prop (<[k := v]> o) k = v.
Proof. unfold Js.prop. by rewrite lookup_insert_eq. Qed.

Lemma prop_insert_ne (o : obj) k k' v :
  k <> k' -> Js.prop (<[k := v]> o) k' = Js.prop o k'.
Proof. intros H. unfold Js.prop. by rewrite lookup_insert_ne. Qed.


(** ** BarrierOption: the constructor *)

(** The three outcomes of the constructor, by the barrier type and the
    barrier it ends up with. *)
Lemma barrier_constructor_cases (params : obj) (bt : string) :
  effective_barrierType params = VStr bt ->
  BarrierOption.constructor params
  = if String.prefix "up" bt
       && Num.leb (effective_barrier params) (Js.to_number (Js.prop params "spot"))
    then Throw (Error "Up barrier must be above spot price")
    else if String.prefix "down" bt
            && Num.geb (effective_barrier params)
                 (Js.to_number (Js.prop params "spot"))
    then Throw (Error "Down barrier must be below spot price")
    else Ok (<["barrier" :=
                 Js.or_else (Js.prop params "barrier")
                   (VNum (Js.to_number (Js.prop params "strike") * Real 1.2))]>
               (<["barrierType" := VStr bt]>
                  (<["type" := Js.or_else (Js.prop params "type") (VStr "call")]>
                     (MonteCarloSimulation.constructor params)))).
Proof.
  unfold effective_barrierType, effective_barrier. intros Hbt.
  unfold BarrierOption.constructor. cbv zeta.
  unfold numprop.
  rewrite !prop_insert_eq.
  rewrite !(prop_insert_ne _ "barrier") by done.
  rewrite !prop_insert_eq.
  rewrite !(prop_insert_ne _ "barrierType") by done.
  rewrite !(prop_insert_ne _ "type") by done.
  rewrite constructor_S0, constructor_K, Hbt.
  simpl.
  destruct (String.prefix "up" bt && _); [reflexivity|].
  destruct (String.prefix "down" bt && _); reflexivity.
Qed.

Lemma effective_barrier_supplied (params : obj) (b : R) :
  Js.prop params "barrier" = VNum (Real b) -> b <> 0 ->
  effective_barrier params = Real b.
Proof.
  intros Hb Hne. unfold effective_barrier. rewrite Hb.
  unfold Js.or_else, Js.truthy. by rewrite NumFacts.Reqb_false.
Qed.




Lemma sample_barrier_constructed :
  BarrierOption.constructor
    (barrier_request sample_parameters "up-and-out" (Real 120))
  = Ok sample_barrier.
Proof.
  rewrite (barrier_constructor_cases _ "up-and-out") by reflexivity.
  rewrite (effective_barrier_supplied _ 120) by (reflexivity || lra).
  change (Js.to_number (Js.prop (barrier_request sample_parameters
                                   "up-and-out" (Real 120)) "spot"))
    with (Real 100).
  change (String.prefix "up" "up-and-out") with true.
  change (String.prefix "down" "up-and-out") with false.
  unfold Num.leb. rewrite NumFacts.Rleb_false by lra. simpl.
  change (Js.prop (barrier_request sample_parameters "up-and-out" (Real 120))
            "barrier") with (VNum (Real 120)).
  unfold Js.or_else at 1, Js.truthy at 1.
  rewrite NumFacts.Reqb_false by lra. reflexivity.
Qed.

(** ** BarrierOption: breach and payoff *)



(** ** Real-valued samples *)

Lemma positive_is_real a : positive a -> is_real a.
Proof. intros (x & -> & _). by exists x. Qed.

Lemma reals_of_list (l : list num) :
  Forall is_real l -> exists qs, l = map Real qs.
Proof.
  induction 1 as [|a l [x ->] _ [qs ->]].
  - by exists [].
  - by exists (x :: qs).
Qed.

Lemma foldl_add_real (l : list R) (a : R) :
  foldl Num.add (Real a) (map Real l) = Real (a + sum_R l).
Proof.
  revert a. induction l as [|x l IH]; intros a; simpl.
  - f_equal. lra.
  - rewrite IH. f_equal. lra.
Qed.

Lemma reduce1_add_real (l : list R) :
  l <> [] -> Js.reduce1 Num.add (map Real l) = Ok (Real (sum_R l)).
Proof.
  destruct l as [|x l]; [done|]. intros _. simpl.
  by rewrite foldl_add_real.
Qed.

Lemma sum_R_scale (d : R) (l : list R) :
  sum_R (map (fun q => q * d) l) = sum_R l * d.
Proof. induction l as [|x l IH]; simpl; [lra | rewrite IH; lra]. Qed.

Lemma length_positive_INR {A} (l : list A) : l <> [] -> INR (length l) <> 0.
Proof.
  intros H. destruct l; [done|]. simpl length. rewrite S_INR.
  pose proof (pos_INR (length l)). lra.
Qed.

Lemma mean_of_reals (l : list R) :
  l <> [] ->
  (Real (sum_R l) / Js.length_of (map Real l))%num = Real (mean_R l).
Proof.
  intros Hl. unfold Js.length_of, Num.of_nat, mean_R. rewrite length_map. simpl.
  by rewrite NumFacts.Reqb_false by by apply length_positive_INR.
Qed.

Lemma confidence_mean (l : list R) :
  l <> [] ->
  exists ci, MonteCarloSimulation.calculateConfidenceInterval (map Real l) = Ok ci
             /\ mean ci = Real (mean_R l).
Proof.
  intros Hl. unfold MonteCarloSimulation.calculateConfidenceInterval.
  rewrite reduce1_add_real by done. simpl.
  eexists. split; [reflexivity|]. simpl. by apply mean_of_reals.
Qed.

(** The discounting step common to the four evaluators, on real payoffs. *)
Lemma present_value_mean (this : obj) (paths : list (list num)) (qs : list R)
    (r T : R) :
  qs <> [] ->
  numprop this "r" = Real r -> numprop this "T" = Real T ->
  exists res ps,
    MonteCarloSimulation.present_value this paths (map Real qs) = Ok res
    /\ payoffs res = map Real ps
    /\ length ps = length qs
    /\ price res = Real (mean_R ps)
    /\ mean (confidence res) = Real (mean_R ps).
Proof.
  intros Hqs Hr HT. unfold MonteCarloSimulation.present_value.
  rewrite Hr, HT. simpl Num.exp.
  set (d := exp (- r * T)).
  assert (Hmap : map (fun p => p * Real d)%num (map Real qs)
                 = map Real (map (fun q => q * d) qs)).
  { rewrite !map_map. reflexivity. }
  rewrite Hmap, reduce1_add_real by done. cbn [obind].
  assert (Hne : map (fun q => q * d) qs <> []) by by destruct qs.
  destruct (confidence_mean _ Hne) as (ci & -> & Hci). cbn [obind].
  rewrite mean_of_reals by done.
  eexists _, (map (fun q => q * d) qs). split; [reflexivity|].
  cbn [payoffs price confidence].
  split; [reflexivity|]. split; [apply length_map|]. split; [|exact Hci].
  cbn [Num.mul]. f_equal.
  unfold mean_R. rewrite sum_R_scale, length_map. field.
  by apply length_positive_INR.
Qed.

Lemma max_real (a b : R) : is_real (Num.max (Real a) (Real b)).
Proof. unfold Num.max. simpl. destruct (Num.Rltb a b); by eexists. Qed.

Lemma min_real (a b : R) : is_real (Num.min (Real a) (Real b)).
Proof. unfold Num.min. simpl. destruct (Num.Rltb b a); by eexists. Qed.

Lemma last_of_real (path : list num) :
  well_formed_path path -> is_real (Js.last_of path).
Proof.
  intros [Hne Hpos]. unfold Js.last_of, Js.at_index.
  destruct path as [|x path]; [done|].
  destruct (lookup_lt_is_Some_2 (x :: path) (length (x :: path) - 1)) as [a Ha].
  { simpl. lia. }
  rewrite Ha. simpl. apply positive_is_real.
  by eapply (proj1 (Forall_lookup _ _) Hpos).
Qed.

Lemma vanilla_payoff_real (this : obj) (k : R) (a : num) :
  numprop this "K" = Real k -> is_real a ->
  is_real (MonteCarloSimulation.vanilla_payoff this a).
Proof.
  intros HK [x ->]. unfold MonteCarloSimulation.vanilla_payoff. rewrite HK.
  destruct (Js.is_string _ _); apply max_real.
Qed.

Lemma foldl_max_real (l : list num) (a : R) :
  Forall is_real l -> is_real (foldl Num.max (Real a) l).
Proof.
  intros H. revert a. induction H as [|b l [x ->] _ IH]; intros a; cbn [foldl].
  - by eexists.
  - destruct (max_real a x) as [y ->]. apply IH.
Qed.

Lemma foldl_min_real (l : list num) (a : R) :
  Forall is_real l -> is_real (foldl Num.min (Real a) l).
Proof.
  intros H. revert a. induction H as [|b l [x ->] _ IH]; intros a; cbn [foldl].
  - by eexists.
  - destruct (min_real a x) as [y ->]. apply IH.
Qed.

Lemma well_formed_reals (path : list num) :
  well_formed_path path -> Forall is_real path.
Proof. intros [_ H]. eapply Forall_impl; [exact H|]. apply positive_is_real. Qed.

Lemma max_list_real (path : list num) :
  well_formed_path path -> is_real (Num.max_list path).
Proof.
  intros Hwf. pose proof (well_formed_reals _ Hwf) as Hreal.
  destruct Hwf as [Hne _]. destruct path as [|a path]; [done|].
  inversion Hreal as [|? ? [x ->] Hrest]; subst.
  unfold Num.max_list. simpl. by apply foldl_max_real.
Qed.

Lemma min_list_real (path : list num) :
  well_formed_path path -> is_real (Num.min_list path).
Proof.
  intros Hwf. pose proof (well_formed_reals _ Hwf) as Hreal.
  destruct Hwf as [Hne _]. destruct path as [|a path]; [done|].
  inversion Hreal as [|? ? [x ->] Hrest]; subst.
  unfold Num.min_list. simpl. by apply foldl_min_real.
Qed.

Lemma foldl_add_log_real (l : list num) (a : R) :
  Forall positive l ->
  is_real (foldl (fun a b => a + Num.log b)%num (Real a) l).
Proof.
  intros H. revert a. induction H as [|b l (x & -> & Hx) _ IH]; intros a; simpl.
  - by eexists.
  - rewrite NumFacts.Rltb_false, NumFacts.Reqb_false by lra. apply IH.
Qed.

Lemma div_length_real {A} (x : R) (l : list A) :
  l <> [] -> is_real (Real x / Js.length_of l)%num.
Proof.
  intros Hl. unfold Js.length_of, Num.of_nat. simpl.
  rewrite NumFacts.Reqb_false by by apply length_positive_INR. by eexists.
Qed.

Lemma map_outcome_real {A} (f : A -> outcome num) (l : list A) :
  Forall (fun x => exists q, f x = Ok (Real q)) l ->
  exists qs, map_outcome f l = Ok (map Real qs) /\ length qs = length l.
Proof.
  induction 1 as [|x l [q Hq] _ (qs & IH & Hlen)]; simpl.
  - by exists [].
  - rewrite Hq, IH. simpl. exists (q :: qs). simpl. by rewrite Hlen.
Qed.

(** ** The payoffs of well-formed paths are reals *)

Lemma vanilla_payoffs_real (this : obj) (k : R) (paths : list (list num)) :
  numprop this "K" = Real k -> Forall well_formed_path paths ->
  exists qs,
    map (fun path => MonteCarloSimulation.vanilla_payoff this (Js.last_of path)) paths
    = map Real qs /\ length qs = length paths.
Proof.
  intros HK. induction 1 as [|path paths Hwf _ (qs & IH & Hlen)]; simpl.
  - by exists [].
  - destruct (vanilla_payoff_real this k _ HK (last_of_real _ Hwf)) as [q ->].
    exists (q :: qs). simpl. by rewrite IH, Hlen.
Qed.

Lemma asian_payoff_real (this : obj) (k : R) (path : list num) :
  numprop this "K" = Real k -> well_formed_path path ->
  exists q, AsianOption.payoff this path = Ok (Real q).
Proof.
  intros HK Hwf. unfold AsianOption.payoff, AsianOption.average.
  assert (Havg : exists x,
    (if Js.is_string (Js.prop this "averageType") "arithmetic"
     then try total <- Js.reduce1 Num.add path;
          Ok (total / Js.length_of path)%num
     else try total <- Js.reduce1 (fun a b => a + Num.log b)%num path;
          Ok (Num.exp (total / Js.length_of path))) = Ok (Real x)).
  { destruct (Js.is_string _ _).
    - destruct (reals_of_list _ (well_formed_reals _ Hwf)) as [xs ->].
      destruct Hwf as [Hne _].
      rewrite reduce1_add_real by by destruct xs. cbn [obind].
      destruct (div_length_real (sum_R xs) (map Real xs) Hne) as [y ->].
      by eexists.
    - destruct Hwf as [Hne Hpos]. destruct path as [|a path]; [done|].
      inversion Hpos as [|? ? (x & -> & _) Hrest]; subst.
      simpl Js.reduce1.
      destruct (foldl_add_log_real path x Hrest) as [t ->]. cbn [obind].
      destruct (div_length_real t (Real x :: path) Hne) as [y ->].
      simpl. by eexists. }
  destruct Havg as [x ->]. cbn [obind]. rewrite HK.
  destruct (Js.is_string _ _).
  - destruct (max_real (x - k) 0) as [q Hq]. exists q. f_equal. exact Hq.
  - destruct (max_real (k - x) 0) as [q Hq]. exists q. f_equal. exact Hq.
Qed.

Lemma barrier_payoff_real (this : obj) (bt : string) (k : R) (path : list num) :
  Js.prop this "barrierType" = VStr bt ->
  numprop this "K" = Real k -> well_formed_path path ->
  exists q, BarrierOption.payoff this path = Ok (Real q).
Proof.
  intros Hbt HK Hwf.
  unfold BarrierOption.payoff, BarrierOption.checkBarrierHit.
  rewrite Hbt. simpl.
  destruct (vanilla_payoff_real this k _ HK (last_of_real _ Hwf)) as [q ->].
  destruct (String.prefix "up" bt), (Js.ends_with bt "out");
    repeat match goal with |- context [existsb ?f ?l] => destruct (existsb f l) end;
    simpl; by eexists.
Qed.

Lemma lookback_payoff_real (this : obj) (k : R) (path : list num) :
  numprop this "K" = Real k -> well_formed_path path ->
  is_real (LookbackOption.payoff this path).
Proof.
  intros HK Hwf. unfold LookbackOption.payoff. rewrite HK.
  destruct (max_list_real _ Hwf) as [hi ->].
  destruct (min_list_real _ Hwf) as [lo ->].
  destruct (last_of_real _ Hwf) as [x ->].
  destruct (Js.is_string _ "fixed"), (Js.is_string _ "call"); apply max_real.
Qed.

(** ** The price is the mean of the discounted payoffs *)

(** C10. On a non-empty set of well-formed paths (each with at least one
    price, all prices positive reals) and real [K], [r], [T], each of the
    four evaluators (for a barrier option, one whose barrier type is a
    string) returns a result whose discounted payoffs are reals, one per
    path, and whose price is their arithmetic mean, which is also the mean
    of the confidence interval; the random source is left untouched. *)
Theorem price_is_mean_of_payoffs (c : class) (this : obj)
    (paths : list (list num)) (k r T : R) (s : rng) :
  paths <> [] ->
  Forall well_formed_path paths ->
  numprop this "K" = Real k ->
  numprop this "r" = Real r ->
  numprop this "T" = Real T ->
  (c = Barrier -> exists bt, Js.prop this "barrierType" = VStr bt) ->
  exists res ps,
    calculatePrice {| class_of := c; own := this |} (Some paths) s = Ok (res, s)
    /\ payoffs res = map Real ps
    /\ length ps = length paths
    /\ price res = Real (mean_R ps)
    /\ mean (confidence res) = Real (mean_R ps).
Proof.
  intros Hne Hwf HK Hr HT Hbt.
  assert (Hpv : forall qs, length qs = length paths ->
    exists res ps,
      MonteCarloSimulation.present_value this paths (map Real qs) = Ok res
      /\ payoffs res = map Real ps
      /\ length ps = length paths
      /\ price res = Real (mean_R ps)
      /\ mean (confidence res) = Real (mean_R ps)).
  { intros qs Hlen.
    assert (Hqs : qs <> []) by (destruct qs, paths; done).
    destruct (present_value_mean this paths qs r T Hqs Hr HT)
      as (res & ps & H1 & H2 & H3 & H4 & H5).
    exists res, ps. repeat split; try done. by rewrite H3. }
  unfold calculatePrice. cbn [class_of own]. destruct c.
  - unfold MonteCarloSimulation.calculatePrice, lift,
      MonteCarloSimulation.calculatePrice_given.
    destruct (vanilla_payoffs_real this k paths HK Hwf) as (qs & -> & Hlen).
    destruct (Hpv qs Hlen) as (res & ps & -> & H). by exists res, ps.
  - unfold AsianOption.calculatePrice, lift, AsianOption.calculatePrice_given.
    destruct (map_outcome_real (AsianOption.payoff this) paths) as (qs & -> & Hlen).
    { eapply Forall_impl; [exact Hwf|]. intros path.
      by apply (asian_payoff_real this k). }
    cbn [obind].
    destruct (Hpv qs Hlen) as (res & ps & -> & H). by exists res, ps.
  - destruct (Hbt eq_refl) as [bt Hbt'].
    unfold BarrierOption.calculatePrice, lift, BarrierOption.calculatePrice_given.
    destruct (map_outcome_real (BarrierOption.payoff this) paths) as (qs & -> & Hlen).
    { eapply Forall_impl; [exact Hwf|]. intros path.
      by apply (barrier_payoff_real this bt k). }
    cbn [obind].
    destruct (Hpv qs Hlen) as (res & ps & -> & H). by exists res, ps.
  - unfold LookbackOption.calculatePrice, lift, LookbackOption.calculatePrice_given.
    destruct (reals_of_list (map (LookbackOption.payoff this) paths)) as [qs Hqs].
    { apply Forall_map. eapply Forall_impl; [exact Hwf|]. intros path.
      by apply (lookback_payoff_real this k). }
    rewrite Hqs.
    assert (Hlen : length qs = length paths).
    { apply (f_equal length) in Hqs. by rewrite !length_map in Hqs. }
    destruct (Hpv qs Hlen) as (res & ps & -> & H). by exists res, ps.
Qed.

Lemma price_is_mean_of_payoffs_witness :
  let paths := [[Real 100; Real 110]; [Real 100; Real 90]] in
  exists res ps,
    calculatePrice {| class_of := Lookback;
                      own := LookbackOption.constructor (to_params sample_parameters) |}
      (Some paths) sample_rng
    = Ok (res, sample_rng)
    /\ payoffs res = map Real ps
    /\ length ps = length paths
    /\ price res = Real (mean_R ps)
    /\ mean (confidence res) = Real (mean_R ps).
Proof.
  intros paths.
  assert (Hpos : forall x, 0 < x -> positive (Real x)) by (intros x Hx; by exists x).
  apply (price_is_mean_of_payoffs Lookback _ paths 100 0.05 1).
  - discriminate.
  - repeat constructor; try discriminate; apply Hpos; lra.
  - reflexivity.
  - reflexivity.
  - reflexivity.
  - discriminate.
Defined.

(** ** BarrierOption: the continuous-monitoring correction *)

(** The shift [beta sigma sqrt(T/n)] on real parameters. *)
Lemma barrier_adjustment_value (this : obj) (sigma T n : R) :
  numprop this "sigma" = Real sigma ->
  numprop this "T" = Real T ->
  numprop this "steps" = Real n ->
  0 < T -> 0 < n ->
  (Real 0.5826 * numprop this "sigma"
   * Num.sqrt (numprop this "T" / numprop this "steps"))%num
  = Real (0.5826 * sigma * sqrt (T / n)).
Proof.
  intros -> -> -> HT Hn. simpl.
  rewrite NumFacts.Reqb_false by lra. simpl.
  assert (0 < T / n) by by apply Rdiv_lt_0_compat.
  by rewrite NumFacts.Rltb_false by lra.
Qed.

Lemma adjustedBarrier_value (this : obj) (bt : string) (b sigma T n : R) :
  Js.prop this "barrierType" = VStr bt ->
  numprop this "barrier" = Real b ->
  numprop this "sigma" = Real sigma ->
  numprop this "T" = Real T ->
  numprop this "steps" = Real n ->
  0 < T -> 0 < n ->
  BarrierOption.adjustedBarrier this
  = Ok (Real (if String.prefix "up" bt
              then b * exp (- (0.5826 * sigma * sqrt (T / n)))
              else b * exp (0.5826 * sigma * sqrt (T / n)))).
Proof.
  intros Hbt Hb Hsigma HT Hn HTpos Hnpos.
  unfold BarrierOption.adjustedBarrier. cbv zeta.
  rewrite (barrier_adjustment_value this sigma T n) by done.
  rewrite Hbt, Hb. simpl. by destruct (String.prefix "up" bt).
Qed.

Lemma shift_positive (sigma T n : R) :
  0 < sigma -> 0 < T -> 0 < n -> 0 < 0.5826 * sigma * sqrt (T / n).
Proof.
  intros Hs HT Hn.
  assert (0 < sqrt (T / n)) by (apply sqrt_lt_R0; by apply Rdiv_lt_0_compat).
  nra.
Qed.

Lemma exp_opp_lt_1 (a : R) : 0 < a -> exp (- a) < 1.
Proof. intros Ha. rewrite <- exp_0. apply exp_increasing. lra. Qed.

Lemma exp_gt_1 (a : R) : 0 < a -> 1 < exp a.
Proof. intros Ha. rewrite <- exp_0. by apply exp_increasing. Qed.

(** C2 fails as stated: the up-barrier 120 of the sample up-and-out call
    (spot 100) is replaced by a barrier strictly below 120, that is, moved
    towards the spot and not away from it. *)
Lemma barrier_shift_counterexample :
  numprop sample_barrier "S0" = Real 100
  /\ numprop sample_barrier "barrier" = Real 120
  /\ exists b, BarrierOption.adjustedBarrier sample_barrier = Ok (Real b)
               /\ b < 120.
Proof.
  split; [reflexivity|]. split; [reflexivity|].
  eexists. split.
  - apply (adjustedBarrier_value sample_barrier "up-and-out" 120 0.2 1 (INR 2));
      try reflexivity; simpl; lra.
  - change (String.prefix "up" "up-and-out") with true. cbv iota.
    assert (H : 0 < 0.5826 * 0.2 * sqrt (1 / INR 2)).
    { apply shift_positive; simpl; lra. }
    apply exp_opp_lt_1 in H. lra.
Qed.

(** C2, amended. On a barrier option with a string barrier type, a positive
    real barrier [b] and positive real [sigma], [T] and [steps], the
    correction substitutes the barrier [b exp(-beta sigma sqrt(T/n))] for an
    up type and [b exp(+beta sigma sqrt(T/n))] for any other type, with
    [beta = 0.5826]: an up-barrier is lowered and a down-barrier raised,
    each towards the spot. Its result is the evaluation of
    [calculatePrice] on the path set of the given result with the
    substituted barrier in place of the original one, and when that
    evaluation succeeds the instance has its original barrier back. *)
Theorem barrier_correction_reprices (this : obj) (bt : string)
    (b sigma T n : R) (result : PricingResult) :
  Js.prop this "barrierType" = VStr bt ->
  this !! "barrier" = Some (VNum (Real b)) ->
  numprop this "sigma" = Real sigma ->
  numprop this "T" = Real T ->
  numprop this "steps" = Real n ->
  0 < b -> 0 < sigma -> 0 < T -> 0 < n ->
  let shift := 0.5826 * sigma * sqrt (T / n) in
  let adjusted := if String.prefix "up" bt
                  then b * exp (- shift) else b * exp shift in
  BarrierOption.adjustedBarrier this = Ok (Real adjusted)
  /\ (if String.prefix "up" bt then adjusted < b else b < adjusted)
  /\ fst (BarrierOption.adjustForContinuousBarrier this result)
     = BarrierOption.calculatePrice_given
         (<["barrier" := VNum (Real adjusted)]> this) (paths result)
  /\ (forall res,
        fst (BarrierOption.adjustForContinuousBarrier this result) = Ok res ->
        snd (BarrierOption.adjustForContinuousBarrier this result) = this).
Proof.
  intros Hbt Hb Hsigma HT Hn Hbpos Hspos HTpos Hnpos shift adjusted.
  assert (Hnb : numprop this "barrier" = Real b).
  { unfold numprop, Js.prop. by rewrite Hb. }
  assert (Hadj : BarrierOption.adjustedBarrier this = Ok (Real adjusted)).
  { rewrite (adjustedBarrier_value this bt b sigma T n) by done.
    unfold adjusted, shift. by destruct (String.prefix "up" bt). }
  assert (Hshift : 0 < shift) by by apply shift_positive.
  split; [exact Hadj|]. split; [|split].
  - unfold adjusted. destruct (String.prefix "up" bt).
    + pose proof (exp_opp_lt_1 shift Hshift). nra.
    + pose proof (exp_gt_1 shift Hshift). nra.
  - unfold BarrierOption.adjustForContinuousBarrier. rewrite Hadj.
    by destruct (BarrierOption.calculatePrice_given _ _).
  - intros res. unfold BarrierOption.adjustForContinuousBarrier. rewrite Hadj.
    destruct (BarrierOption.calculatePrice_given _ _); [|discriminate].
    intros _. simpl. rewrite insert_insert_eq. apply insert_id.
    unfold Js.prop. by rewrite Hb.
Qed.

Lemma barrier_correction_reprices_witness :
  let result := result_on [[Real 100; Real 119]] [Real 19] in
  exists adjusted,
    BarrierOption.adjustedBarrier sample_barrier = Ok (Real adjusted)
    /\ adjusted < 120
    /\ fst (BarrierOption.adjustForContinuousBarrier sample_barrier result)
       = BarrierOption.calculatePrice_given
           (<["barrier" := VNum (Real adjusted)]> sample_barrier)
           [[Real 100; Real 119]].
Proof.
  intros result.
  destruct (barrier_correction_reprices sample_barrier "up-and-out"
              120 0.2 1 (INR 2) result) as (H1 & H2 & H3 & _);
    try reflexivity; try (simpl; lra).
  eexists. split; [exact H1|]. split; [exact H2 | exact H3].
Defined.

(** ** LookbackOption: the continuous-monitoring correction *)

Lemma lookback_adjustment_run (this : obj) (sigma T n : R)
    (result : PricingResult) (qs : list R) :
  numprop this "sigma" = Real sigma ->
  numprop this "T" = Real T ->
  numprop this "steps" = Real n ->
  0 < T -> 0 < n ->
  payoffs result = map Real qs -> qs <> [] ->
  let factor := exp (0.5826 * sigma * sqrt (T / n)) in
  exists res,
    LookbackOption.adjustForContinuousMonitoring this result = Ok res
    /\ payoffs res = map Real (map (fun q => q * factor) qs)
    /\ price res = Real (mean_R (map (fun q => q * factor) qs))
    /\ paths res = paths result.
Proof.
  intros Hsigma HT Hn HTpos Hnpos Hqs Hne factor.
  unfold LookbackOption.adjustForContinuousMonitoring. cbv zeta.
  rewrite (barrier_adjustment_value this sigma T n) by done.
  rewrite Hqs. cbn [Num.exp]. fold factor.
  assert (Hmap : map (fun payoff => payoff * Real factor)%num (map Real qs)
                 = map Real (map (fun q => q * factor) qs)).
  { rewrite !map_map. reflexivity. }
  rewrite Hmap.
  assert (Hne' : map (fun q => q * factor) qs <> []) by by destruct qs.
  rewrite reduce1_add_real by done. cbn [obind].
  destruct (confidence_mean _ Hne') as (ci & -> & _). cbn [obind].
  eexists. split; [reflexivity|]. cbn [payoffs price paths].
  split; [reflexivity|]. split; [|reflexivity].
  by apply mean_of_reals.
Qed.

(** C3 fails as stated: on the same discounted payoff 10, the correction of
    the lookback call and that of the lookback put return the same payoff
    [10 f] with the same factor [f > 1]; the put is not given the opposite
    sign. *)
Lemma lookback_sign_counterexample :
  let call := LookbackOption.constructor (to_params sample_parameters) in
  let put := LookbackOption.constructor (to_params sample_put) in
  let result := result_on [[Real 100; Real 110]] [Real 10] in
  Js.prop call "type" = VStr "call"
  /\ Js.prop put "type" = VStr "put"
  /\ exists f res_call res_put,
       1 < f
       /\ LookbackOption.adjustForContinuousMonitoring call result = Ok res_call
       /\ LookbackOption.adjustForContinuousMonitoring put result = Ok res_put
       /\ payoffs res_call = [Real (10 * f)]
       /\ payoffs res_put = [Real (10 * f)].
Proof.
  intros call put result.
  split; [reflexivity|]. split; [reflexivity|].
  destruct (lookback_adjustment_run call 0.2 1 (INR 2) result [10])
    as (res_call & Hcall & Hpc & _); try reflexivity; try (simpl; lra); try done.
  destruct (lookback_adjustment_run put 0.2 1 (INR 2) result [10])
    as (res_put & Hput & Hpp & _); try reflexivity; try (simpl; lra); try done.
  exists (exp (0.5826 * 0.2 * sqrt (1 / INR 2))), res_call, res_put.
  split; [|by repeat split].
  apply exp_gt_1, shift_positive; simpl; lra.
Qed.

(** C3, amended. On a lookback option with positive real [T] and [steps]
    and a real [sigma], whatever its option type, the correction multiplies
    each already-discounted payoff of the given result by
    [exp(+beta sigma sqrt(T/n))], [beta = 0.5826]; the price is the mean of
    the multiplied payoffs and the paths are those of the given result:
    nothing is re-evaluated on the paths. *)
Theorem lookback_correction_scales (this : obj) (sigma T n : R)
    (result : PricingResult) (qs : list R) :
  numprop this "sigma" = Real sigma ->
  numprop this "T" = Real T ->
  numprop this "steps" = Real n ->
  0 < T -> 0 < n ->
  payoffs result = map Real qs -> qs <> [] ->
  let factor := exp (0.5826 * sigma * sqrt (T / n)) in
  exists res,
    LookbackOption.adjustForContinuousMonitoring this result = Ok res
    /\ payoffs res = map (fun payoff => payoff * Real factor)%num (payoffs result)
    /\ price res = Real (mean_R (map (fun q => q * factor) qs))
    /\ paths res = paths result.
Proof.
  intros Hsigma HT Hn HTpos Hnpos Hqs Hne factor.
  destruct (lookback_adjustment_run this sigma T n result qs)
    as (res & Hres & Hp & Hprice & Hpaths); try done.
  exists res. split; [exact Hres|]. split; [|by split].
  rewrite Hp, Hqs, !map_map. reflexivity.
Qed.

Lemma lookback_correction_scales_witness :
  let put := LookbackOption.constructor (to_params sample_put) in
  let result := result_on [[Real 100; Real 110]] [Real 10] in
  let factor := exp (0.5826 * 0.2 * sqrt (1 / INR 2)) in
  exists res,
    LookbackOption.adjustForContinuousMonitoring put result = Ok res
    /\ payoffs res = [(Real 10 * Real factor)%num]
    /\ paths res = [[Real 100; Real 110]].
Proof.
  intros put result factor.
  destruct (lookback_correction_scales put 0.2 1 (INR 2) result [10])
    as (res & Hres & Hp & _ & Hpaths);
    try reflexivity; try (simpl; lra); try discriminate.
  exists res. split; [exact Hres|]. split; [exact Hp | exact Hpaths].
Defined.

(** ** Evaluating arithmetic on reals *)

Lemma sqrt_real x : 0 <= x -> Num.sqrt (Real x) = Real (sqrt x).
Proof. intros H. simpl. by rewrite NumFacts.Rltb_false. Qed.

Lemma sqrt_negative x : x < 0 -> Num.sqrt (Real x) = NaN.
Proof. intros H. simpl. by rewrite NumFacts.Rltb_true. Qed.

Lemma div_real x y : y <> 0 -> (Real x / Real y)%num = Real (x / y).
Proof. intros H. simpl. by rewrite NumFacts.Reqb_false. Qed.

Lemma real_eq x y : x = y -> Real x = Real y.
Proof. by intros ->. Qed.

(** ** The Cholesky factorisation *)

(** C5 fails on the code. The symmetric matrix [[1, 2], [2, 1]] is not
    positive definite: the second diagonal entry of its factor is the
    square root of 1 - 4. [Math.sqrt] returns NaN there, the test
    [L[i][i] <= 0] is false on NaN, and [cholesky] returns a factor that
    holds NaN instead of signalling the failure; likewise on the 1 x 1
    matrix [[-1]]. A diagonal entry that is exactly zero, as on [[0]], is
    reported. *)
Theorem cholesky_misses_negative_pivot :
  Matrix.cholesky [[Real 1; Real 2]; [Real 2; Real 1]]
  = Ok [[Real 1; Real 0]; [Real 2; NaN]]
  /\ Matrix.cholesky [[Real (-1)]] = Ok [[NaN]]
  /\ Matrix.cholesky [[Real 0]] = Throw (Error "Matrix is not positive definite").
Proof.
  assert (H1 : Num.sqrt (Real 1 - Real 0) = Real 1).
  { simpl Num.sub. rewrite sqrt_real by lra. apply real_eq.
    replace (1 + - 0) with 1 by lra. apply sqrt_1. }
  split; [|split].
  - unfold Matrix.cholesky.
    cbn -[Num.sqrt Num.sub Num.add Num.mul Num.div Num.leb].
    rewrite !H1.
    assert (H2 : ((Real 2 - Real 0) / Real 1)%num = Real 2).
    { simpl Num.sub. rewrite div_real by lra. apply real_eq. lra. }
    rewrite !H2.
    assert (H3 : Num.sqrt (Real 1 - (Real 0 + Real 2 * Real 2)) = NaN).
    { simpl Num.sub. apply sqrt_negative. lra. }
    rewrite !H3. simpl. by rewrite NumFacts.Rleb_false by lra.
  - unfold Matrix.cholesky.
    cbn -[Num.sqrt Num.sub Num.add Num.mul Num.div Num.leb].
    assert (H2 : Num.sqrt (Real (-1) - Real 0) = NaN).
    { simpl Num.sub. apply sqrt_negative. lra. }
    by rewrite !H2.
  - unfold Matrix.cholesky.
    cbn -[Num.sqrt Num.sub Num.add Num.mul Num.div Num.leb].
    assert (H2 : Num.sqrt (Real 0 - Real 0) = Real 0).
    { simpl Num.sub. rewrite sqrt_real by lra. apply real_eq.
      replace (0 + - 0) with 0 by lra. apply sqrt_0. }
    rewrite !H2. simpl. by rewrite NumFacts.Rleb_true by lra.
Qed.

(** ** simulatePaths *)

Section Paths.

Variable this : obj.
Variables n m : nat.
Hypothesis Hsteps : Js.prop this "steps" = VNum (Num.of_nat n).
Hypothesis Hsims : Js.prop this "simulations" = VNum (Num.of_nat m).
Hypothesis Hn : (Z.of_nat (S n) < 2 ^ 32)%Z.
Hypothesis Hm : (Z.of_nat m < 2 ^ 32)%Z.

Let m_eff := effective_count (Js.truthy (Js.prop this "useAntithetic")) m.

Lemma step_movement_spec (drift diffusion : num) (s : rng) :
  exists movement s1,
    MonteCarloSimulation.step_movement this drift diffusion s = Ok (movement, s1)
    /\ step_of this drift diffusion s movement s1
    /\ (Js.truthy (Js.prop this "jumpDiffusion") = false -> s1 = advance m_eff s).
Proof.
  pose proof (generateRandomNumbers_run this m s Hsims Hm) as Hgen.
  fold m_eff in Hgen.
  unfold MonteCarloSimulation.step_movement.
  rewrite (bind_ok _ _ _ _ _ Hgen).
  destruct (Js.truthy (Js.prop this "jumpDiffusion")) eqn:Hjump.
  - unfold bind at 1. rewrite random_eq.
    destruct (Num.ltb (uniform_at (advance m_eff s) 0) _) eqn:Hlt.
    + unfold bind. rewrite random_eq. unfold ret.
      eexists _, _. split; [reflexivity|]. split; [|done].
      replace (uniform_at (advance 1 (advance m_eff s)) 0)
        with (uniform_at (advance m_eff s) 1).
      2:{ unfold uniform_at, advance. simpl. do 2 f_equal. lia. }
      rewrite (advance_advance 1 1 (advance m_eff s)).
      by eapply step_jump.
    + unfold ret. eexists _, _. split; [reflexivity|]. split; [|done].
      by eapply step_no_jump.
  - unfold ret. eexists _, _. split; [reflexivity|]. split; [|done].
    by eapply step_plain.
Qed.

Lemma at_index_middle (done rest : list num) (x : num) :
  Js.at_index (done ++ x :: rest) (length done) = x.
Proof.
  unfold Js.at_index. rewrite lookup_app_r by lia.
  by rewrite Nat.sub_diag.
Qed.

Lemma step_loop_spec (drift diffusion : num) (k : nat) :
  forall (done : list num) (price : num) (s : rng),
  exists rest s',
    MonteCarloSimulation.step_loop this drift diffusion k (length done)
      (done ++ price :: replicate k NaN) s
    = Ok (done ++ price :: rest, s')
    /\ walk this drift diffusion k price s rest s'
    /\ length rest = k
    /\ (Js.truthy (Js.prop this "jumpDiffusion") = false ->
        s' = advance (k * m_eff) s).
Proof.
  induction k as [|k IH]; intros done price s.
  - exists [], s. simpl. unfold ret. repeat split; [constructor|].
    intros _. by rewrite advance_0.
  - destruct (step_movement_spec drift diffusion s)
      as (movement & s1 & Hmove & Hstep & Hs1).
    cbn [MonteCarloSimulation.step_loop].
    rewrite (bind_ok _ _ _ _ _ Hmove).
    rewrite at_index_middle.
    replace (done ++ price :: replicate (S k) NaN)
      with ((done ++ [price]) ++ NaN :: replicate k NaN)
      by (by rewrite <- app_assoc).
    rewrite set_index_fill by (rewrite length_app; simpl; lia).
    replace (S (length done)) with (length (done ++ [price]))
      by (rewrite length_app; simpl; lia).
    rewrite <- app_assoc. cbn [app].
    destruct (IH (done ++ [price]) (price * Num.exp movement)%num s1)
      as (rest & s' & Hloop & Hwalk & Hlen & Hs').
    rewrite Hloop. rewrite <- app_assoc. cbn [app].
    exists ((price * Num.exp movement)%num :: rest), s'.
    split; [reflexivity|]. split; [by econstructor|].
    split; [simpl; by rewrite Hlen|].
    intros Hjump. rewrite (Hs' Hjump), (Hs1 Hjump), advance_advance.
    f_equal; lia.
Qed.

Lemma sim_loop_spec (drift diffusion : num) (j : nat) :
  forall (done : list (list num)) (s : rng),
  exists ps s',
    MonteCarloSimulation.sim_loop this drift diffusion j (length done)
      (done ++ replicate j []) s
    = Ok (done ++ ps, s')
    /\ walks this drift diffusion n j s ps s'
    /\ length ps = j
    /\ Forall (fun path => length path = S n) ps
    /\ (Js.truthy (Js.prop this "jumpDiffusion") = false ->
        s' = advance (j * (n * m_eff)) s).
Proof.
  induction j as [|j IH]; intros done s.
  - exists [], s. simpl. unfold ret. rewrite app_nil_r.
    repeat split; [constructor | constructor |].
    intros _. by rewrite advance_0.
  - cbn [MonteCarloSimulation.sim_loop].
    assert (Hlen1 : (numprop this "steps" + Real 1)%num = Num.of_nat (S n)).
    { unfold numprop. rewrite Hsteps. unfold Num.of_nat.
      cbn [Js.to_number Num.add]. by rewrite S_INR. }
    rewrite Hlen1. unfold bind at 1, lift at 1.
    rewrite new_array_of_nat by done.
    cbn [replicate].
    change (NaN :: replicate n NaN) with ([] ++ NaN :: replicate n NaN).
    rewrite set_index_fill by done. cbn [app].
    assert (Htrips : Num.trips (numprop this "steps") = n).
    { unfold numprop. rewrite Hsteps. apply NumFacts.trips_of_nat. }
    rewrite Htrips.
    destruct (step_loop_spec drift diffusion n [] (numprop this "S0") s)
      as (rest & s1 & Hloop & Hwalk & Hlen & Hs1).
    cbn [app length] in Hloop.
    rewrite (bind_ok _ _ _ _ _ Hloop).
    rewrite set_index_fill by done.
    replace (S (length done)) with (length (done ++ [numprop this "S0" :: rest]))
      by (rewrite length_app; simpl; lia).
    destruct (IH (done ++ [numprop this "S0" :: rest]) s1)
      as (ps & s' & Hsim & Hwalks & Hlenps & Hall & Hs').
    rewrite Hsim. rewrite <- app_assoc. cbn [app].
    exists ((numprop this "S0" :: rest) :: ps), s'.
    split; [reflexivity|]. split; [by econstructor|].
    split; [simpl; by rewrite Hlenps|].
    split; [constructor; [simpl; by rewrite Hlen | done]|].
    intros Hjump. rewrite (Hs' Hjump), (Hs1 Hjump), advance_advance.
    f_equal; lia.
Qed.

Lemma simulatePaths_spec (s : rng) :
  exists ps s',
    MonteCarloSimulation.simulatePaths this s = Ok (ps, s')
    /\ walks this (drift_of this) (diffusion_of this) n m s ps s'
    /\ length ps = m
    /\ Forall (fun path => length path = S n) ps
    /\ (Js.truthy (Js.prop this "jumpDiffusion") = false ->
        s' = advance (m * (n * m_eff)) s).
Proof.
  unfold MonteCarloSimulation.simulatePaths.
  assert (Hnum : numprop this "simulations" = Num.of_nat m).
  { unfold numprop. by rewrite Hsims. }
  rewrite Hnum. unfold bind at 1, lift at 1.
  rewrite new_array_of_nat by done.
  rewrite NumFacts.trips_of_nat.
  fold (drift_of this) (diffusion_of this).
  destruct (sim_loop_spec (drift_of this) (diffusion_of this) m [] s)
    as (ps & s' & Hsim & H).
  cbn [app length] in Hsim. rewrite Hsim. by exists ps, s'.
Qed.

End Paths.

(** C4. On an instance whose [steps] and [simulations] are the whole
    numbers [n] and [m], [simulatePaths] returns [m] paths of [n + 1]
    prices, each starting at [S0]. Every step of every path calls
    [generateRandomNumbers] anew on the random source as it then stands and
    takes the first entry of the returned array as its normal [Z]; the next
    price is the previous one times
    [exp((r - sigma^2/2) dt + sigma sqrt(dt) Z)], with the jump
    [muJ + sigmaJ normalInverse(U)] added to the exponent when jump
    diffusion is enabled and the uniform drawn for the step is below
    [lambda dt]. Without jump diffusion the [m n] steps consume
    [m n m_eff] uniforms, one batch of [m_eff] a step. *)
Theorem simulatePaths_resamples_each_step (this : obj) (n m : nat) (s : rng) :
  Js.prop this "steps" = VNum (Num.of_nat n) ->
  Js.prop this "simulations" = VNum (Num.of_nat m) ->
  (Z.of_nat (S n) < 2 ^ 32)%Z ->
  (Z.of_nat m < 2 ^ 32)%Z ->
  exists ps s',
    MonteCarloSimulation.simulatePaths this s = Ok (ps, s')
    /\ walks this (drift_of this) (diffusion_of this) n m s ps s'
    /\ length ps = m
    /\ Forall (fun path => length path = S n) ps
    /\ (Js.truthy (Js.prop this "jumpDiffusion") = false ->
        s' = advance
               (m * (n * effective_count
                            (Js.truthy (Js.prop this "useAntithetic")) m)) s).
Proof. intros Hsteps Hsims Hn Hm. by apply simulatePaths_spec. Qed.

Lemma simulatePaths_resamples_each_step_witness :
  let this := MonteCarloSimulation.constructor (to_params sample_parameters) in
  exists ps,
    MonteCarloSimulation.simulatePaths this sample_rng
    = Ok (ps, advance 12 sample_rng)
    /\ walks this (drift_of this) (diffusion_of this) 2 3 sample_rng ps
         (advance 12 sample_rng)
    /\ length ps = 3%nat.
Proof.
  intros this.
  destruct (simulatePaths_resamples_each_step this 2 3 sample_rng)
    as (ps & s' & Hrun & Hwalks & Hlen & _ & Hs'); try reflexivity.
  assert (Hend : s' = advance 12 sample_rng) by (apply Hs'; reflexivity).
  exists ps. rewrite <- Hend. split; [exact Hrun|]. split; [exact Hwalks | exact Hlen].
Defined.

(** ** The Greeks *)

Lemma confidence_ok (prices : list num) :
  prices <> [] ->
  exists ci, MonteCarloSimulation.calculateConfidenceInterval prices = Ok ci.
Proof.
  intros H. unfold MonteCarloSimulation.calculateConfidenceInterval.
  destruct prices; [done|]. simpl. by eexists.
Qed.

(** The vanilla evaluator throws on the empty path set only. *)
Lemma vanilla_calculatePrice_ok (sim : obj) (ps : list (list num)) :
  ps <> [] ->
  exists res, MonteCarloSimulation.calculatePrice_given sim ps = Ok res.
Proof.
  intros Hps.
  unfold MonteCarloSimulation.calculatePrice_given,
    MonteCarloSimulation.present_value.
  destruct ps as [|path ps]; [done|]. cbn [map Js.reduce1 obind].
  edestruct confidence_ok as [ci ->]; [|cbn [obind]; by eexists].
  discriminate.
Qed.

Lemma reprice_ok (sim : obj) (n m : nat) (s : rng) :
  Js.prop sim "steps" = VNum (Num.of_nat n) ->
  Js.prop sim "simulations" = VNum (Num.of_nat m) ->
  (Z.of_nat (S n) < 2 ^ 32)%Z ->
  (Z.of_nat m < 2 ^ 32)%Z ->
  (0 < m)%nat ->
  exists res s', reprice sim s = Ok (res, s').
Proof.
  intros Hsteps Hsims Hn Hm Hpos.
  destruct (simulatePaths_spec sim n m Hsteps Hsims Hn Hm s)
    as (ps & s' & Hrun & _ & Hlen & _).
  unfold reprice. rewrite (bind_ok _ _ _ _ _ Hrun).
  destruct (vanilla_calculatePrice_ok sim ps) as [res Hres].
  { destruct ps; [simpl in Hlen; lia | done]. }
  unfold MonteCarloSimulation.calculatePrice, lift. rewrite Hres.
  by exists res, s'.
Qed.

Lemma bumped_prop (this : instance) (k : string) (v : num) :
  k <> "steps" -> k <> "simulations" ->
  Js.prop (bumped this k v) "steps" = Js.prop (own this) "steps"
  /\ Js.prop (bumped this k v) "simulations" = Js.prop (own this) "simulations".
Proof.
  intros H1 H2. unfold bumped.
  rewrite constructor_steps, constructor_simulations.
  by rewrite !prop_insert_ne.
Qed.

(** Whenever the base price is computed, [calculateGreeks] returns, and
    every sensitivity it returns is NaN: the operands of its differences
    are result objects. *)
Lemma calculateGreeks_nan (this : instance) (paths : list (list num))
    (n m : nat) (s s0 : rng) (base : PricingResult) :
  calculatePrice this (Some paths) s = Ok (base, s0) ->
  Js.prop (own this) "steps" = VNum (Num.of_nat n) ->
  Js.prop (own this) "simulations" = VNum (Num.of_nat m) ->
  (Z.of_nat (S n) < 2 ^ 32)%Z ->
  (Z.of_nat m < 2 ^ 32)%Z ->
  (0 < m)%nat ->
  exists s',
    calculateGreeks this paths s
    = Ok ({| delta := NaN; gamma := NaN; theta := NaN; vega := NaN; rho := NaN |},
          s').
Proof.
  intros Hbase Hsteps Hsims Hn Hm Hpos.
  assert (Hre : forall k v s1, k <> "steps" -> k <> "simulations" ->
            exists res s2, reprice (bumped this k v) s1 = Ok (res, s2)).
  { intros k v s1 H1 H2.
    destruct (bumped_prop this k v H1 H2) as [E1 E2].
    apply (reprice_ok _ n m); by rewrite ?E1, ?E2. }
  unfold calculateGreeks. cbv zeta.
  rewrite (bind_ok _ _ _ _ _ Hbase).
  edestruct (Hre "spot") as (up1 & s1 & H1); [done | done |].
  rewrite (bind_ok _ _ _ _ _ H1).
  edestruct (Hre "spot") as (down1 & s2 & H2); [done | done |].
  rewrite (bind_ok _ _ _ _ _ H2).
  edestruct (Hre "spot") as (up2 & s3 & H3); [done | done |].
  rewrite (bind_ok _ _ _ _ _ H3).
  edestruct (Hre "spot") as (down2 & s4 & H4); [done | done |].
  rewrite (bind_ok _ _ _ _ _ H4).
  edestruct (Hre "maturity") as (th & s5 & H5); [done | done |].
  rewrite (bind_ok _ _ _ _ _ H5).
  edestruct (Hre "volatility") as (ve & s6 & H6); [done | done |].
  rewrite (bind_ok _ _ _ _ _ H6).
  edestruct (Hre "riskFreeRate") as (rh & s7 & H7); [done | done |].
  rewrite (bind_ok _ _ _ _ _ H7).
  unfold ret, result_to_number. exists s7. reflexivity.
Qed.

(** ** When the evaluators return *)

Lemma present_value_ok (this : obj) (paths : list (list num)) (payoffs : list num) :
  payoffs <> [] ->
  exists res, MonteCarloSimulation.present_value this paths payoffs = Ok res.
Proof.
  intros H. unfold MonteCarloSimulation.present_value.
  destruct payoffs as [|p payoffs]; [done|]. cbn [map Js.reduce1 obind].
  edestruct confidence_ok as [ci ->]; [|cbn [obind]; by eexists].
  discriminate.
Qed.

Lemma map_outcome_ok {A B} (f : A -> outcome B) (l : list A) :
  Forall (fun x => exists y, f x = Ok y) l ->
  exists ys, map_outcome f l = Ok ys /\ length ys = length l.
Proof.
  induction 1 as [|x l [y Hy] _ (ys & IH & Hlen)]; simpl.
  - by exists [].
  - rewrite Hy, IH. simpl. exists (y :: ys). simpl. by rewrite Hlen.
Qed.

Lemma asian_payoff_ok (this : obj) (path : list num) :
  path <> [] -> exists q, AsianOption.payoff this path = Ok q.
Proof.
  intros H. unfold AsianOption.payoff, AsianOption.average.
  destruct path as [|x path]; [done|].
  destruct (Js.is_string (Js.prop this "averageType") "arithmetic");
    cbn [Js.reduce1 obind];
    destruct (Js.is_string (Js.prop this "type") "call"); by eexists.
Qed.

Lemma barrier_payoff_ok (this : obj) (bt : string) (path : list num) :
  Js.prop this "barrierType" = VStr bt ->
  exists q, BarrierOption.payoff this path = Ok q.
Proof.
  intros Hbt. unfold BarrierOption.payoff, BarrierOption.checkBarrierHit.
  rewrite Hbt. simpl.
  destruct (String.prefix "up" bt), (Js.ends_with bt "out");
    repeat match goal with |- context [existsb ?f ?l] => destruct (existsb f l) end;
    simpl; by eexists.
Qed.

Lemma calculatePrice_ok (c : class) (this : obj) (paths : list (list num))
    (s : rng) :
  paths <> [] ->
  Forall (fun path => path <> []) paths ->
  (c = Barrier -> exists bt, Js.prop this "barrierType" = VStr bt) ->
  exists base,
    calculatePrice {| class_of := c; own := this |} (Some paths) s = Ok (base, s).
Proof.
  intros Hne Hall Hbt. unfold calculatePrice. cbn [class_of own].
  assert (Hpv : forall payoffs, length payoffs = length paths ->
            exists res,
              MonteCarloSimulation.present_value this paths payoffs = Ok res).
  { intros payoffs Hlen. apply present_value_ok. destruct payoffs, paths; done. }
  destruct c.
  - unfold MonteCarloSimulation.calculatePrice, lift,
      MonteCarloSimulation.calculatePrice_given.
    destruct (Hpv (map (fun path =>
                MonteCarloSimulation.vanilla_payoff this (Js.last_of path)) paths))
      as [res ->]; [apply length_map | by eexists].
  - unfold AsianOption.calculatePrice, lift, AsianOption.calculatePrice_given.
    destruct (map_outcome_ok (AsianOption.payoff this) paths) as (qs & -> & Hlen).
    { eapply Forall_impl; [exact Hall|]. intros path. apply asian_payoff_ok. }
    cbn [obind]. destruct (Hpv qs Hlen) as [res ->]. by eexists.
  - destruct (Hbt eq_refl) as [bt Hbt'].
    unfold BarrierOption.calculatePrice, lift, BarrierOption.calculatePrice_given.
    destruct (map_outcome_ok (BarrierOption.payoff this) paths) as (qs & -> & Hlen).
    { apply Forall_forall. intros path _. by apply (barrier_payoff_ok this bt). }
    cbn [obind]. destruct (Hpv qs Hlen) as [res ->]. by eexists.
  - unfold LookbackOption.calculatePrice, lift, LookbackOption.calculatePrice_given.
    destruct (Hpv (map (LookbackOption.payoff this) paths)) as [res ->];
      [apply length_map | by eexists].
Qed.

(** ** Risk metrics *)

Lemma div_nan (a : num) : (a / NaN)%num = NaN.
Proof. by destruct a. Qed.

Lemma filter_none {A} (P : A -> Prop) `{!forall x, Decision (P x)} (l : list A) :
  Forall (fun x => ~ P x) l -> filter P l = [].
Proof.
  induction 1 as [|x l Hx _ IH]; [done|].
  rewrite filter_cons. by destruct (decide (P x)).
Qed.

Lemma sortino_without_losses (this : obj) (paths : list (list num)) :
  paths <> [] ->
  Forall (fun x => Num.ltb x (Real 0) = false) (log_returns this paths) ->
  exists rm, MonteCarloSimulation.calculateRiskMetrics this paths = Ok rm
             /\ sortinoRatio rm = NaN.
Proof.
  intros Hne Hnonneg.
  unfold MonteCarloSimulation.calculateRiskMetrics. cbv zeta.
  rewrite map_map. fold (log_returns this paths).
  assert (Hfilter : filter (fun r => Num.ltb r (Real 0) = true)
                      (log_returns this paths) = []).
  { apply filter_none. eapply Forall_impl; [exact Hnonneg|].
    intros x Hx. by rewrite Hx. }
  rewrite Hfilter.
  destruct (log_returns this paths) as [|x returns] eqn:Hreturns.
  { destruct paths; [done | discriminate]. }
  cbn [Js.reduce1 obind]. eexists. split; [reflexivity|].
  cbn [sortinoRatio foldl].
  assert (Hzero : (Real 0 / Js.length_of (@nil num))%num = NaN).
  { unfold Js.length_of, Num.of_nat. simpl.
    rewrite NumFacts.Reqb_true by reflexivity.
    unfold Num.signed_inf. by rewrite !NumFacts.Rltb_false by lra. }
  rewrite Hzero. apply div_nan.
Qed.

(** ** Numerical degeneracies *)

(** C9. On a non-empty path set, neither degeneracy is signalled as an
    error. With a zero risk-free rate (every path holding a price, a
    barrier option having a string barrier type, [steps] and [simulations]
    whole numbers, at least one simulation) [calculateGreeks] returns, and
    the Rho it returns is not finite. When no terminal log-return is
    negative [calculateRiskMetrics] returns, and the Sortino ratio it
    returns is not finite. *)
Theorem degeneracies_propagate (c : class) (this : obj)
    (paths : list (list num)) (n m : nat) (s : rng) :
  paths <> [] ->
  (numprop this "r" = Real 0 ->
   Forall (fun path => path <> []) paths ->
   (c = Barrier -> exists bt, Js.prop this "barrierType" = VStr bt) ->
   Js.prop this "steps" = VNum (Num.of_nat n) ->
   Js.prop this "simulations" = VNum (Num.of_nat m) ->
   (Z.of_nat (S n) < 2 ^ 32)%Z ->
   (Z.of_nat m < 2 ^ 32)%Z ->
   (0 < m)%nat ->
   exists g s',
     calculateGreeks {| class_of := c; own := this |} paths s = Ok (g, s')
     /\ Num.finite (rho g) = false)
  /\ (Forall (fun x => Num.ltb x (Real 0) = false) (log_returns this paths) ->
      exists rm,
        MonteCarloSimulation.calculateRiskMetrics this paths = Ok rm
        /\ Num.finite (sortinoRatio rm) = false).
Proof.
  intros Hne. split.
  - intros _ Hall Hbt Hsteps Hsims Hn Hm Hpos.
    destruct (calculatePrice_ok c this paths s Hne Hall Hbt) as [base Hbase].
    destruct (calculateGreeks_nan _ paths n m s s base Hbase) as [s' Hg]; try done.
    eexists _, s'. split; [exact Hg | reflexivity].
  - intros Hnonneg.
    destruct (sortino_without_losses this paths Hne Hnonneg) as (rm & Hrm & Hs).
    exists rm. split; [exact Hrm|]. by rewrite Hs.
Qed.

Lemma degeneracies_propagate_witness :
  let this := MonteCarloSimulation.constructor (to_params sample_zero_rate) in
  let paths := [[Real 100; Real 110]] in
  (exists g s',
     calculateGreeks {| class_of := Vanilla; own := this |} paths sample_rng
     = Ok (g, s')
     /\ Num.finite (rho g) = false)
  /\ (exists rm,
        MonteCarloSimulation.calculateRiskMetrics this paths = Ok rm
        /\ Num.finite (sortinoRatio rm) = false).
Proof.
  intros this paths.
  destruct (degeneracies_propagate Vanilla this paths 2 3 sample_rng)
    as [Hrho Hsortino]; [discriminate|].
  split.
  - apply Hrho; try reflexivity; try discriminate; try lia.
    repeat constructor; discriminate.
  - apply Hsortino. repeat constructor.
    change (Num.ltb (Num.log (Real 110 / Real 100)) (Real 0) = false).
    rewrite div_real by lra. simpl.
    assert (Hln : 0 < ln (110 / 100)).
    { rewrite <- ln_1. apply ln_increasing; lra. }
    rewrite (NumFacts.Rltb_false (110 / 100)), NumFacts.Reqb_false by lra.
    simpl. apply NumFacts.Rltb_false. lra.
Defined.

(** ** The bumped simulations of calculateGreeks *)

Lemma bumped_parameters (this : instance) (v : num) :
  own this !! "spot" = None ->
  own this !! "strike" = None ->
  own this !! "volatility" = None ->
  own this !! "riskFreeRate" = None ->
  own this !! "maturity" = None ->
  Js.prop (bumped this "spot" v) "S0" = VNum v
  /\ Js.prop (bumped this "spot" v) "K" = VUndef
  /\ Js.prop (bumped this "spot" v) "sigma" = VUndef
  /\ Js.prop (bumped this "spot" v) "r" = VUndef
  /\ Js.prop (bumped this "spot" v) "T" = VUndef.
Proof.
  intros H1 H2 H3 H4 H5. unfold bumped.
  rewrite constructor_S0, constructor_K, constructor_sigma, constructor_r,
    constructor_T.
  rewrite prop_insert_eq, !prop_insert_ne by done.
  unfold Js.prop. by rewrite H2, H3, H4, H5.
Qed.

(** C1 fails on the code. The simulation built from a request stores its
    parameters under [S0], [K], [sigma], [r], [T]; the bumped simulation is
    constructed from these properties plus [spot], and its constructor
    reads [strike], [volatility], [riskFreeRate] and [maturity], which are
    not there: the bumped simulation has the bumped spot, the steps and the
    simulations of the request, and an undefined strike, volatility, rate
    and maturity. On the sample request [calculateGreeks] returns NaN for
    Delta and Gamma, as for the three other sensitivities: it subtracts the
    result objects of [calculatePrice], not their prices. *)
Theorem calculateGreeks_drops_parameters :
  (forall (cfg : SimulationParameters) (v : num),
     let this := {| class_of := Vanilla;
                    own := MonteCarloSimulation.constructor (to_params cfg) |} in
     let spotUp := bumped this "spot" v in
     Js.prop (own this) "K" = VNum (strike cfg)
     /\ Js.prop (own this) "sigma" = VNum (volatility cfg)
     /\ Js.prop (own this) "r" = VNum (riskFreeRate cfg)
     /\ Js.prop (own this) "T" = VNum (maturity cfg)
     /\ Js.prop spotUp "S0" = VNum v
     /\ Js.prop spotUp "K" = VUndef
     /\ Js.prop spotUp "sigma" = VUndef
     /\ Js.prop spotUp "r" = VUndef
     /\ Js.prop spotUp "T" = VUndef
     /\ Js.prop spotUp "steps" = VNum (Num.of_nat (steps cfg))
     /\ Js.prop spotUp "simulations" = VNum (Num.of_nat (simulations cfg)))
  /\ exists s',
       calculateGreeks sample_instance [[Real 100; Real 110]] sample_rng
       = Ok ({| delta := NaN; gamma := NaN; theta := NaN; vega := NaN;
                rho := NaN |}, s').
Proof.
  split.
  - intros cfg v this spotUp.
    destruct (constructor_no_parameter_keys (to_params cfg))
      as (N1 & N2 & N3 & N4 & N5).
    destruct (bumped_parameters this v N1 N2 N3 N4 N5)
      as (B1 & B2 & B3 & B4 & B5).
    destruct (bumped_prop this "spot" v) as [B6 B7]; [done | done |].
    unfold this, own in *.
    rewrite constructor_K, constructor_sigma, constructor_r, constructor_T.
    rewrite constructor_steps in B6. rewrite constructor_simulations in B7.
    repeat split; try done.
  - destruct (calculatePrice_ok Vanilla (own sample_instance)
                [[Real 100; Real 110]] sample_rng) as [base Hbase];
      [discriminate | repeat constructor; discriminate | discriminate |].
    apply (calculateGreeks_nan sample_instance _ 2 3 sample_rng sample_rng base);
      try reflexivity; try lia. exact Hbase.
Qed.

(** * Further properties of the engine *)

(** ** Prices on paths of reals *)

Lemma max_real_eq (a b : R) : Num.max (Real a) (Real b) = Real (Rmax a b).
Proof.
  unfold Num.max, Num.ltb, Num.Rltb, Rmax.
  destruct (Rlt_dec a b), (Rle_dec a b);
    try reflexivity; try lra; f_equal; lra.
Qed.

Lemma min_real_eq (a b : R) : Num.min (Real a) (Real b) = Real (Rmin a b).
Proof.
  unfold Num.min, Num.ltb, Num.Rltb, Rmin.
  destruct (Rlt_dec b a), (Rle_dec a b);
    try reflexivity; try lra; f_equal; lra.
Qed.

Lemma last_of_reals (path : list R) :
  path <> [] -> Js.last_of (map Real path) = Real (terminal path).
Proof.
  intros Hne. unfold Js.last_of, Js.at_index, terminal.
  destruct (map Real path) eqn:Hmap; [by destruct path|]. rewrite <- Hmap.
  rewrite length_map, list_lookup_fmap.
  assert (H : path !! (length path - 1)%nat = Some (List.last path 0)).
  { clear Hmap. induction path as [|x path IH]; [done|].
    destruct path as [|y path]; [reflexivity|].
    replace (length (x :: y :: path) - 1)%nat with (S (length (y :: path) - 1))
      by (simpl; lia).
    apply (IH ltac:(done)). }
  by rewrite H.
Qed.

Lemma vanilla_payoff_reals (this : obj) (k x : R) :
  numprop this "K" = Real k ->
  MonteCarloSimulation.vanilla_payoff this (Real x)
  = Real (vanilla_R (Js.is_string (Js.prop this "type") "call") k x).
Proof.
  intros HK. unfold MonteCarloSimulation.vanilla_payoff, vanilla_R.
  rewrite HK. destruct (Js.is_string _ _); apply max_real_eq.
Qed.

Lemma vanilla_R_nonneg call k x : 0 <= vanilla_R call k x.
Proof. unfold vanilla_R. destruct call; apply Rmax_r. Qed.

(** The discounting step on real payoffs, with the price spelled out. *)
Lemma present_value_price (this : obj) (paths : list (list num)) (qs : list R)
    (r T : R) :
  qs <> [] ->
  numprop this "r" = Real r -> numprop this "T" = Real T ->
  exists res,
    MonteCarloSimulation.present_value this paths (map Real qs) = Ok res
    /\ price res = Real (mean_R qs * exp (- r * T))
    /\ payoffs res = map Real (map (fun q => q * exp (- r * T)) qs).
Proof.
  intros Hqs Hr HT. unfold MonteCarloSimulation.present_value.
  rewrite Hr, HT. cbn [Num.neg Num.mul Num.exp].
  set (d := exp (- r * T)).
  assert (Hmap : map (fun p => p * Real d)%num (map Real qs)
                 = map Real (map (fun q => q * d) qs)).
  { rewrite !map_map. reflexivity. }
  rewrite Hmap, reduce1_add_real by done. cbn [obind].
  assert (Hne : map (fun q => q * d) qs <> []) by by destruct qs.
  destruct (confidence_mean _ Hne) as (ci & -> & Hci). cbn [obind].
  rewrite mean_of_reals by done.
  eexists. split; [reflexivity|]. cbn [payoffs price]. by split.
Qed.

Lemma sum_R_map_add {A} (f g h : A -> R) (l : list A) :
  (forall x, f x + g x = h x) ->
  sum_R (map f l) + sum_R (map g l) = sum_R (map h l).
Proof.
  intros H. induction l as [|x l IH]; simpl; [lra|].
  rewrite <- IH, <- (H x). lra.
Qed.

Lemma sum_R_map_le {A} (f g : A -> R) (l : list A) :
  (forall x, In x l -> f x <= g x) ->
  sum_R (map f l) <= sum_R (map g l).
Proof.
  induction l as [|x l IH]; intros H; simpl; [lra|].
  pose proof (H x (or_introl eq_refl)).
  assert (sum_R (map f l) <= sum_R (map g l)) by (apply IH; intros; apply H; by right).
  lra.
Qed.

Lemma mean_R_map_le {A} (f g : A -> R) (l : list A) :
  l <> [] ->
  (forall x, In x l -> f x <= g x) ->
  mean_R (map f l) <= mean_R (map g l).
Proof.
  intros Hne H. unfold mean_R. rewrite !length_map.
  pose proof (sum_R_map_le f g l H).
  assert (0 < INR (length l)).
  { destruct l; [done|]. apply lt_0_INR. simpl. lia. }
  apply Rmult_le_compat_r; [|done].
  apply Rlt_le. by apply Rinv_0_lt_compat.
Qed.

Lemma vanilla_price_real (this : obj) (rpaths : list (list R)) (k r T : R) :
  rpaths <> [] ->
  Forall (fun path => path <> []) rpaths ->
  numprop this "K" = Real k ->
  numprop this "r" = Real r -> numprop this "T" = Real T ->
  exists res,
    MonteCarloSimulation.calculatePrice_given this (real_paths rpaths) = Ok res
    /\ price res
       = Real (mean_R (map (fun path =>
                 vanilla_R (Js.is_string (Js.prop this "type") "call") k
                   (terminal path)) rpaths)
               * exp (- r * T)).
Proof.
  intros Hne Hall HK Hr HT.
  unfold MonteCarloSimulation.calculatePrice_given, real_paths.
  set (f := fun path => vanilla_R (Js.is_string (Js.prop this "type") "call") k
                          (terminal path)).
  assert (Hpay : map (fun path => MonteCarloSimulation.vanilla_payoff this
                                    (Js.last_of path)) (map (map Real) rpaths)
                 = map Real (map f rpaths)).
  { rewrite !map_map. apply map_ext_in. intros path Hin.
    rewrite last_of_reals by (by eapply (proj1 (List.Forall_forall _ _) Hall)).
    by apply vanilla_payoff_reals. }
  rewrite Hpay.
  destruct (present_value_price this (map (map Real) rpaths) (map f rpaths) r T)
    as (res & Hres & Hprice & _); try done.
  { by destruct rpaths. }
  by exists res.
Qed.

Lemma existsb_reals (g : num -> bool) (path : list R) :
  existsb g (map Real path) = existsb (fun x => g (Real x)) path.
Proof. induction path as [|x path IH]; simpl; [done | by rewrite IH]. Qed.

Lemma barrier_payoff_reals (this : obj) (bt : string) (b k : R) (path : list R) :
  Js.prop this "barrierType" = VStr bt ->
  numprop this "barrier" = Real b ->
  numprop this "K" = Real k ->
  path <> [] ->
  BarrierOption.payoff this (map Real path)
  = Ok (Real (knock_R (Js.ends_with bt "out")
                (breach_R (String.prefix "up" bt) b path)
                (vanilla_R (Js.is_string (Js.prop this "type") "call") k
                   (terminal path)))).
Proof.
  intros Hbt Hb HK Hne.
  unfold BarrierOption.payoff, BarrierOption.checkBarrierHit.
  rewrite Hbt, Hb. cbn [Js.startsWith Js.endsWith obind].
  rewrite last_of_reals, (vanilla_payoff_reals this k) by done.
  rewrite !existsb_reals. unfold knock_R, breach_R, Num.geb, Num.leb.
  destruct (String.prefix "up" bt); cbn [obind];
    destruct (existsb _ path), (Js.ends_with bt "out"); reflexivity.
Qed.

Lemma barrier_price_real (this : obj) (bt : string) (rpaths : list (list R))
    (b k r T : R) :
  rpaths <> [] ->
  Forall (fun path => path <> []) rpaths ->
  Js.prop this "barrierType" = VStr bt ->
  numprop this "barrier" = Real b ->
  numprop this "K" = Real k ->
  numprop this "r" = Real r -> numprop this "T" = Real T ->
  exists res,
    BarrierOption.calculatePrice_given this (real_paths rpaths) = Ok res
    /\ price res
       = Real (mean_R (map (fun path =>
                 knock_R (Js.ends_with bt "out")
                   (breach_R (String.prefix "up" bt) b path)
                   (vanilla_R (Js.is_string (Js.prop this "type") "call") k
                      (terminal path))) rpaths)
               * exp (- r * T)).
Proof.
  intros Hne Hall Hbt Hb HK Hr HT.
  unfold BarrierOption.calculatePrice_given, real_paths.
  set (f := fun path => knock_R _ _ _).
  assert (Hpay : map_outcome (BarrierOption.payoff this) (map (map Real) rpaths)
                 = Ok (map Real (map f rpaths))).
  { clear Hne. induction Hall as [|path rest Hpath _ IH]; [done|].
    cbn [map map_outcome].
    rewrite (barrier_payoff_reals this bt b k path), IH by done.
    reflexivity. }
  rewrite Hpay. cbn [obind].
  destruct (present_value_price this (map (map Real) rpaths) (map f rpaths) r T)
    as (res & Hres & Hprice & _); try done.
  { by destruct rpaths. }
  by exists res.
Qed.

Lemma numprop_insert_ne (this : obj) (k k' : string) (v : value) :
  k <> k' -> numprop (<[k := v]> this) k' = numprop this k'.
Proof. intros H. unfold numprop. by rewrite prop_insert_ne. Qed.

Lemma numprop_insert_eq (this : obj) (k : string) (a : num) :
  numprop (<[k := VNum a]> this) k = a.
Proof. unfold numprop. by rewrite prop_insert_eq. Qed.

(** ** Barrier options against the vanilla option *)

(** X1. In-out parity. On the same non-empty set of paths of reals, with
    the same real barrier, strike, rate and maturity, the price of a
    knock-out barrier option (a type ending with 'out') plus the price of
    the knock-in option of the same direction equals the price the vanilla
    evaluator returns. *)
Theorem barrier_in_out_parity (this : obj) (out_type in_type : string)
    (rpaths : list (list R)) (b k r T : R) :
  rpaths <> [] ->
  Forall (fun path => path <> []) rpaths ->
  numprop this "barrier" = Real b ->
  numprop this "K" = Real k ->
  numprop this "r" = Real r ->
  numprop this "T" = Real T ->
  String.prefix "up" out_type = String.prefix "up" in_type ->
  Js.ends_with out_type "out" = true ->
  Js.ends_with in_type "out" = false ->
  exists knock_out knock_in plain,
    BarrierOption.calculatePrice_given
      (<["barrierType" := VStr out_type]> this) (real_paths rpaths) = Ok knock_out
    /\ BarrierOption.calculatePrice_given
         (<["barrierType" := VStr in_type]> this) (real_paths rpaths) = Ok knock_in
    /\ MonteCarloSimulation.calculatePrice_given this (real_paths rpaths) = Ok plain
    /\ (price knock_out + price knock_in)%num = price plain.
Proof.
  intros Hne Hall Hb HK Hr HT Hup Hout Hin.
  destruct (barrier_price_real (<["barrierType" := VStr out_type]> this)
              out_type rpaths b k r T) as (ko & Hko & Pko);
    rewrite ?numprop_insert_ne, ?prop_insert_eq by done; try done.
  destruct (barrier_price_real (<["barrierType" := VStr in_type]> this)
              in_type rpaths b k r T) as (ki & Hki & Pki);
    rewrite ?numprop_insert_ne, ?prop_insert_eq by done; try done.
  destruct (vanilla_price_real this rpaths k r T) as (pl & Hpl & Ppl); try done.
  exists ko, ki, pl. repeat split; try done.
  rewrite Pko, Pki, Ppl, !prop_insert_ne, Hout, Hin, Hup by done.
  cbn [Num.add]. f_equal.
  rewrite <- Rmult_plus_distr_r. f_equal.
  unfold mean_R. rewrite !length_map, <- Rdiv_plus_distr. f_equal.
  apply sum_R_map_add. intros path. unfold knock_R.
  destruct (breach_R _ b path); lra.
Qed.

Lemma barrier_in_out_parity_witness :
  let rpaths := [[100; 130]; [100; 110]] in
  exists knock_out knock_in plain,
    BarrierOption.calculatePrice_given
      (<["barrierType" := VStr "up-and-out"]> sample_barrier) (real_paths rpaths)
    = Ok knock_out
    /\ BarrierOption.calculatePrice_given
         (<["barrierType" := VStr "up-and-in"]> sample_barrier) (real_paths rpaths)
       = Ok knock_in
    /\ MonteCarloSimulation.calculatePrice_given sample_barrier (real_paths rpaths)
       = Ok plain
    /\ (price knock_out + price knock_in)%num = price plain.
Proof.
  intros rpaths.
  apply (barrier_in_out_parity sample_barrier "up-and-out" "up-and-in" rpaths
           120 100 0.05 1); try reflexivity; try discriminate.
  repeat constructor; discriminate.
Defined.

Lemma breach_R_lower_barrier (b1 b2 : R) (path : list R) :
  b1 <= b2 -> breach_R true b2 path = true -> breach_R true b1 path = true.
Proof.
  intros Hb. unfold breach_R. rewrite !existsb_exists.
  intros (x & Hin & Hx). exists x. split; [done|].
  apply NumFacts.Rleb_spec in Hx. apply NumFacts.Rleb_true. lra.
Qed.

Lemma breach_R_higher_barrier (b1 b2 : R) (path : list R) :
  b1 <= b2 -> breach_R false b1 path = true -> breach_R false b2 path = true.
Proof.
  intros Hb. unfold breach_R. rewrite !existsb_exists.
  intros (x & Hin & Hx). exists x. split; [done|].
  apply NumFacts.Rleb_spec in Hx. apply NumFacts.Rleb_true. lra.
Qed.

(** X2. Monotonicity in the barrier. On the same non-empty set of paths of
    reals, for a knock-out type, real strike, rate, maturity and two real
    barriers [b1 <= b2]: the price of an up-and-out option with barrier
    [b1] is at most its price with barrier [b2], and for a down type the
    order is reversed. *)
Theorem barrier_knock_out_monotone (this : obj) (bt : string)
    (rpaths : list (list R)) (b1 b2 k r T : R) :
  rpaths <> [] ->
  Forall (fun path => path <> []) rpaths ->
  Js.prop this "barrierType" = VStr bt ->
  numprop this "K" = Real k ->
  numprop this "r" = Real r ->
  numprop this "T" = Real T ->
  Js.ends_with bt "out" = true ->
  b1 <= b2 ->
  exists res1 res2 p1 p2,
    BarrierOption.calculatePrice_given
      (<["barrier" := VNum (Real b1)]> this) (real_paths rpaths) = Ok res1
    /\ BarrierOption.calculatePrice_given
         (<["barrier" := VNum (Real b2)]> this) (real_paths rpaths) = Ok res2
    /\ price res1 = Real p1
    /\ price res2 = Real p2
    /\ (if String.prefix "up" bt then p1 <= p2 else p2 <= p1).
Proof.
  intros Hne Hall Hbt HK Hr HT Hout Hb.
  destruct (barrier_price_real (<["barrier" := VNum (Real b1)]> this)
              bt rpaths b1 k r T) as (res1 & H1 & P1);
    rewrite ?numprop_insert_eq, ?numprop_insert_ne, ?prop_insert_ne by done;
    try done.
  destruct (barrier_price_real (<["barrier" := VNum (Real b2)]> this)
              bt rpaths b2 k r T) as (res2 & H2 & P2);
    rewrite ?numprop_insert_eq, ?numprop_insert_ne, ?prop_insert_ne by done;
    try done.
  rewrite !prop_insert_ne, Hout in P1, P2 by done.
  eexists res1, res2, _, _. repeat split; try done.
  pose proof (exp_pos (- r * T)) as Hd.
  set (call := Js.is_string (Js.prop this "type") "call") in *.
  destruct (String.prefix "up" bt).
  - apply Rmult_le_compat_r; [lra|]. apply mean_R_map_le; [done|].
    intros path _. unfold knock_R.
    pose proof (vanilla_R_nonneg call k (terminal path)).
    pose proof (breach_R_lower_barrier b1 b2 path Hb) as Himp.
    destruct (breach_R true b1 path), (breach_R true b2 path);
      try lra; by specialize (Himp eq_refl).
  - apply Rmult_le_compat_r; [lra|]. apply mean_R_map_le; [done|].
    intros path _. unfold knock_R.
    pose proof (vanilla_R_nonneg call k (terminal path)).
    pose proof (breach_R_higher_barrier b1 b2 path Hb) as Himp.
    destruct (breach_R false b1 path), (breach_R false b2 path);
      try lra; by specialize (Himp eq_refl).
Qed.

Lemma barrier_knock_out_monotone_witness :
  let rpaths := [[100; 115]; [100; 125]] in
  exists res1 res2 p1 p2,
    BarrierOption.calculatePrice_given
      (<["barrier" := VNum (Real 110)]> sample_barrier) (real_paths rpaths) = Ok res1
    /\ BarrierOption.calculatePrice_given
         (<["barrier" := VNum (Real 120)]> sample_barrier) (real_paths rpaths)
       = Ok res2
    /\ price res1 = Real p1
    /\ price res2 = Real p2
    /\ p1 <= p2.
Proof.
  intros rpaths.
  apply (barrier_knock_out_monotone sample_barrier "up-and-out" rpaths
           110 120 100 0.05 1); try reflexivity; try discriminate; try lra.
  repeat constructor; discriminate.
Defined.

(** X3. A barrier out of reach. On a non-empty set of paths of reals every
    price of which is strictly below the real barrier, the up-and-out
    option (a type starting with 'up' and ending with 'out') is priced as
    the vanilla option on the same paths. *)
Theorem barrier_out_of_reach (this : obj) (bt : string)
    (rpaths : list (list R)) (b k r T : R) :
  rpaths <> [] ->
  Forall (fun path => path <> []) rpaths ->
  Forall (Forall (fun x => x < b)) rpaths ->
  Js.prop this "barrierType" = VStr bt ->
  numprop this "barrier" = Real b ->
  numprop this "K" = Real k ->
  numprop this "r" = Real r ->
  numprop this "T" = Real T ->
  String.prefix "up" bt = true ->
  Js.ends_with bt "out" = true ->
  exists res plain,
    BarrierOption.calculatePrice_given this (real_paths rpaths) = Ok res
    /\ MonteCarloSimulation.calculatePrice_given this (real_paths rpaths) = Ok plain
    /\ price res = price plain.
Proof.
  intros Hne Hall Hbelow Hbt Hb HK Hr HT Hup Hout.
  destruct (barrier_price_real this bt rpaths b k r T) as (res & Hres & P);
    try done.
  destruct (vanilla_price_real this rpaths k r T) as (pl & Hpl & Ppl); try done.
  exists res, pl. repeat split; try done.
  rewrite P, Ppl, Hup, Hout. do 3 f_equal.
  apply map_ext_in. intros path Hin. unfold knock_R.
  assert (Hno : breach_R true b path = false).
  { apply not_true_is_false. unfold breach_R. rewrite existsb_exists.
    intros (x & Hx & Hle). apply NumFacts.Rleb_spec in Hle.
    pose proof (proj1 (List.Forall_forall _ _) Hbelow path Hin) as Hpath.
    pose proof (proj1 (List.Forall_forall _ _) Hpath x Hx). lra. }
  by rewrite Hno.
Qed.

Lemma barrier_out_of_reach_witness :
  let rpaths := [[100; 115]; [100; 95]] in
  exists res plain,
    BarrierOption.calculatePrice_given sample_barrier (real_paths rpaths) = Ok res
    /\ MonteCarloSimulation.calculatePrice_given sample_barrier (real_paths rpaths)
       = Ok plain
    /\ price res = price plain.
Proof.
  intros rpaths.
  apply (barrier_out_of_reach sample_barrier "up-and-out" rpaths 120 100 0.05 1);
    try reflexivity; try discriminate.
  - repeat constructor; discriminate.
  - repeat constructor; lra.
Defined.

(** ** Lookback options against the vanilla option *)

Lemma foldl_max_reals (l : list R) (a : R) :
  foldl Num.max (Real a) (map Real l) = Real (foldl Rmax a l).
Proof.
  revert a. induction l as [|x l IH]; intros a; [done|].
  cbn [map foldl]. by rewrite max_real_eq, IH.
Qed.

Lemma foldl_min_reals (l : list R) (a : R) :
  foldl Num.min (Real a) (map Real l) = Real (foldl Rmin a l).
Proof.
  revert a. induction l as [|x l IH]; intros a; [done|].
  cbn [map foldl]. by rewrite min_real_eq, IH.
Qed.

Lemma max_list_reals (path : list R) :
  path <> [] -> Num.max_list (map Real path) = Real (highest path).
Proof.
  destruct path as [|x path]; [done|]. intros _.
  unfold Num.max_list, highest. cbn [map foldl].
  change (Num.max NegInf (Real x)) with (Real x). apply foldl_max_reals.
Qed.

Lemma min_list_reals (path : list R) :
  path <> [] -> Num.min_list (map Real path) = Real (lowest path).
Proof.
  destruct path as [|x path]; [done|]. intros _.
  unfold Num.min_list, lowest. cbn [map foldl].
  change (Num.min PosInf (Real x)) with (Real x). apply foldl_min_reals.
Qed.

Lemma foldl_Rmax_ge (l : list R) (a : R) :
  a <= foldl Rmax a l /\ forall x, In x l -> x <= foldl Rmax a l.
Proof.
  revert a. induction l as [|y l IH]; intros a; cbn [foldl].
  - split; [lra | by intros x []].
  - destruct (IH (Rmax a y)) as [H1 H2].
    pose proof (Rmax_l a y). pose proof (Rmax_r a y).
    split; [lra|]. intros x [<-|Hin]; [lra | by apply H2].
Qed.

Lemma foldl_Rmin_le (l : list R) (a : R) :
  foldl Rmin a l <= a /\ forall x, In x l -> foldl Rmin a l <= x.
Proof.
  revert a. induction l as [|y l IH]; intros a; cbn [foldl].
  - split; [lra | by intros x []].
  - destruct (IH (Rmin a y)) as [H1 H2].
    pose proof (Rmin_l a y). pose proof (Rmin_r a y).
    split; [lra|]. intros x [<-|Hin]; [lra | by apply H2].
Qed.

Lemma highest_ge (path : list R) (x : R) : In x path -> x <= highest path.
Proof.
  destruct path as [|y path]; [by intros []|]. unfold highest.
  destruct (foldl_Rmax_ge path y) as [H1 H2].
  intros [<-|Hin]; [done | by apply H2].
Qed.

Lemma lowest_le (path : list R) (x : R) : In x path -> lowest path <= x.
Proof.
  destruct path as [|y path]; [by intros []|]. unfold lowest.
  destruct (foldl_Rmin_le path y) as [H1 H2].
  intros [<-|Hin]; [done | by apply H2].
Qed.

Lemma terminal_In (path : list R) : path <> [] -> In (terminal path) path.
Proof.
  intros Hne. unfold terminal.
  induction path as [|x path IH]; [done|].
  destruct path as [|y path]; [by left|]. right. by apply IH.
Qed.

Lemma lookback_payoff_reals (this : obj) (k : R) (path : list R) :
  numprop this "K" = Real k -> path <> [] ->
  LookbackOption.payoff this (map Real path)
  = Real (lookback_R (Js.is_string (Js.prop this "lookbackType") "fixed")
            (Js.is_string (Js.prop this "type") "call") k path).
Proof.
  intros HK Hne. unfold LookbackOption.payoff, lookback_R.
  rewrite HK, max_list_reals, min_list_reals, last_of_reals by done.
  destruct (Js.is_string _ "fixed"), (Js.is_string _ "call"); apply max_real_eq.
Qed.

Lemma lookback_price_real (this : obj) (rpaths : list (list R)) (k r T : R) :
  rpaths <> [] ->
  Forall (fun path => path <> []) rpaths ->
  numprop this "K" = Real k ->
  numprop this "r" = Real r -> numprop this "T" = Real T ->
  exists res,
    LookbackOption.calculatePrice_given this (real_paths rpaths) = Ok res
    /\ price res
       = Real (mean_R (map (lookback_R
                              (Js.is_string (Js.prop this "lookbackType") "fixed")
                              (Js.is_string (Js.prop this "type") "call") k)
                         rpaths)
               * exp (- r * T)).
Proof.
  intros Hne Hall HK Hr HT.
  unfold LookbackOption.calculatePrice_given, real_paths.
  set (f := lookback_R _ _ k).
  assert (Hpay : map (LookbackOption.payoff this) (map (map Real) rpaths)
                 = map Real (map f rpaths)).
  { rewrite !map_map. apply map_ext_in. intros path Hin.
    apply lookback_payoff_reals; [done|].
    by eapply (proj1 (List.Forall_forall _ _) Hall). }
  rewrite Hpay.
  destruct (present_value_price this (map (map Real) rpaths) (map f rpaths) r T)
    as (res & Hres & Hprice & _); try done.
  { by destruct rpaths. }
  by exists res.
Qed.

Lemma mean_R_nonneg {A} (f : A -> R) (l : list A) :
  (forall x, 0 <= f x) -> 0 <= mean_R (map f l).
Proof.
  intros H. unfold mean_R. rewrite length_map.
  assert (0 <= sum_R (map f l)).
  { induction l as [|x l IH]; simpl; [lra|]. pose proof (H x). lra. }
  destruct l as [|x l].
  - simpl. rewrite Rdiv_0_l. lra.
  - apply Rmult_le_pos; [done|]. apply Rlt_le, Rinv_0_lt_compat, lt_0_INR.
    simpl. lia.
Qed.

(** X4. Lookback ordering. On the same non-empty set of paths of reals,
    with real strike, rate and maturity, the price of a fixed-strike
    lookback option is at least the price the vanilla evaluator returns
    for the same option type, which is itself non-negative. *)
Theorem lookback_fixed_dominates_vanilla (this : obj)
    (rpaths : list (list R)) (k r T : R) :
  rpaths <> [] ->
  Forall (fun path => path <> []) rpaths ->
  Js.is_string (Js.prop this "lookbackType") "fixed" = true ->
  numprop this "K" = Real k ->
  numprop this "r" = Real r ->
  numprop this "T" = Real T ->
  exists lookback plain pl pv,
    LookbackOption.calculatePrice_given this (real_paths rpaths) = Ok lookback
    /\ MonteCarloSimulation.calculatePrice_given this (real_paths rpaths) = Ok plain
    /\ price lookback = Real pl
    /\ price plain = Real pv
    /\ 0 <= pv <= pl.
Proof.
  intros Hne Hall Hfixed HK Hr HT.
  destruct (lookback_price_real this rpaths k r T) as (lb & Hlb & Plb); try done.
  destruct (vanilla_price_real this rpaths k r T) as (pl & Hpl & Ppl); try done.
  rewrite Hfixed in Plb.
  eexists lb, pl, _, _. repeat split; try done.
  - apply Rmult_le_pos; [|apply Rlt_le, exp_pos].
    apply mean_R_nonneg. intros path. apply vanilla_R_nonneg.
  - apply Rmult_le_compat_r; [apply Rlt_le, exp_pos|].
    apply mean_R_map_le; [done|]. intros path Hin.
    assert (Hpath : path <> []) by by eapply (proj1 (List.Forall_forall _ _) Hall).
    pose proof (highest_ge path _ (terminal_In path Hpath)).
    pose proof (lowest_le path _ (terminal_In path Hpath)).
    unfold lookback_R, vanilla_R.
    destruct (Js.is_string (Js.prop this "type") "call");
      apply Rle_max_compat_r; lra.
Qed.

Lemma lookback_fixed_dominates_vanilla_witness :
  let this := LookbackOption.constructor (to_params sample_parameters) in
  let rpaths := [[100; 120; 105]; [100; 90; 95]] in
  exists lookback plain pl pv,
    LookbackOption.calculatePrice_given this (real_paths rpaths) = Ok lookback
    /\ MonteCarloSimulation.calculatePrice_given this (real_paths rpaths) = Ok plain
    /\ price lookback = Real pl
    /\ price plain = Real pv
    /\ 0 <= pv <= pl.
Proof.
  intros this rpaths.
  apply (lookback_fixed_dominates_vanilla this rpaths 100 0.05 1);
    try reflexivity; try discriminate.
  repeat constructor; discriminate.
Defined.

(** ** Put-call parity on a path set *)

Lemma vanilla_R_parity (k x : R) : vanilla_R true k x - vanilla_R false k x = x - k.
Proof.
  unfold vanilla_R, Rmax.
  destruct (Rle_dec (x - k) 0), (Rle_dec (k - x) 0); lra.
Qed.

Lemma mean_R_parity {A} (g : A -> R) (k : R) (l : list A) :
  l <> [] ->
  mean_R (map (fun p => vanilla_R true k (g p)) l)
  - mean_R (map (fun p => vanilla_R false k (g p)) l)
  = mean_R (map g l) - k.
Proof.
  intros Hne. unfold mean_R. rewrite !length_map.
  assert (Hn : INR (length l) <> 0) by by apply length_positive_INR.
  assert (Hsum : sum_R (map (fun p => vanilla_R true k (g p)) l)
                 - sum_R (map (fun p => vanilla_R false k (g p)) l)
                 = sum_R (map g l) - INR (length l) * k).
  { clear Hne Hn. induction l as [|x l IH]; [simpl; lra|].
    cbn [map sum_R foldr length]. rewrite S_INR.
    pose proof (vanilla_R_parity k (g x)).
    unfold sum_R in IH. lra. }
  field_simplify_eq; [|done]. lra.
Qed.

Lemma is_string_type_insert (this : obj) (s lit : string) :
  Js.is_string (Js.prop (<["type" := VStr s]> this) "type") lit = String.eqb s lit.
Proof. by rewrite prop_insert_eq. Qed.

(** X5. Put-call parity of the vanilla evaluator. On a non-empty set of
    paths of reals, with real strike, rate and maturity, the call price
    minus the put price computed from the same paths is the discounted
    difference between the mean terminal price and the strike. *)
Theorem vanilla_put_call_parity (this : obj) (rpaths : list (list R))
    (k r T : R) :
  rpaths <> [] ->
  Forall (fun path => path <> []) rpaths ->
  numprop this "K" = Real k ->
  numprop this "r" = Real r ->
  numprop this "T" = Real T ->
  exists call put,
    MonteCarloSimulation.calculatePrice_given
      (<["type" := VStr "call"]> this) (real_paths rpaths) = Ok call
    /\ MonteCarloSimulation.calculatePrice_given
         (<["type" := VStr "put"]> this) (real_paths rpaths) = Ok put
    /\ (price call - price put)%num
       = Real ((mean_R (map terminal rpaths) - k) * exp (- r * T)).
Proof.
  intros Hne Hall HK Hr HT.
  destruct (vanilla_price_real (<["type" := VStr "call"]> this) rpaths k r T)
    as (c & Hc & Pc); rewrite ?numprop_insert_ne by done; try done.
  destruct (vanilla_price_real (<["type" := VStr "put"]> this) rpaths k r T)
    as (p & Hp & Pp); rewrite ?numprop_insert_ne by done; try done.
  exists c, p. repeat split; try done.
  rewrite Pc, Pp, !is_string_type_insert.
  change (String.eqb "call" "call") with true.
  change (String.eqb "put" "call") with false.
  cbn [Num.sub Num.add Num.neg]. f_equal.
  rewrite <- (mean_R_parity terminal k rpaths Hne). lra.
Qed.

Lemma vanilla_put_call_parity_witness :
  let rpaths := [[100; 120]; [100; 90]] in
  exists call put,
    MonteCarloSimulation.calculatePrice_given
      (<["type" := VStr "call"]> (own sample_instance)) (real_paths rpaths) = Ok call
    /\ MonteCarloSimulation.calculatePrice_given
         (<["type" := VStr "put"]> (own sample_instance)) (real_paths rpaths) = Ok put
    /\ (price call - price put)%num
       = Real ((mean_R (map terminal rpaths) - 100) * exp (- (0.05) * 1)).
Proof.
  intros rpaths.
  apply (vanilla_put_call_parity (own sample_instance) rpaths 100 0.05 1);
    try reflexivity; try discriminate.
  repeat constructor; discriminate.
Defined.

Lemma asian_arithmetic_payoff_reals (this : obj) (k : R) (path : list R) :
  Js.is_string (Js.prop this "averageType") "arithmetic" = true ->
  numprop this "K" = Real k -> path <> [] ->
  AsianOption.payoff this (map Real path)
  = Ok (Real (vanilla_R (Js.is_string (Js.prop this "type") "call") k
                (mean_R path))).
Proof.
  intros Havg HK Hne. unfold AsianOption.payoff, AsianOption.average.
  rewrite Havg, reduce1_add_real by done. cbn [obind].
  rewrite mean_of_reals, HK by done. unfold vanilla_R.
  destruct (Js.is_string _ "call"); f_equal; apply max_real_eq.
Qed.

Lemma asian_arithmetic_price_real (this : obj) (rpaths : list (list R))
    (k r T : R) :
  rpaths <> [] ->
  Forall (fun path => path <> []) rpaths ->
  Js.is_string (Js.prop this "averageType") "arithmetic" = true ->
  numprop this "K" = Real k ->
  numprop this "r" = Real r -> numprop this "T" = Real T ->
  exists res,
    AsianOption.calculatePrice_given this (real_paths rpaths) = Ok res
    /\ price res
       = Real (mean_R (map (fun path =>
                 vanilla_R (Js.is_string (Js.prop this "type") "call") k
                   (mean_R path)) rpaths)
               * exp (- r * T)).
Proof.
  intros Hne Hall Havg HK Hr HT.
  unfold AsianOption.calculatePrice_given, real_paths.
  set (f := fun path => vanilla_R _ k (mean_R path)).
  assert (Hpay : map_outcome (AsianOption.payoff this) (map (map Real) rpaths)
                 = Ok (map Real (map f rpaths))).
  { clear Hne. induction Hall as [|path rest Hpath _ IH]; [done|].
    cbn [map map_outcome].
    rewrite (asian_arithmetic_payoff_reals this k path), IH by done.
    reflexivity. }
  rewrite Hpay. cbn [obind].
  destruct (present_value_price this (map (map Real) rpaths) (map f rpaths) r T)
    as (res & Hres & Hprice & _); try done.
  { by destruct rpaths. }
  by exists res.
Qed.

(** X6. Put-call parity of the arithmetic Asian evaluator. On a non-empty
    set of paths of reals, with real strike, rate and maturity, the Asian
    call price minus the Asian put price computed from the same paths is
    the discounted difference between the mean of the path averages (over
    all the prices of a path, the initial one included) and the strike. *)
Theorem asian_put_call_parity (this : obj) (rpaths : list (list R))
    (k r T : R) :
  rpaths <> [] ->
  Forall (fun path => path <> []) rpaths ->
  Js.is_string (Js.prop this "averageType") "arithmetic" = true ->
  numprop this "K" = Real k ->
  numprop this "r" = Real r ->
  numprop this "T" = Real T ->
  exists call put,
    AsianOption.calculatePrice_given
      (<["type" := VStr "call"]> this) (real_paths rpaths) = Ok call
    /\ AsianOption.calculatePrice_given
         (<["type" := VStr "put"]> this) (real_paths rpaths) = Ok put
    /\ (price call - price put)%num
       = Real ((mean_R (map mean_R rpaths) - k) * exp (- r * T)).
Proof.
  intros Hne Hall Havg HK Hr HT.
  destruct (asian_arithmetic_price_real (<["type" := VStr "call"]> this)
              rpaths k r T) as (c & Hc & Pc);
    rewrite ?numprop_insert_ne, ?prop_insert_ne by done; try done.
  destruct (asian_arithmetic_price_real (<["type" := VStr "put"]> this)
              rpaths k r T) as (p & Hp & Pp);
    rewrite ?numprop_insert_ne, ?prop_insert_ne by done; try done.
  exists c, p. repeat split; try done.
  rewrite Pc, Pp, !is_string_type_insert.
  change (String.eqb "call" "call") with true.
  change (String.eqb "put" "call") with false.
  cbn [Num.sub Num.add Num.neg]. f_equal.
  rewrite <- (mean_R_parity mean_R k rpaths Hne). lra.
Qed.

Lemma asian_put_call_parity_witness :
  let this := AsianOption.constructor (to_params sample_parameters) in
  let rpaths := [[100; 120]; [100; 90]] in
  exists call put,
    AsianOption.calculatePrice_given
      (<["type" := VStr "call"]> this) (real_paths rpaths) = Ok call
    /\ AsianOption.calculatePrice_given
         (<["type" := VStr "put"]> this) (real_paths rpaths) = Ok put
    /\ (price call - price put)%num
       = Real ((mean_R (map mean_R rpaths) - 100) * exp (- (0.05) * 1)).
Proof.
  intros this rpaths.
  apply (asian_put_call_parity this rpaths 100 0.05 1);
    try reflexivity; try discriminate.
  repeat constructor; discriminate.
Defined.

(** ** The confidence interval *)

Lemma foldl_squares_real (m : R) (l : list R) (a : R) :
  foldl (fun a b => a + Num.sqr (b - Real m))%num (Real a) (map Real l)
  = Real (a + sum_R (map (fun x => (x - m) * (x - m)) l)).
Proof.
  revert a. induction l as [|x l IH]; intros a; cbn [map foldl].
  - simpl. f_equal. lra.
  - cbn [Num.sub Num.neg Num.add Num.sqr]. rewrite IH. f_equal.
    cbn [map sum_R foldr]. unfold sum_R. lra.
Qed.

Lemma sum_squares_nonneg (m : R) (l : list R) :
  0 <= sum_R (map (fun x => (x - m) * (x - m)) l).
Proof.
  induction l as [|x l IH]; [simpl; lra|].
  cbn [map]. unfold sum_R in *. cbn [foldr].
  pose proof (Rle_0_sqr (x - m)) as H. unfold Rsqr in H. lra.
Qed.

(** X7. On a sample of at least two reals, [calculateConfidenceInterval]
    returns real bounds that bracket the sample mean and lie at the same
    distance on either side of it. *)
Theorem confidence_interval_brackets_mean (l : list R) :
  (2 <= length l)%nat ->
  exists ci lo hi,
    MonteCarloSimulation.calculateConfidenceInterval (map Real l) = Ok ci
    /\ mean ci = Real (mean_R l)
    /\ lower ci = Real lo
    /\ upper ci = Real hi
    /\ lo <= mean_R l <= hi
    /\ mean_R l - lo = hi - mean_R l.
Proof.
  intros Hlen.
  assert (Hne : l <> []) by (destruct l; [simpl in Hlen; lia | done]).
  unfold MonteCarloSimulation.calculateConfidenceInterval.
  rewrite reduce1_add_real by done. cbn [obind].
  rewrite mean_of_reals, foldl_squares_real by done.
  set (ss := 0 + sum_R (map (fun x => (x - mean_R l) * (x - mean_R l)) l)).
  assert (Hss : 0 <= ss).
  { unfold ss. pose proof (sum_squares_nonneg (mean_R l) l). lra. }
  assert (Hn : 2 <= INR (length l)).
  { change 2 with (INR 2). apply le_INR. lia. }
  unfold Js.length_of, Num.of_nat. rewrite length_map.
  cbn [Num.sub Num.neg Num.add].
  rewrite (div_real ss) by lra.
  rewrite (div_real (ss / _)) by lra.
  assert (Hvar : 0 <= ss / (INR (length l) + - (1)) / INR (length l)).
  { apply Rmult_le_pos; [apply Rmult_le_pos; [done|]|];
      apply Rlt_le, Rinv_0_lt_compat; lra. }
  rewrite sqrt_real by done.
  pose proof (sqrt_pos (ss / (INR (length l) + - (1)) / INR (length l))) as Hsqrt.
  eexists _, _, _. split; [reflexivity|]. cbn [mean lower upper Num.mul Num.add].
  repeat split; lra.
Qed.

Lemma confidence_interval_brackets_mean_witness :
  exists ci lo hi,
    MonteCarloSimulation.calculateConfidenceInterval [Real 1; Real 3] = Ok ci
    /\ mean ci = Real (mean_R [1; 3])
    /\ lower ci = Real lo
    /\ upper ci = Real hi
    /\ lo <= mean_R [1; 3] <= hi
    /\ mean_R [1; 3] - lo = hi - mean_R [1; 3].
Proof.
  apply (confidence_interval_brackets_mean [1; 3]). simpl. lia.
Defined.

(** X8. The degenerate samples of [calculateConfidenceInterval]: the empty
    sample is a TypeError, and a sample of one real [p] has mean [p] and
    NaN for both bounds (its variance is 0/0). *)
Theorem confidence_interval_degenerate :
  MonteCarloSimulation.calculateConfidenceInterval [] = Throw TypeError
  /\ forall p : R,
       MonteCarloSimulation.calculateConfidenceInterval [Real p]
       = Ok {| mean := Real p; lower := NaN; upper := NaN |}.
Proof.
  split; [reflexivity|]. intros p.
  unfold MonteCarloSimulation.calculateConfidenceInterval.
  cbn [Js.reduce1 foldl obind].
  assert (Hmean : (Real p / Js.length_of [Real p])%num = Real p).
  { unfold Js.length_of, Num.of_nat. rewrite div_real by (simpl; lra).
    apply real_eq. simpl. field. }
  rewrite Hmean.
  assert (Hvar : ((Real 0 + Num.sqr (Real p - Real p))
                  / (Js.length_of [Real p] - Real 1))%num = NaN).
  { unfold Js.length_of, Num.of_nat. simpl.
    rewrite NumFacts.Reqb_true by lra.
    unfold Num.signed_inf. by rewrite !NumFacts.Rltb_false by lra. }
  rewrite Hvar. reflexivity.
Qed.

(** ** The normal distribution function and its inverse *)

(** X9. Reflection. For every real [x] other than zero the two values
    [normalCDF(x)] and [normalCDF(-x)] are reals that add up to one. *)
Theorem normalCDF_reflection (x : R) :
  x <> 0 ->
  exists a b,
    SpecialFunctions.normalCDF (Real x) = Real a
    /\ SpecialFunctions.normalCDF (Real (- x)) = Real b
    /\ a + b = 1.
Proof.
  intros Hx. unfold SpecialFunctions.normalCDF. cbv zeta.
  cbn [Num.abs Num.mul Num.add Num.neg].
  rewrite Rabs_Ropp.
  pose proof (Rabs_pos x) as Habs.
  rewrite !(div_real 1) by lra.
  rewrite !div_real by lra.
  cbn [Num.exp Num.mul Num.add Num.gtb Num.ltb].
  replace (- - x * - x / 2) with (- x * x / 2) by lra.
  set (t := 1 / (1 + 0.2316419 * Rabs x)).
  set (p := 0.3989423 * exp (- x * x / 2) * t
            * (0.3193815
               + t * (-0.3565638
                      + t * (1.781478 + t * (-1.821256 + t * 1.330274))))).
  destruct (Rlt_dec 0 x) as [Hpos|Hneg].
  - rewrite (NumFacts.Rltb_true 0 x), (NumFacts.Rltb_false 0 (- x)) by lra.
    eexists _, _. split; [reflexivity|]. split; [reflexivity|]. lra.
  - rewrite (NumFacts.Rltb_false 0 x), (NumFacts.Rltb_true 0 (- x)) by lra.
    eexists _, _. split; [reflexivity|]. split; [reflexivity|]. lra.
Qed.

Lemma normalCDF_reflection_witness :
  exists a b,
    SpecialFunctions.normalCDF (Real 1) = Real a
    /\ SpecialFunctions.normalCDF (Real (- (1))) = Real b
    /\ a + b = 1.
Proof. apply (normalCDF_reflection 1). lra. Defined.

Lemma div_neg_real (n d : R) :
  (Real (- n) / Real d)%num = Num.neg (Real n / Real d)%num.
Proof.
  cbn [Num.div]. unfold Num.Reqb. destruct (Req_dec_T d 0) as [->|Hd].
  - unfold Num.signed_inf, Num.Rltb.
    destruct (Rlt_dec 0 (- n)), (Rlt_dec (- n) 0), (Rlt_dec 0 n), (Rlt_dec n 0);
      try reflexivity; lra.
  - cbn [Num.neg]. apply real_eq. by field.
Qed.

Lemma ln_negative (p : R) : 0 < p -> p < 1 -> ln p < 0.
Proof. intros H0 H1. rewrite <- ln_1. by apply ln_increasing. Qed.

(** The lower tail against the upper tail. *)
Lemma normalInverse_tails (p : R) :
  0 < p -> p < 0.02425 ->
  MonteCarloSimulation.normalInverse (Real (1 - p))
  = Num.neg (MonteCarloSimulation.normalInverse (Real p)).
Proof.
  intros H0 H1.
  unfold MonteCarloSimulation.normalInverse. cbv zeta.
  cbn [Num.sub Num.neg Num.add Num.ltb Num.leb].
  rewrite (NumFacts.Rltb_true p), (NumFacts.Rltb_false (1 - p)),
    (NumFacts.Rleb_false (1 - p)) by lra.
  cbn [Num.log].
  replace (1 + - (1 - p)) with p by lra.
  rewrite (NumFacts.Rltb_false p 0), (NumFacts.Reqb_false p 0) by lra.
  cbn [Num.mul].
  pose proof (ln_negative p H0) as Hln.
  rewrite sqrt_real by lra.
  cbn [Num.mul Num.add Num.neg].
  apply div_neg_real.
Qed.

Lemma normalInverse_centre (p : R) :
  0.02425 <= p -> p <= 1 - 0.02425 ->
  MonteCarloSimulation.normalInverse (Real (1 - p))
  = Num.neg (MonteCarloSimulation.normalInverse (Real p)).
Proof.
  intros H0 H1.
  unfold MonteCarloSimulation.normalInverse. cbv zeta.
  cbn [Num.sub Num.neg Num.add Num.ltb Num.leb].
  rewrite (NumFacts.Rltb_false p), (NumFacts.Rltb_false (1 - p)),
    (NumFacts.Rleb_true (1 - p)), (NumFacts.Rleb_true p) by lra.
  cbn [Num.mul Num.add].
  assert (Hq : 1 - p + - (0.5) = - (p + - (0.5))) by lra.
  rewrite Hq, Rmult_opp_opp, <- Ropp_mult_distr_r.
  apply div_neg_real.
Qed.

(** X10. Antisymmetry of the inverse normal. For every real [p] strictly
    between 0 and 1, [normalInverse(1 - p)] is the negation of
    [normalInverse(p)]: the two tails mirror each other, and so do the two
    halves of the central region. *)
Theorem normalInverse_antisymmetric (p : R) :
  0 < p -> p < 1 ->
  MonteCarloSimulation.normalInverse (Real (1 - p))
  = Num.neg (MonteCarloSimulation.normalInverse (Real p)).
Proof.
  intros H0 H1.
  destruct (Rlt_dec p 0.02425) as [Hlow|Hlow].
  - by apply normalInverse_tails.
  - destruct (Rle_dec p (1 - 0.02425)) as [Hhigh|Hhigh].
    + apply normalInverse_centre; lra.
    + pose proof (normalInverse_tails (1 - p)) as H.
      replace (1 - (1 - p)) with p in H by lra.
      rewrite H by lra.
      by destruct (MonteCarloSimulation.normalInverse (Real (1 - p)));
        cbn [Num.neg]; rewrite ?Ropp_involutive.
Qed.

Lemma normalInverse_antisymmetric_witness :
  MonteCarloSimulation.normalInverse (Real (1 - 0.3))
  = Num.neg (MonteCarloSimulation.normalInverse (Real 0.3)).
Proof. apply (normalInverse_antisymmetric 0.3); lra. Defined.

(** * Further properties: the correlation utilities *)

(** ** Matrices as arrays of rows *)

Lemma shape_lookup (r c : nat) (L : list (list num)) (i : nat) :
  shape r c L -> (i < r)%nat ->
  exists row, L !! i = Some row /\ length row = c.
Proof.
  intros [Hlen Hrows] Hi.
  destruct (lookup_lt_is_Some_2 L i) as [row Hrow]; [lia|].
  exists row. split; [done|].
  by apply (proj1 (Forall_lookup _ _) Hrows i).
Qed.

Lemma set_entry_in_range (r c : nat) (L : list (list num)) (i j : nat) (v : num) :
  shape r c L -> (i < r)%nat -> (j < c)%nat ->
  exists row, L !! i = Some row /\ length row = c
              /\ Matrix.set_entry L i j v = <[i := <[j := v]> row]> L.
Proof.
  intros HL Hi Hj. destruct (shape_lookup r c L i HL Hi) as (row & Hrow & Hlen).
  exists row. split; [done|]. split; [done|].
  unfold Matrix.set_entry, Js.set_index. rewrite Hrow. cbn [from_option]; unfold Datatypes.id.
  destruct HL as [HlenL _].
  replace (j <? length row)%nat with true by (symmetry; apply Nat.ltb_lt; lia).
  replace (i <? length L)%nat with true by (symmetry; apply Nat.ltb_lt; lia).
  reflexivity.
Qed.

Lemma shape_set_entry (r c : nat) (L : list (list num)) (i j : nat) (v : num) :
  shape r c L -> (i < r)%nat -> (j < c)%nat ->
  shape r c (Matrix.set_entry L i j v).
Proof.
  intros HL Hi Hj.
  destruct (set_entry_in_range r c L i j v HL Hi Hj) as (row & Hrow & Hlen & ->).
  destruct HL as [HlenL Hrows]. split; [by rewrite length_insert|].
  apply Forall_insert; [done|]. by rewrite length_insert.
Qed.

Lemma entry_set_entry (r c : nat) (L : list (list num)) (i j i' j' : nat)
    (v : num) :
  shape r c L -> (i < r)%nat -> (j < c)%nat ->
  Matrix.entry (Matrix.set_entry L i j v) i' j'
  = if decide (i' = i /\ j' = j) then v else Matrix.entry L i' j'.
Proof.
  intros HL Hi Hj.
  destruct (set_entry_in_range r c L i j v HL Hi Hj) as (row & Hrow & Hlen & ->).
  destruct HL as [HlenL Hrows]. unfold Matrix.entry, Js.at_index.
  destruct (decide (i' = i)) as [->|Hne].
  - rewrite list_lookup_insert_eq by lia. cbn [from_option]; unfold Datatypes.id. rewrite Hrow. cbn [from_option]; unfold Datatypes.id.
    destruct (decide (j' = j)) as [->|Hnej].
    + rewrite list_lookup_insert_eq by lia.
      by rewrite decide_True.
    + rewrite list_lookup_insert_ne by done.
      rewrite decide_False by (intros [? ?]; done). done.
  - rewrite list_lookup_insert_ne by done.
    rewrite decide_False by (intros [? ?]; done). done.
Qed.

Lemma shape_zeros (r c : nat) : shape r c (MatrixOperations.zeros r c).
Proof.
  unfold MatrixOperations.zeros. split; [apply length_replicate|].
  apply Forall_replicate, length_replicate.
Qed.

Lemma entry_zeros (r c i j : nat) :
  (i < r)%nat -> (j < c)%nat ->
  Matrix.entry (MatrixOperations.zeros r c) i j = Real 0.
Proof.
  intros Hi Hj. unfold Matrix.entry, Js.at_index, MatrixOperations.zeros.
  rewrite lookup_replicate_2 by done. cbn [from_option]; unfold Datatypes.id.
  by rewrite lookup_replicate_2.
Qed.

(** Two matrices of one shape with the same entries are the same. *)
Lemma matrix_ext (r c : nat) (A B : list (list num)) :
  shape r c A -> shape r c B ->
  (forall i j, (i < r)%nat -> (j < c)%nat ->
               Matrix.entry A i j = Matrix.entry B i j) ->
  A = B.
Proof.
  intros HA HB Hentries. apply list_eq. intros i.
  destruct (decide (i < r)%nat) as [Hi|Hi].
  - destruct (shape_lookup r c A i HA Hi) as (ra & Hra & Hla).
    destruct (shape_lookup r c B i HB Hi) as (rb & Hrb & Hlb).
    rewrite Hra, Hrb. f_equal. apply list_eq. intros j.
    destruct (decide (j < c)%nat) as [Hj|Hj].
    + specialize (Hentries i j Hi Hj).
      unfold Matrix.entry, Js.at_index in Hentries.
      rewrite Hra, Hrb in Hentries. cbn [from_option] in Hentries; unfold Datatypes.id in Hentries.
      destruct (lookup_lt_is_Some_2 ra j) as [x Hx]; [lia|].
      destruct (lookup_lt_is_Some_2 rb j) as [y Hy]; [lia|].
      rewrite Hx, Hy in *. cbn [from_option] in Hentries; unfold Datatypes.id in Hentries. by rewrite Hentries.
    + rewrite !lookup_ge_None_2 by lia. done.
  - destruct HA as [HlA _], HB as [HlB _].
    rewrite !lookup_ge_None_2 by lia. done.
Qed.

(** ** transpose *)

Lemma transpose_row_spec (matrix : list (list num)) (rows cols i : nat) :
  (i < rows)%nat ->
  forall (n j : nat) (result : list (list num)),
    shape cols rows result -> (j + n <= cols)%nat ->
    shape cols rows (MatrixOperations.transpose_row matrix i n j result)
    /\ forall j' i',
         Matrix.entry (MatrixOperations.transpose_row matrix i n j result) j' i'
         = if decide (i' = i /\ (j <= j' < j + n)%nat)
           then Matrix.entry matrix i j'
           else Matrix.entry result j' i'.
Proof.
  intros Hi. induction n as [|n IH]; intros j result Hshape Hj.
  - split; [done|]. intros j' i'. cbn [MatrixOperations.transpose_row].
    rewrite decide_False by lia. done.
  - cbn [MatrixOperations.transpose_row].
    destruct (IH (S j) (Matrix.set_entry result j i (Matrix.entry matrix i j)))
      as [Hs He]; [apply (shape_set_entry cols rows); (done || lia) | lia |].
    split; [done|]. intros j' i'. rewrite He.
    rewrite (entry_set_entry cols rows) by (done || lia).
    destruct (decide (i' = i /\ (S j <= j' < S j + n)%nat)) as [H1|H1].
    + rewrite decide_True by lia. done.
    + destruct (decide (j' = j /\ i' = i)) as [[-> ->]|H2].
      * rewrite decide_True by lia. done.
      * rewrite decide_False by lia. done.
Qed.

Lemma transpose_rows_spec (matrix : list (list num)) (rows cols : nat) :
  forall (n i : nat) (result : list (list num)),
    shape cols rows result -> (i + n <= rows)%nat ->
    shape cols rows (MatrixOperations.transpose_rows matrix cols n i result)
    /\ forall j' i', (j' < cols)%nat ->
         Matrix.entry (MatrixOperations.transpose_rows matrix cols n i result) j' i'
         = if decide (i <= i' < i + n)%nat
           then Matrix.entry matrix i' j'
           else Matrix.entry result j' i'.
Proof.
  induction n as [|n IH]; intros i result Hshape Hi.
  - split; [done|]. intros j' i' Hj'. cbn [MatrixOperations.transpose_rows].
    rewrite decide_False by lia. done.
  - cbn [MatrixOperations.transpose_rows].
    destruct (transpose_row_spec matrix rows cols i ltac:(lia) cols 0 result)
      as [Hs1 He1]; [done | lia |].
    destruct (IH (S i) (MatrixOperations.transpose_row matrix i cols 0 result))
      as [Hs He]; [done | lia |].
    split; [done|]. intros j' i' Hj'. rewrite He by done. rewrite He1.
    destruct (decide (S i <= i' < S i + n)%nat) as [H1|H1].
    + rewrite decide_True by lia. done.
    + destruct (decide (i' = i)) as [->|H2].
      * rewrite !decide_True by lia. done.
      * rewrite !decide_False by lia. done.
Qed.

(** The transpose of an [r x c] matrix, [r >= 1]: a [c x r] matrix whose
    entry [(j, i)] is the entry [(i, j)] of the argument. *)
Lemma transpose_spec (matrix : list (list num)) (rows cols : nat) :
  shape rows cols matrix -> (0 < rows)%nat ->
  exists result,
    MatrixOperations.transpose matrix = Ok result
    /\ shape cols rows result
    /\ forall i j, (i < rows)%nat -> (j < cols)%nat ->
         Matrix.entry result j i = Matrix.entry matrix i j.
Proof.
  intros Hshape Hrows. unfold MatrixOperations.transpose.
  destruct matrix as [|row0 rest] eqn:Hm.
  { destruct Hshape as [Hlen _]. simpl in Hlen. lia. }
  rewrite <- Hm in *.
  assert (Hcols : length row0 = cols).
  { destruct Hshape as [_ Hall]. rewrite Hm in Hall. by inversion Hall. }
  assert (Hlen : length matrix = rows) by apply Hshape.
  rewrite Hcols, Hlen.
  destruct (transpose_rows_spec matrix rows cols rows 0
              (MatrixOperations.zeros cols rows)) as [Hs He];
    [apply shape_zeros | lia |].
  eexists. split; [reflexivity|]. split; [done|].
  intros i j Hi Hj. rewrite He by done. rewrite decide_True by lia. done.
Qed.

(** X11. Transposing twice. For a matrix of [r >= 1] rows of [c >= 1]
    entries each, [transpose(transpose(matrix))] is the matrix itself. *)
Theorem transpose_involutive (matrix : list (list num)) (rows cols : nat) :
  shape rows cols matrix -> (0 < rows)%nat -> (0 < cols)%nat ->
  exists flipped,
    MatrixOperations.transpose matrix = Ok flipped
    /\ shape cols rows flipped
    /\ MatrixOperations.transpose flipped = Ok matrix.
Proof.
  intros Hshape Hrows Hcols.
  destruct (transpose_spec matrix rows cols Hshape Hrows) as (T1 & H1 & S1 & E1).
  destruct (transpose_spec T1 cols rows S1 Hcols) as (T2 & H2 & S2 & E2).
  exists T1. split; [done|]. split; [done|]. rewrite H2. f_equal.
  apply (matrix_ext rows cols); try done.
  intros i j Hi Hj. rewrite E2 by done. by apply E1.
Qed.

Lemma transpose_involutive_witness :
  exists flipped,
    MatrixOperations.transpose [[Real 1; Real 2; Real 3]; [Real 4; Real 5; Real 6]]
    = Ok flipped
    /\ shape 3 2 flipped
    /\ MatrixOperations.transpose flipped
       = Ok [[Real 1; Real 2; Real 3]; [Real 4; Real 5; Real 6]].
Proof.
  apply (transpose_involutive _ 2 3); try lia.
  split; [reflexivity|]. repeat constructor.
Defined.

(** ** matrixMultiply *)

Lemma multiply_cell_spec (a b : list (list num)) (m n i j : nat) :
  (i < m)%nat -> (j < n)%nat ->
  forall (t k : nat) (result : list (list num)),
    shape m n result ->
    shape m n (MatrixOperations.multiply_cell a b i j t k result)
    /\ forall i' j',
         Matrix.entry (MatrixOperations.multiply_cell a b i j t k result) i' j'
         = if decide (i' = i /\ j' = j)
           then foldl (fun acc k => acc + Matrix.entry a i k * Matrix.entry b k j)%num
                  (Matrix.entry result i j) (seq k t)
           else Matrix.entry result i' j'.
Proof.
  intros Hi Hj. induction t as [|t IH]; intros k result Hshape.
  - split; [done|]. intros i' j'. cbn [MatrixOperations.multiply_cell seq foldl].
    destruct (decide (i' = i /\ j' = j)) as [[-> ->]|]; done.
  - cbn [MatrixOperations.multiply_cell].
    set (result1 := Matrix.set_entry result i j _).
    destruct (IH (S k) result1) as [Hs He];
      [by apply (shape_set_entry m n)|].
    split; [done|]. intros i' j'. rewrite He.
    unfold result1. rewrite !(entry_set_entry m n) by done.
    destruct (decide (i' = i /\ j' = j)) as [H1|H1].
    + rewrite decide_True by done. reflexivity.
    + reflexivity.
Qed.

Lemma multiply_row_spec (a b : list (list num)) (m n p i : nat) :
  (i < m)%nat ->
  forall (t j : nat) (result : list (list num)),
    shape m n result -> (j + t <= n)%nat ->
    shape m n (MatrixOperations.multiply_row a b p i t j result)
    /\ forall i' j',
         Matrix.entry (MatrixOperations.multiply_row a b p i t j result) i' j'
         = if decide (i' = i /\ (j <= j' < j + t)%nat)
           then foldl (fun acc k => acc + Matrix.entry a i k * Matrix.entry b k j')%num
                  (Matrix.entry result i j') (seq 0 p)
           else Matrix.entry result i' j'.
Proof.
  intros Hi. induction t as [|t IH]; intros j result Hshape Hj.
  - split; [done|]. intros i' j'. cbn [MatrixOperations.multiply_row].
    rewrite decide_False by lia. done.
  - cbn [MatrixOperations.multiply_row].
    destruct (multiply_cell_spec a b m n i j Hi ltac:(lia) p 0 result Hshape)
      as [Hs1 He1].
    destruct (IH (S j) (MatrixOperations.multiply_cell a b i j p 0 result))
      as [Hs He]; [done | lia |].
    split; [done|]. intros i' j'. rewrite He, !He1.
    repeat case_decide; try (exfalso; lia); destruct_and?; subst; done.
Qed.

Lemma multiply_rows_spec (a b : list (list num)) (m n p : nat) :
  forall (t i : nat) (result : list (list num)),
    shape m n result -> (i + t <= m)%nat ->
    shape m n (MatrixOperations.multiply_rows a b p n t i result)
    /\ forall i' j', (j' < n)%nat ->
         Matrix.entry (MatrixOperations.multiply_rows a b p n t i result) i' j'
         = if decide (i <= i' < i + t)%nat
           then foldl (fun acc k => acc + Matrix.entry a i' k * Matrix.entry b k j')%num
                  (Matrix.entry result i' j') (seq 0 p)
           else Matrix.entry result i' j'.
Proof.
  induction t as [|t IH]; intros i result Hshape Hi.
  - split; [done|]. intros i' j' Hj'. cbn [MatrixOperations.multiply_rows].
    rewrite decide_False by lia. done.
  - cbn [MatrixOperations.multiply_rows].
    destruct (multiply_row_spec a b m n p i ltac:(lia) n 0 result Hshape)
      as [Hs1 He1]; [lia|].
    destruct (IH (S i) (MatrixOperations.multiply_row a b p i n 0 result))
      as [Hs He]; [done | lia |].
    split; [done|]. intros i' j' Hj'. rewrite He by done. rewrite !He1.
    repeat case_decide; try (exfalso; lia); destruct_and?; subst; done.
Qed.

(** X12. The product. For an [m x p] matrix [a] and a [p x n] matrix [b]
    with [m, p >= 1], [matrixMultiply(a, b)] returns an [m x n] matrix
    whose entry [(i, j)] is the sum of the products [a[i][k] b[k][j]] over
    [k < p], accumulated from zero in increasing [k]. *)
Theorem matrixMultiply_entries (a b : list (list num)) (m p n : nat) :
  shape m p a -> shape p n b -> (0 < m)%nat -> (0 < p)%nat ->
  exists result,
    MatrixOperations.matrixMultiply a b = Ok result
    /\ shape m n result
    /\ forall i j, (i < m)%nat -> (j < n)%nat ->
         Matrix.entry result i j = dot a b i j p.
Proof.
  intros Ha Hb Hm Hp. unfold MatrixOperations.matrixMultiply.
  destruct b as [|b0 brest] eqn:Eb.
  { destruct Hb as [Hlen _]. simpl in Hlen. lia. }
  rewrite <- Eb in *.
  destruct a as [|a0 arest] eqn:Ea.
  { destruct Ha as [Hlen _]. simpl in Hlen. lia. }
  rewrite <- Ea in *.
  assert (Hb0 : length b0 = n).
  { destruct Hb as [_ Hall]. rewrite Eb in Hall. by inversion Hall. }
  assert (Ha0 : length a0 = p).
  { destruct Ha as [_ Hall]. rewrite Ea in Hall. by inversion Hall. }
  assert (Hla : length a = m) by apply Ha.
  assert (Hlb : length b = p) by apply Hb.
  rewrite Hb0, Ha0, Hla, Hlb, Nat.eqb_refl. cbn [negb].
  destruct (multiply_rows_spec a b m n p m 0 (MatrixOperations.zeros m n))
    as [Hs He]; [apply shape_zeros | lia |].
  eexists. split; [reflexivity|]. split; [done|].
  intros i j Hi Hj. rewrite He by done. rewrite decide_True by lia.
  by rewrite entry_zeros.
Qed.

Lemma matrixMultiply_entries_witness :
  exists result,
    MatrixOperations.matrixMultiply
      [[Real 1; Real 2]] [[Real 3]; [Real 4]] = Ok result
    /\ shape 1 1 result
    /\ forall i j, (i < 1)%nat -> (j < 1)%nat ->
         Matrix.entry result i j
         = dot [[Real 1; Real 2]] [[Real 3]; [Real 4]] i j 2.
Proof.
  apply (matrixMultiply_entries _ _ 1 2 1); try lia.
  - split; [reflexivity|]. repeat constructor.
  - split; [reflexivity|]. repeat constructor.
Defined.

Lemma mul_comm (x y : num) : (x * y)%num = (y * x)%num.
Proof. destruct x, y; try reflexivity. simpl. f_equal. apply Rmult_comm. Qed.

(** X13. Transposing a product. For an [m x p] matrix [a] and a [p x n]
    matrix [b] with [m, p, n >= 1], the transpose of [matrixMultiply(a, b)]
    is [matrixMultiply(transpose(b), transpose(a))]. *)
Theorem transpose_matrixMultiply (a b : list (list num)) (m p n : nat) :
  shape m p a -> shape p n b ->
  (0 < m)%nat -> (0 < p)%nat -> (0 < n)%nat ->
  exists ab tb ta result,
    MatrixOperations.matrixMultiply a b = Ok ab
    /\ MatrixOperations.transpose b = Ok tb
    /\ MatrixOperations.transpose a = Ok ta
    /\ MatrixOperations.transpose ab = Ok result
    /\ MatrixOperations.matrixMultiply tb ta = Ok result.
Proof.
  intros Ha Hb Hm Hp Hn.
  destruct (matrixMultiply_entries a b m p n Ha Hb Hm Hp) as (ab & Hab & Sab & Eab).
  destruct (transpose_spec b p n Hb Hp) as (tb & Htb & Stb & Etb).
  destruct (transpose_spec a m p Ha Hm) as (ta & Hta & Sta & Eta).
  destruct (transpose_spec ab m n Sab Hm) as (tab & Htab & Stab & Etab).
  destruct (matrixMultiply_entries tb ta n p m Stb Sta Hn Hp)
    as (prod & Hprod & Sprod & Eprod).
  exists ab, tb, ta, tab. repeat split; try done.
  rewrite Hprod. f_equal. apply (matrix_ext n m); try done.
  intros j i Hj Hi. rewrite Eprod, Etab, Eab by done.
  unfold dot.
  assert (Hk : forall acc l, Forall (fun k => (k < p)%nat) l ->
            foldl (fun acc k => acc + Matrix.entry tb j k * Matrix.entry ta k i)%num
              acc l
            = foldl (fun acc k => acc + Matrix.entry a i k * Matrix.entry b k j)%num
                acc l).
  { intros acc l Hl. revert acc. induction Hl as [|k l Hk _ IH]; intros acc; [done|].
    cbn [foldl]. rewrite IH, Etb, Eta by done. by rewrite mul_comm. }
  apply Hk. apply Forall_forall. intros k Hin.
  apply elem_of_seq in Hin. lia.
Qed.

Lemma transpose_matrixMultiply_witness :
  exists ab tb ta result,
    MatrixOperations.matrixMultiply [[Real 1; Real 2]] [[Real 3]; [Real 4]] = Ok ab
    /\ MatrixOperations.transpose [[Real 3]; [Real 4]] = Ok tb
    /\ MatrixOperations.transpose [[Real 1; Real 2]] = Ok ta
    /\ MatrixOperations.transpose ab = Ok result
    /\ MatrixOperations.matrixMultiply tb ta = Ok result.
Proof.
  apply (transpose_matrixMultiply _ _ 1 2 1); try lia.
  - split; [reflexivity|]. repeat constructor.
  - split; [reflexivity|]. repeat constructor.
Defined.

(** ** The factor cholesky returns *)

Lemma column_loop_spec (matrix : list (list num)) (N i : nat) :
  (i < N)%nat ->
  forall (n j : nat) (L : list (list num)),
    shape N N L -> (j + n <= S i)%nat ->
    shape N N (Matrix.column_loop matrix i n j L)
    /\ forall i' j', (i' <> i \/ j' < j \/ j + n <= j')%nat ->
         Matrix.entry (Matrix.column_loop matrix i n j L) i' j'
         = Matrix.entry L i' j'.
Proof.
  intros Hi. induction n as [|n IH]; intros j L Hshape Hj.
  - split; [done|]. done.
  - cbn [Matrix.column_loop].
    set (L' := if (j =? i)%nat then _ else _).
    assert (HL' : shape N N L'
                  /\ forall i' j', (i' <> i \/ j' <> j) ->
                       Matrix.entry L' i' j' = Matrix.entry L i' j').
    { unfold L'. destruct (j =? i)%nat.
      - split; [apply (shape_set_entry N N); (done || lia)|].
        intros i' j' Hne. rewrite (entry_set_entry N N) by (done || lia).
        rewrite decide_False by lia. done.
      - split; [apply (shape_set_entry N N); (done || lia)|].
        intros i' j' Hne. rewrite (entry_set_entry N N) by (done || lia).
        rewrite decide_False by lia. done. }
    destruct HL' as [Hs' He'].
    destruct (IH (S j) L' Hs') as [Hs He]; [lia|].
    split; [done|]. intros i' j' Hout.
    rewrite He by lia. apply He'. lia.
Qed.

Lemma row_loop_spec (matrix : list (list num)) (N : nat) :
  forall (n i : nat) (L L' : list (list num)),
    (i + n = N)%nat ->
    shape N N L ->
    (forall i' j', (i' < j')%nat -> (j' < N)%nat -> Matrix.entry L i' j' = Real 0) ->
    (forall i', (i' < i)%nat -> Num.leb (Matrix.entry L i' i') (Real 0) = false) ->
    Matrix.row_loop matrix n i L = Ok L' ->
    shape N N L'
    /\ (forall i' j', (i' < j')%nat -> (j' < N)%nat -> Matrix.entry L' i' j' = Real 0)
    /\ (forall i', (i' < N)%nat -> Num.leb (Matrix.entry L' i' i') (Real 0) = false).
Proof.
  induction n as [|n IH]; intros i L L' Hi Hshape Hupper Hdiag Hrun.
  - cbn [Matrix.row_loop] in Hrun. injection Hrun as <-.
    split; [done|]. split; [done|]. intros i' Hi'. apply Hdiag. lia.
  - cbn [Matrix.row_loop] in Hrun.
    destruct (column_loop_spec matrix N i ltac:(lia) (S i) 0 L Hshape)
      as [Hs He]; [lia|].
    set (L1 := Matrix.column_loop matrix i (S i) 0 L) in *.
    destruct (Num.leb (Matrix.entry L1 i i) (Real 0)) eqn:Hcheck; [discriminate|].
    apply (IH (S i) L1 L'); try done; try lia.
    + intros i' j' Hlt Hj'. rewrite He by lia. by apply Hupper.
    + intros i' Hi'. destruct (decide (i' = i)) as [->|Hne]; [done|].
      rewrite He by lia. apply Hdiag. lia.
Qed.

(** X14. A factor that [cholesky] returns for a matrix of [n] rows has
    [n] rows of [n] entries, is zero above the diagonal, and has no
    diagonal entry for which the test [L[i][i] <= 0] holds. *)
Theorem cholesky_factor_shape (matrix L : list (list num)) :
  Matrix.cholesky matrix = Ok L ->
  let n := length matrix in
  shape n n L
  /\ (forall i j, (i < j)%nat -> (j < n)%nat -> Matrix.entry L i j = Real 0)
  /\ (forall i, (i < n)%nat -> Num.leb (Matrix.entry L i i) (Real 0) = false).
Proof.
  intros Hrun n. unfold Matrix.cholesky in Hrun. fold n in Hrun.
  apply (row_loop_spec matrix n n 0 (replicate n (replicate n (Real 0))) L);
    try done.
  - apply shape_zeros.
  - intros i j Hi Hj. apply entry_zeros; lia.
  - intros i Hi. lia.
Qed.

Lemma cholesky_unit : Matrix.cholesky [[Real 1]] = Ok [[Real 1]].
Proof.
  unfold Matrix.cholesky.
  cbn -[Num.sqrt Num.sub Num.add Num.mul Num.div Num.leb].
  assert (H1 : Num.sqrt (Real 1 - Real 0) = Real 1).
  { simpl Num.sub. rewrite sqrt_real by lra. apply real_eq.
    replace (1 + - 0) with 1 by lra. apply sqrt_1. }
  rewrite !H1. simpl. by rewrite NumFacts.Rleb_false by lra.
Qed.

Lemma cholesky_factor_shape_witness :
  shape 1 1 [[Real 1]]
  /\ Num.leb (Matrix.entry [[Real 1]] 0 0) (Real 0) = false.
Proof.
  destruct (cholesky_factor_shape [[Real 1]] [[Real 1]] cholesky_unit)
    as (Hs & _ & Hd).
  split; [exact Hs|]. apply Hd. simpl. lia.
Defined.

(** ** Two-by-two matrices *)

(** [cholesky] on a two-by-two matrix with a positive first pivot and a
    positive second one; the entry above the diagonal is never read. *)
Lemma cholesky_2x2 (a u b c : R) :
  0 < a -> 0 < c - b / sqrt a * (b / sqrt a) ->
  Matrix.cholesky [[Real a; Real u]; [Real b; Real c]]
  = Ok [[Real (sqrt a); Real 0];
        [Real (b / sqrt a); Real (sqrt (c - b / sqrt a * (b / sqrt a)))]].
Proof.
  intros Ha Hc. pose proof (sqrt_lt_R0 a Ha) as Hs.
  unfold Matrix.cholesky.
  cbn -[Num.sqrt Num.sub Num.add Num.mul Num.div Num.leb].
  assert (H1 : Num.sqrt (Real a - Real 0) = Real (sqrt a)).
  { simpl Num.sub. rewrite sqrt_real by lra. apply real_eq. f_equal. lra. }
  rewrite !H1.
  assert (H2 : ((Real b - Real 0) / Real (sqrt a))%num = Real (b / sqrt a)).
  { simpl Num.sub. rewrite div_real by lra. apply real_eq. f_equal. lra. }
  rewrite !H2.
  assert (H3 : Num.sqrt (Real c - (Real 0 + Real (b / sqrt a) * Real (b / sqrt a)))
               = Real (sqrt (c - b / sqrt a * (b / sqrt a)))).
  { simpl Num.sub. rewrite sqrt_real by lra. apply real_eq. f_equal. lra. }
  rewrite !H3.
  pose proof (sqrt_lt_R0 _ Hc) as Ht.
  cbn [Num.leb]. by rewrite !NumFacts.Rleb_false by lra.
Qed.

Lemma second_pivot_positive (a b c : R) :
  0 < a -> 0 < a * c - b * b -> 0 < c - b / sqrt a * (b / sqrt a).
Proof.
  intros Ha Hdet. pose proof (sqrt_lt_R0 a Ha) as Hs.
  replace (b / sqrt a * (b / sqrt a)) with (b * b / a).
  2:{ rewrite <- (sqrt_sqrt a) at 1 by lra. field. lra. }
  apply Rmult_lt_reg_r with a; [done|].
  replace ((c - b * b / a) * a) with (a * c - b * b) by (field; lra). lra.
Qed.

(** X15. The Cholesky round trip on two-by-two matrices. For a symmetric
    real matrix [[a, b], [b, c]] with [a > 0] and [a c - b^2 > 0],
    [cholesky] returns a factor [L], and [matrixMultiply(L, transpose(L))]
    is the matrix again. *)
Theorem cholesky_round_trip_2x2 (a b c : R) :
  0 < a -> 0 < a * c - b * b ->
  let matrix := [[Real a; Real b]; [Real b; Real c]] in
  exists L Lt,
    Matrix.cholesky matrix = Ok L
    /\ MatrixOperations.transpose L = Ok Lt
    /\ MatrixOperations.matrixMultiply L Lt = Ok matrix.
Proof.
  intros Ha Hdet matrix.
  pose proof (second_pivot_positive a b c Ha Hdet) as Hc.
  pose proof (sqrt_lt_R0 a Ha) as Hs.
  unfold matrix. rewrite (cholesky_2x2 a b b c Ha Hc).
  eexists _, _. split; [reflexivity|]. split; [reflexivity|].
  cbn -[Num.add Num.mul]. cbn [Num.add Num.mul].
  set (l := b / sqrt a). set (t := sqrt (c - l * l)).
  assert (Hss : sqrt a * sqrt a = a) by (apply sqrt_sqrt; lra).
  assert (Htt : t * t = c - l * l) by (apply sqrt_sqrt; fold l in Hc; lra).
  assert (Hsl : sqrt a * l = b) by (unfold l; field; lra).
  repeat f_equal; nra.
Qed.

Lemma cholesky_round_trip_2x2_witness :
  let matrix := [[Real 4; Real 2]; [Real 2; Real 3]] in
  exists L Lt,
    Matrix.cholesky matrix = Ok L
    /\ MatrixOperations.transpose L = Ok Lt
    /\ MatrixOperations.matrixMultiply L Lt = Ok matrix.
Proof. apply (cholesky_round_trip_2x2 4 2 3); lra. Defined.

(** X16. Correlated pairs. For a correlation [rho] strictly between -1 and
    1 and two real normals [z0], [z1], [generateCorrelatedVariables] on
    [[1, rho], [rho, 1]] returns [z0] and [rho z0 + sqrt(1 - rho^2) z1]. *)
Theorem generateCorrelatedVariables_pair (rho z0 z1 : R) :
  -1 < rho -> rho < 1 ->
  MatrixOperations.generateCorrelatedVariables
    [[Real 1; Real rho]; [Real rho; Real 1]] [Real z0; Real z1]
  = Ok [Real z0; Real (rho * z0 + sqrt (1 - rho * rho) * z1)].
Proof.
  intros Hlo Hhi.
  assert (Hsq : rho / sqrt 1 * (rho / sqrt 1) = rho * rho).
  { rewrite sqrt_1. field. }
  unfold MatrixOperations.generateCorrelatedVariables.
  rewrite (cholesky_2x2 1 rho rho 1) by (rewrite ?Hsq; nra).
  cbn -[Num.add Num.mul]. cbn [Num.add Num.mul].
  rewrite Hsq, sqrt_1.
  do 2 f_equal; [|f_equal]; apply real_eq; field.
Qed.

Lemma generateCorrelatedVariables_pair_witness :
  MatrixOperations.generateCorrelatedVariables
    [[Real 1; Real 0.5]; [Real 0.5; Real 1]] [Real 1; Real 2]
  = Ok [Real 1; Real (0.5 * 1 + sqrt (1 - 0.5 * 0.5) * 2)].
Proof. apply (generateCorrelatedVariables_pair 0.5 1 2); lra. Defined.

Lemma cholesky_2x2_singular (a u b c : R) :
  0 < a -> c - b / sqrt a * (b / sqrt a) = 0 ->
  Matrix.cholesky [[Real a; Real u]; [Real b; Real c]]
  = Throw (Error "Matrix is not positive definite").
Proof.
  intros Ha Hc. pose proof (sqrt_lt_R0 a Ha) as Hs.
  unfold Matrix.cholesky.
  cbn -[Num.sqrt Num.sub Num.add Num.mul Num.div Num.leb].
  assert (H1 : Num.sqrt (Real a - Real 0) = Real (sqrt a)).
  { simpl Num.sub. rewrite sqrt_real by lra. apply real_eq. f_equal. lra. }
  rewrite !H1.
  assert (H2 : ((Real b - Real 0) / Real (sqrt a))%num = Real (b / sqrt a)).
  { simpl Num.sub. rewrite div_real by lra. apply real_eq. f_equal. lra. }
  rewrite !H2.
  assert (H3 : Num.sqrt (Real c - (Real 0 + Real (b / sqrt a) * Real (b / sqrt a)))
               = Real 0).
  { simpl Num.sub. rewrite sqrt_real by lra. apply real_eq.
    replace (c + - (0 + b / sqrt a * (b / sqrt a))) with 0 by lra. apply sqrt_0. }
  rewrite !H3.
  cbn [Num.leb]. rewrite NumFacts.Rleb_false by lra.
  by rewrite NumFacts.Rleb_true by lra.
Qed.

(** X17. Validity of a two-by-two correlation matrix. For every real
    [rho], [isValidCorrelationMatrix] accepts [[1, rho], [rho, 1]] exactly
    when [rho] lies strictly between -1 and 1. *)
Theorem isValidCorrelationMatrix_2x2 (rho : R) :
  MatrixOperations.isValidCorrelationMatrix
    [[Real 1; Real rho]; [Real rho; Real 1]] = true
  <-> -1 < rho < 1.
Proof.
  assert (Hsq : rho / sqrt 1 * (rho / sqrt 1) = rho * rho).
  { rewrite sqrt_1. field. }
  cbv beta iota zeta delta
    [MatrixOperations.isValidCorrelationMatrix MatrixOperations.isSymmetric
     MatrixOperations.symmetric_rows MatrixOperations.symmetric_row
     MatrixOperations.unit_diagonal MatrixOperations.bounded_rows
     MatrixOperations.bounded_row forallb length Nat.eqb andb negb
     Matrix.entry Js.at_index lookup list_lookup from_option Datatypes.id
     Num.sub Num.neg Num.add Num.abs Num.gtb Num.ltb].
  replace (rho + - rho) with 0 by lra. replace (1 + - (1)) with 0 by lra.
  rewrite Rabs_R0, (NumFacts.Rltb_false 1e-10 0) by lra.
  rewrite (NumFacts.Rltb_false 1 (-1)), (NumFacts.Rltb_false 1 1) by lra.
  cbn [orb].
  destruct (Rlt_dec rho (-1)) as [H1|H1].
  { rewrite (NumFacts.Rltb_true rho (-1)) by done. cbn. split; [done | lra]. }
  rewrite (NumFacts.Rltb_false rho (-1)) by lra. cbn [orb].
  destruct (Rlt_dec 1 rho) as [H2|H2].
  { rewrite (NumFacts.Rltb_true 1 rho) by done. cbn. split; [done | lra]. }
  rewrite (NumFacts.Rltb_false 1 rho) by lra.
  destruct (Req_dec_T (rho * rho) 1) as [H3|H3].
  - rewrite (cholesky_2x2_singular 1 rho rho 1) by (rewrite ?Hsq; lra).
    split; [done | nra].
  - rewrite (cholesky_2x2 1 rho rho 1) by (rewrite ?Hsq; nra).
    split; [nra | done].
Qed.

(** ** isSymmetric *)

Lemma symmetric_row_spec (matrix : list (list num)) (i : nat) :
  forall n j,
    MatrixOperations.symmetric_row matrix i n j = true
    <-> forall j', (j <= j' < j + n)%nat -> differ matrix i j' = false.
Proof.
  induction n as [|n IH]; intros j; cbn [MatrixOperations.symmetric_row].
  - split; [intros _ j' Hj'; lia | done].
  - fold (differ matrix i j). destruct (differ matrix i j) eqn:Hd.
    + split; [done|]. intros H. rewrite H in Hd by lia. done.
    + rewrite IH. split.
      * intros H j' Hj'. destruct (decide (j' = j)) as [->|]; [done|].
        apply H. lia.
      * intros H j' Hj'. apply H. lia.
Qed.

Lemma symmetric_rows_spec (matrix : list (list num)) :
  forall n i,
    MatrixOperations.symmetric_rows matrix n i = true
    <-> forall i' j', (i <= i' < i + n)%nat -> (j' < i')%nat ->
          differ matrix i' j' = false.
Proof.
  induction n as [|n IH]; intros i; cbn [MatrixOperations.symmetric_rows].
  - split; [intros _ i' j' Hi'; lia | done].
  - destruct (MatrixOperations.symmetric_row matrix i i 0) eqn:Hrow.
    + pose proof (proj1 (symmetric_row_spec matrix i i 0) Hrow) as Hrow'.
      rewrite IH. split.
      * intros H i' j' Hi' Hj'. destruct (decide (i' = i)) as [->|].
        -- apply Hrow'. lia.
        -- apply H; lia.
      * intros H i' j' Hi' Hj'. apply H; lia.
    + split; [done|]. intros H.
      assert (MatrixOperations.symmetric_row matrix i i 0 = true) as Hyes.
      { apply symmetric_row_spec. intros j' Hj'. apply H; lia. }
      congruence.
Qed.

Lemma differ_sym (matrix : list (list num)) (i j : nat) :
  differ matrix i j = differ matrix j i.
Proof.
  unfold differ. f_equal.
  destruct (Matrix.entry matrix i j), (Matrix.entry matrix j i);
    try reflexivity.
  cbn [Num.sub Num.neg Num.add Num.abs]. f_equal.
  rewrite <- (Rabs_Ropp (x + - x0)). f_equal. lra.
Qed.

Lemma differ_diagonal (matrix : list (list num)) (i : nat) :
  differ matrix i i = false.
Proof.
  unfold differ. destruct (Matrix.entry matrix i i); try reflexivity.
  cbn [Num.sub Num.neg Num.add Num.abs Num.gtb Num.ltb].
  replace (x + - x) with 0 by lra. rewrite Rabs_R0.
  apply NumFacts.Rltb_false. lra.
Qed.

(** X18. [isSymmetric] answers true exactly when no two entries [m[i][j]]
    and [m[j][i]], [i, j < n], test as differing by more than 1e-10; an
    entry that is NaN never fails the test. *)
Theorem isSymmetric_spec (matrix : list (list num)) :
  MatrixOperations.isSymmetric matrix = true
  <-> forall i j, (i < length matrix)%nat -> (j < length matrix)%nat ->
        differ matrix i j = false.
Proof.
  unfold MatrixOperations.isSymmetric. rewrite symmetric_rows_spec. split.
  - intros H i j Hi Hj.
    destruct (Nat.lt_trichotomy i j) as [Hlt|[->|Hgt]].
    + rewrite differ_sym. apply H; lia.
    + apply differ_diagonal.
    + apply H; lia.
  - intros H i j Hi Hj. apply H; lia.
Qed.

(** * Further properties: Asian options and the risk metrics *)

(** ** The geometric average of AsianOption *)

Lemma foldl_add_log_sum (l : list R) :
  forall a, Forall (fun p => 0 < p) l ->
    foldl (fun a b => a + Num.log b)%num (Real a) (map Real l)
    = Real (a + sum_R (map ln l)).
Proof.
  induction l as [|p l IH]; intros a Hl; simpl.
  - f_equal. lra.
  - inversion Hl as [|? ? Hp Hl']; subst.
    rewrite (NumFacts.Rltb_false p 0) by lra.
    rewrite (NumFacts.Reqb_false p 0) by lra.
    cbn [Num.add]. rewrite IH by done. f_equal. lra.
Qed.

Lemma ln_below (p : R) : 0 < p -> ln p < p.
Proof.
  intros Hp. assert (1 + p < exp p) by (apply exp_ineq1; lra).
  rewrite <- (ln_exp p) at 2. apply ln_increasing; lra.
Qed.

(** X19. With [averageType] other than 'arithmetic', the average that
    AsianOption takes of a path of positive prices is
    [exp((p0 + ln p1 + ... + ln pn) / (n + 1))]: the reduction has no initial
    value, so the first price enters without its logarithm, and the result
    lies strictly above the geometric mean of the path. *)
Theorem asian_geometric_average_overshoots (this : obj) (p0 : R)
    (rest : list R) :
  Js.is_string (Js.prop this "averageType") "arithmetic" = false ->
  0 < p0 -> Forall (fun p => 0 < p) rest ->
  let g := exp ((p0 + sum_R (map ln rest)) / INR (length (p0 :: rest))) in
  AsianOption.average this (map Real (p0 :: rest)) = Ok (Real g)
  /\ geometric_mean_R (p0 :: rest) < g.
Proof.
  intros Htype Hp0 Hrest g. subst g. split.
  - unfold AsianOption.average. rewrite Htype.
    cbn [map Js.reduce1 obind]. rewrite foldl_add_log_sum by done.
    unfold Js.length_of, Num.of_nat. cbn [length]. rewrite length_map.
    cbn [Num.div].
    rewrite (NumFacts.Reqb_false (INR (S (length rest))) 0)
      by (rewrite S_INR; pose proof (pos_INR (length rest)); lra).
    reflexivity.
  - unfold geometric_mean_R. apply exp_increasing.
    cbn [map sum_R foldr length].
    assert (0 < INR (S (length rest)))
      by (rewrite S_INR; pose proof (pos_INR (length rest)); lra).
    apply Rmult_lt_compat_r; [by apply Rinv_0_lt_compat|].
    pose proof (ln_below p0 Hp0). unfold sum_R. lra.
Qed.

Lemma asian_geometric_average_overshoots_witness :
  let this : obj := {[ "averageType" := VStr "geometric" ]} in
  let g := exp ((1 + sum_R (map ln [1])) / INR (length [1; 1])) in
  AsianOption.average this (map Real [1; 1]) = Ok (Real g)
  /\ geometric_mean_R [1; 1] < g.
Proof.
  apply (asian_geometric_average_overshoots
           {[ "averageType" := VStr "geometric" ]} 1 [1]).
  - reflexivity.
  - lra.
  - repeat constructor; lra.
Defined.

(** ** The sample moments and the control variate of AsianOption *)

Lemma sqr_mul (a : num) : Num.sqr a = (a * a)%num.
Proof. by destruct a. Qed.

Lemma cross_sum_self (mean : num) (y : list num) :
  forall x i sum, drop i y = x ->
    ControlVariate.cross_sum mean mean y i sum x
    = foldl (fun sum xi => sum + Num.sqr (xi - mean))%num sum x.
Proof.
  induction x as [|xi x IH]; intros i sum Hx; [done|].
  cbn [ControlVariate.cross_sum foldl].
  assert (y !! i = Some xi) as Hi.
  { rewrite <- (Nat.add_0_r i), <- lookup_drop, Hx. done. }
  unfold Js.at_index. rewrite Hi. cbn [default from_option]. unfold Datatypes.id.
  rewrite sqr_mul. apply IH.
  replace (S i) with (i + 1)%nat by lia.
  rewrite <- drop_drop, Hx. done.
Qed.

(** X20. The sample covariance of an array with itself is its sample
    variance, whatever the array holds; both throw on the empty array. *)
Theorem covariance_with_itself (x : list num) :
  ControlVariate.calculateCovariance x x = ControlVariate.calculateVariance x.
Proof.
  unfold ControlVariate.calculateCovariance, ControlVariate.calculateVariance.
  destruct (Js.reduce1 Num.add x) as [total|e]; [|done].
  cbn [obind]. by rewrite cross_sum_self.
Qed.

Lemma mul_zero_zero_or_nan (d : num) : zero_or_nan (d * Real 0)%num.
Proof.
  destruct d; cbn [Num.mul]; unfold Num.signed_inf.
  - by right.
  - right. rewrite !NumFacts.Rltb_false by lra. done.
  - right. rewrite !NumFacts.Rltb_false by lra. done.
  - left. f_equal. lra.
Qed.

Lemma add_zero_or_nan (a b : num) :
  zero_or_nan a -> zero_or_nan b -> zero_or_nan (a + b)%num.
Proof.
  intros [->| ->] [->| ->]; cbn [Num.add]; try by right.
  left. f_equal. lra.
Qed.

Lemma div_zero_or_nan (a : num) (y : R) :
  zero_or_nan a -> zero_or_nan (a / Real y)%num.
Proof.
  intros [->| ->]; cbn [Num.div]; [|by right].
  unfold Num.Reqb. destruct (Req_dec_T y 0).
  - right. unfold Num.signed_inf. rewrite !NumFacts.Rltb_false by lra. done.
  - left. f_equal. by field.
Qed.

Lemma div_zero_or_nan_nan (a b : num) :
  zero_or_nan a -> zero_or_nan b -> (a / b)%num = NaN.
Proof.
  intros [->| ->] [->| ->]; cbn [Num.div]; try done.
  rewrite NumFacts.Reqb_true by done.
  unfold Num.signed_inf. rewrite !NumFacts.Rltb_false by lra. done.
Qed.

(** The cross sum against a control whose deviations from its mean all
    vanish. *)
Lemma cross_sum_flat (meanX : num) (g : R) (y : list num) :
  Forall (fun yi => yi = Real g) y ->
  forall x i sum, zero_or_nan sum ->
    zero_or_nan (ControlVariate.cross_sum meanX (Real g) y i sum x).
Proof.
  intros Hy. induction x as [|xi x IH]; intros i sum Hsum; [done|].
  cbn [ControlVariate.cross_sum]. apply IH. apply add_zero_or_nan; [done|].
  unfold Js.at_index. destruct (y !! i) as [yi|] eqn:Hi; cbn [default from_option].
  - unfold Datatypes.id. rewrite (proj1 (Forall_lookup _ _) Hy i yi Hi).
    cbn [Num.sub Num.neg Num.add]. replace (g + - g) with 0 by lra.
    apply mul_zero_zero_or_nan.
  - cbn [Num.sub Num.neg Num.add].
    replace ((xi - meanX) * NaN)%num with NaN; [by right|].
    by destruct (xi - meanX)%num.
Qed.

Lemma foldl_add_flat (g : R) (y : list num) :
  Forall (fun yi => yi = Real g) y ->
  forall a, foldl Num.add (Real a) y = Real (a + INR (length y) * g).
Proof.
  induction 1 as [|yi y -> _ IH]; intros a.
  - cbn [foldl length INR]. f_equal. lra.
  - cbn [foldl Num.add]. rewrite IH. f_equal.
    change (length (Real g :: y)) with (S (length y)). rewrite S_INR. lra.
Qed.

Lemma mean_flat (g : R) (y : list num) :
  y <> [] -> Forall (fun yi => yi = Real g) y ->
  exists total, Js.reduce1 Num.add y = Ok total
    /\ (total / Js.length_of y)%num = Real g.
Proof.
  intros Hne Hy. destruct y as [|y0 y]; [done|].
  inversion Hy as [|? ? Hy0 Hy']; subst.
  eexists. split; [cbn [Js.reduce1]; by rewrite (foldl_add_flat g)|].
  unfold Js.length_of, Num.of_nat. cbn [length Num.div].
  assert (0 < INR (S (length y)))
    by (rewrite S_INR; pose proof (pos_INR (length y)); lra).
  rewrite NumFacts.Reqb_false by lra. f_equal. rewrite S_INR in *. field. lra.
Qed.

Lemma covariance_flat (g : R) (x y : list num) :
  x <> [] -> length x = length y -> Forall (fun yi => yi = Real g) y ->
  exists c, ControlVariate.calculateCovariance x y = Ok c /\ zero_or_nan c.
Proof.
  intros Hx Hlen Hy.
  assert (y <> []) as Hne by (destruct x, y; done).
  destruct (mean_flat g y Hne Hy) as (total & Htotal & Hmean).
  unfold ControlVariate.calculateCovariance.
  destruct x as [|x0 x]; [done|]. cbn [Js.reduce1 obind].
  rewrite Htotal. cbn [obind].
  replace (Js.length_of (x0 :: x)) with (Js.length_of y)
    by (unfold Js.length_of; by rewrite Hlen).
  rewrite Hmean. eexists. split; [reflexivity|].
  unfold Js.length_of, Num.of_nat. cbn [Num.sub Num.neg Num.add].
  apply div_zero_or_nan, cross_sum_flat; [done|by left].
Qed.

Lemma variance_flat (g : R) (y : list num) :
  y <> [] -> Forall (fun yi => yi = Real g) y ->
  exists v, ControlVariate.calculateVariance y = Ok v /\ zero_or_nan v.
Proof.
  intros Hne Hy.
  destruct (covariance_flat g y y Hne eq_refl Hy) as (c & Hc & Hzero).
  exists c. split; [|done]. rewrite <- Hc.
  unfold ControlVariate.calculateCovariance, ControlVariate.calculateVariance.
  destruct (Js.reduce1 Num.add y) as [total|e]; [|done].
  cbn [obind]. by rewrite cross_sum_self.
Qed.

Lemma adjust_nan (geometricPrice : num) (y : list num) :
  forall x i,
    ControlVariate.adjust NaN geometricPrice y i x = replicate (length x) NaN.
Proof.
  induction x as [|xi x IH]; intros i; [done|].
  cbn [ControlVariate.adjust length replicate]. rewrite IH. f_equal.
  by destruct xi.
Qed.

Lemma foldl_add_nan (l : list num) : foldl Num.add NaN l = NaN.
Proof. induction l as [|a l IH]; [done|]. cbn [foldl Num.add]. apply IH. Qed.

Lemma present_value_nan (this : obj) (paths : list (list num)) (n : nat) :
  exists res,
    MonteCarloSimulation.present_value this paths (replicate (S n) NaN) = Ok res
    /\ res.(price) = NaN /\ Forall (fun p => p = NaN) res.(payoffs).
Proof.
  unfold MonteCarloSimulation.present_value.
  cbn [replicate Js.reduce1 obind map]. rewrite foldl_add_nan.
  unfold MonteCarloSimulation.calculateConfidenceInterval.
  cbn [Js.reduce1 obind Num.mul]. eexists. split; [reflexivity|].
  cbn [price payoffs]. split; [done|].
  constructor; [done|]. apply Forall_forall. intros p Hp.
  apply list_elem_of_fmap in Hp as (q & -> & Hq).
  apply elem_of_replicate in Hq as [-> _]. done.
Qed.

Lemma payoffs_defined (this : obj) (paths : list (list num)) :
  Forall (fun path => path <> []) paths ->
  exists xs, map_outcome (ControlVariate.arithmeticPayoff this) paths = Ok xs
    /\ length xs = length paths.
Proof.
  induction 1 as [|path paths Hpath _ (xs & Hxs & Hlen)].
  - by exists [].
  - cbn [map_outcome]. rewrite Hxs.
    unfold ControlVariate.arithmeticPayoff at 1.
    destruct path as [|p path]; [done|]. cbn [Js.reduce1 obind].
    destruct (Js.is_string _ _); cbn [obind];
      eexists; (split; [reflexivity|]); cbn [length]; by rewrite Hlen.
Qed.

Lemma geometric_payoffs_flat (this : obj) (g : R) (paths : list (list num)) :
  Forall (fun path => ControlVariate.geometricPayoff this path = Ok (Real g))
    paths ->
  exists ys, map_outcome (ControlVariate.geometricPayoff this) paths = Ok ys
    /\ length ys = length paths /\ Forall (fun yi => yi = Real g) ys.
Proof.
  induction 1 as [|path paths Hpath _ (ys & Hys & Hlen & Hflat)].
  - by exists [].
  - cbn [map_outcome]. rewrite Hpath, Hys. cbn [obind].
    eexists. split; [reflexivity|]. split; [cbn [length]; by rewrite Hlen|].
    by constructor.
Qed.

(** X21. When the geometric payoffs of all paths coincide (for instance all
    zero, every path out of the money), the control has no sample variance,
    the coefficient [covXY / varY] is 0/0, and [calculateControlVariate]
    returns the price NaN with every payoff NaN. The deviations from the
    mean vanish in the exact arithmetic of the embedding; for payoffs that
    are all zero they vanish in floating point as well. *)
Theorem control_variate_flat_control (this : obj) (g : R)
    (paths : list (list num)) :
  paths <> [] ->
  Forall (fun path => ControlVariate.geometricPayoff this path = Ok (Real g))
    paths ->
  exists res,
    ControlVariate.calculateControlVariate this paths = Ok res
    /\ res.(price) = NaN /\ Forall (fun p => p = NaN) res.(payoffs).
Proof.
  intros Hne Hflat.
  assert (Forall (fun path : list num => path <> []) paths) as Hpaths.
  { eapply Forall_impl; [exact Hflat|]. intros path Hpath ->.
    unfold ControlVariate.geometricPayoff in Hpath. discriminate. }
  destruct (payoffs_defined this paths Hpaths) as (xs & Hxs & Hlenx).
  destruct (geometric_payoffs_flat this g paths Hflat)
    as (ys & Hys & Hleny & Hy).
  assert (xs <> []) as Hxne by (destruct xs, paths; done).
  assert (ys <> []) as Hyne by (destruct ys, paths; done).
  destruct (covariance_flat g xs ys Hxne ltac:(congruence) Hy)
    as (c & Hc & Hczero).
  destruct (variance_flat g ys Hyne Hy) as (v & Hv & Hvzero).
  unfold ControlVariate.calculateControlVariate.
  rewrite Hxs, Hys. cbn [obind]. rewrite Hc, Hv. cbn [obind].
  rewrite (div_zero_or_nan_nan c v Hczero Hvzero), adjust_nan.
  destruct xs as [|x0 xs]; [done|]. apply present_value_nan.
Qed.

Lemma control_variate_flat_control_witness :
  let this := AsianOption.constructor (to_params sample_parameters) in
  let paths := [[Real 1; Real 1]; [Real 1; Real 1]] in
  exists res,
    ControlVariate.calculateControlVariate this paths = Ok res
    /\ res.(price) = NaN /\ Forall (fun p => p = NaN) res.(payoffs).
Proof.
  intros this paths.
  apply (control_variate_flat_control this 0 paths); [done|].
  assert (ControlVariate.geometricPayoff this [Real 1; Real 1] = Ok (Real 0))
    as Hflat.
  { unfold ControlVariate.geometricPayoff.
    replace (Js.is_string (Js.prop this "type") "call") with true
      by reflexivity.
    replace (numprop this "K") with (Real 100) by reflexivity.
    cbn [Js.reduce1 foldl obind Num.log].
    rewrite (NumFacts.Rltb_false 1 0), (NumFacts.Reqb_false 1 0) by lra.
    unfold Js.length_of, Num.of_nat.
    cbn [Num.add length Num.div].
    rewrite NumFacts.Reqb_false
      by (rewrite !S_INR; cbn [INR]; lra).
    cbn [Num.exp Num.sub Num.neg Num.add Num.max Num.ltb].
    rewrite NumFacts.Rltb_true; [done|].
    rewrite ln_1, !S_INR. cbn [INR].
    assert (exp ((1 + 0) / (0 + 1 + 1)) < exp 1)
      by (apply exp_increasing; lra).
    pose proof exp_le_3. lra. }
  repeat constructor; exact Hflat.
Defined.

(** ** The value at risk of calculateRiskMetrics *)

Lemma foldl_Rmin_assoc (l : list R) :
  forall a b, foldl Rmin (Rmin a b) l = Rmin a (foldl Rmin b l).
Proof.
  induction l as [|c l IH]; intros a b; [done|].
  cbn [foldl]. by rewrite <- IH, Rmin_assoc.
Qed.

Lemma sort_head (l : list R) :
  l <> [] -> exists t, Js.sort (map Real l) = Real (lowest l) :: t.
Proof.
  induction l as [|x l IH]; [done|]. intros _.
  destruct l as [|y l]; [by exists []|].
  destruct IH as [t Ht]; [done|].
  change (Js.sort (map Real (x :: y :: l)))
    with (Js.insert_sorted (Real x) (Js.sort (map Real (y :: l)))).
  rewrite Ht. cbn [Js.insert_sorted Num.sub Num.neg Num.add Num.gtb Num.ltb].
  assert (lowest (x :: y :: l) = Rmin x (lowest (y :: l))) as ->
    by (unfold lowest; cbn [foldl]; apply foldl_Rmin_assoc).
  unfold Num.Rltb. destruct (Rlt_dec 0 (x + - lowest (y :: l))).
  - rewrite Rmin_right by lra. by eexists.
  - rewrite Rmin_left by lra. by eexists.
Qed.

Lemma floorZ_unit (x : R) : 0 <= x < 1 -> Num.floorZ x = 0%Z.
Proof.
  intros Hx. unfold Num.floorZ.
  assert ((0 + 1)%Z = up x) as H
    by (apply up_tech; [lra | change (IZR (0 + 1)) with 1; lra]).
  lia.
Qed.

Lemma returns_reals (this : obj) (s0 : R) (rpaths : list (list R)) :
  numprop this "S0" = Real s0 -> 0 < s0 ->
  Forall (fun path => path <> [] /\ 0 < terminal path) rpaths ->
  map (fun price => Num.log (price / numprop this "S0"))
    (map Js.last_of (real_paths rpaths))
  = map Real (returns_R s0 rpaths).
Proof.
  intros HS0 Hs0 Hpaths. unfold real_paths, returns_R.
  rewrite !map_map. apply map_ext_Forall.
  eapply Forall_impl; [exact Hpaths|]. intros path [Hne Hterm]. cbn beta.
  rewrite last_of_reals, HS0 by done. cbn [Num.div].
  rewrite (NumFacts.Reqb_false s0 0) by lra. cbn [Num.log].
  assert (0 < terminal path / s0) by (by apply Rdiv_lt_0_compat).
  by rewrite NumFacts.Rltb_false, NumFacts.Reqb_false by lra.
Qed.

(** X22. On fewer than twenty paths the index [floor(0.05 * n)] is 0, so
    the 95% value at risk that [calculateRiskMetrics] reports is the
    negated lowest terminal log-return: the worst path alone. *)
Theorem var95_small_sample (this : obj) (s0 : R) (rpaths : list (list R)) :
  numprop this "S0" = Real s0 -> 0 < s0 ->
  Forall (fun path => path <> [] /\ 0 < terminal path) rpaths ->
  (0 < length rpaths < 20)%nat ->
  exists res,
    MonteCarloSimulation.calculateRiskMetrics this (real_paths rpaths) = Ok res
    /\ res.(var95) = Real (- lowest (returns_R s0 rpaths)).
Proof.
  intros HS0 Hs0 Hpaths Hlen.
  unfold MonteCarloSimulation.calculateRiskMetrics.
  rewrite (returns_reals this s0 rpaths) by done.
  assert (returns_R s0 rpaths <> []) as Hne.
  { unfold returns_R. destruct rpaths; [simpl in Hlen; lia | done]. }
  destruct (sort_head _ Hne) as [t Ht]. rewrite Ht.
  rewrite reduce1_add_real by done. cbn [obind].
  eexists. split; [reflexivity|]. cbn [var95].
  unfold Js.length_of, Num.of_nat, returns_R. rewrite !length_map.
  cbn [Num.mul Num.floor].
  rewrite floorZ_unit.
  - unfold MonteCarloSimulation.index_by.
    change (Real 0) with (Num.of_nat 0).
    rewrite NumFacts.to_length_of_nat by done. done.
  - pose proof (pos_INR (length rpaths)).
    assert (INR (length rpaths) < INR 20) as H20 by (apply lt_INR; lia).
    rewrite !S_INR in H20. cbn [INR] in H20. lra.
Qed.

Lemma var95_small_sample_witness :
  let this := MonteCarloSimulation.constructor (to_params sample_parameters) in
  let rpaths := [[100; 120]; [100; 90]] in
  exists res,
    MonteCarloSimulation.calculateRiskMetrics this (real_paths rpaths) = Ok res
    /\ res.(var95) = Real (- lowest (returns_R 100 rpaths)).
Proof.
  intros this rpaths.
  apply (var95_small_sample this 100 rpaths).
  - reflexivity.
  - lra.
  - repeat constructor; try discriminate; unfold terminal; simpl; lra.
  - simpl. lia.
Defined.

(** * Further properties: the pricing worker *)

(** ** The option tags of the pricing worker *)

Lemma split_segment (seg rest : string) :
  hyphen_free seg = true ->
  PricingWorker.split PricingWorker.hyphen
    (seg ++ String PricingWorker.hyphen rest)
  = seg :: PricingWorker.split PricingWorker.hyphen rest.
Proof.
  induction seg as [|c seg IH]; intros Hfree.
  - reflexivity.
  - cbn [hyphen_free] in Hfree. apply andb_prop in Hfree as [Hc Hseg].
    apply negb_true_iff in Hc.
    change (String c seg ++ String PricingWorker.hyphen rest)%string
      with (String c (seg ++ String PricingWorker.hyphen rest)%string).
    cbn [PricingWorker.split]. by rewrite Hc, IH.
Qed.

Lemma split_last (seg : string) :
  hyphen_free seg = true ->
  PricingWorker.split PricingWorker.hyphen seg = [seg].
Proof.
  induction seg as [|c seg IH]; intros Hfree; [done|].
  cbn [hyphen_free] in Hfree. apply andb_prop in Hfree as [Hc Hseg].
  apply negb_true_iff in Hc.
  cbn [PricingWorker.split]. by rewrite Hc, IH.
Qed.

Lemma constructor_optionType (params : obj) (v : value) :
  MonteCarloSimulation.constructor (<["optionType" := v]> params)
  = MonteCarloSimulation.constructor params.
Proof.
  unfold MonteCarloSimulation.constructor.
  by rewrite !(prop_insert_ne _ "optionType") by done.
Qed.

Lemma new_instance_optionType (c : class) (params : obj) (v : value) :
  new_instance c (<["optionType" := v]> params) = new_instance c params.
Proof.
  unfold new_instance, AsianOption.constructor, BarrierOption.constructor,
    LookbackOption.constructor.
  rewrite constructor_optionType.
  by rewrite !(prop_insert_ne _ "optionType") by done.
Qed.

(** X23. createOption reads the first two segments of the option tag only:
    what follows a second hyphen has no effect on the option created, so
    'barrier-up-out' and 'barrier-up-in' create the same option. *)
Theorem createOption_reads_two_segments (params : obj)
    (base sub tail : string) :
  hyphen_free base = true -> hyphen_free sub = true ->
  PricingWorker.createOption
    (<["optionType" :=
         VStr (base ++ String PricingWorker.hyphen
                 (sub ++ String PricingWorker.hyphen tail))]> params)
  = PricingWorker.createOption
      (<["optionType" := VStr (base ++ String PricingWorker.hyphen sub)]>
         params).
Proof.
  intros Hbase Hsub. unfold PricingWorker.createOption.
  rewrite !prop_insert_eq.
  rewrite (split_segment base) by done.
  rewrite (split_segment sub) by done.
  rewrite (split_segment base), (split_last sub) by done.
  cbn [lookup list_lookup default from_option]. unfold Datatypes.id, with_key.
  assert (forall c (k : string) (u a : value), k <> "optionType" ->
            new_instance c (<[k := u]> (<["optionType" := a]> params))
            = new_instance c (<[k := u]> params)) as Hone.
  { intros c k u a Hk. rewrite insert_insert_ne by done.
    apply new_instance_optionType. }
  assert (forall c (k k' : string) (u u' a : value),
            k <> "optionType" -> k' <> "optionType" ->
            new_instance c (<[k := u]> (<[k' := u']> (<["optionType" := a]> params)))
            = new_instance c (<[k := u]> (<[k' := u']> params))) as Htwo.
  { intros c k k' u u' a Hk Hk'.
    rewrite (insert_insert_ne _ k' "optionType") by done.
    rewrite (insert_insert_ne _ k "optionType") by done.
    apply new_instance_optionType. }
  destruct (String.eqb base "asian"); [by rewrite !Hone|].
  destruct (String.eqb base "barrier").
  { cbn [Js.endsWith PricingWorker.replace_call_put obind].
    by rewrite !Htwo. }
  destruct (String.eqb base "lookback"); [by rewrite !Hone|].
  reflexivity.
Qed.

Lemma createOption_reads_two_segments_witness :
  let params := to_params sample_parameters in
  PricingWorker.createOption (<["optionType" := VStr "barrier-up-out"]> params)
  = PricingWorker.createOption (<["optionType" := VStr "barrier-up"]> params).
Proof.
  intros params.
  apply (createOption_reads_two_segments params "barrier" "up" "out");
    reflexivity.
Defined.

(** X24. A tag 'barrier-up-...' or 'barrier-down-...', as the page sends
    them ('barrier-up-out', 'barrier-down-in'), creates a put whose barrier
    type is the bare direction: it does not end in 'out', and the payoff of
    the option is that of a knock-in, the vanilla put payoff on the paths
    that touch the barrier and zero on the others. *)
Theorem createOption_barrier_knocks_in (params : obj) (dir tail : string)
    (option : instance) :
  dir = "up" \/ dir = "down" ->
  Js.prop params "optionType"
  = VStr ("barrier-" ++ dir ++ String PricingWorker.hyphen tail) ->
  PricingWorker.createOption params = Ok option ->
  class_of option = Barrier
  /\ Js.prop (own option) "type" = VStr "put"
  /\ Js.prop (own option) "barrierType" = VStr dir
  /\ forall path,
       BarrierOption.payoff (own option) path
       = try hit <- BarrierOption.checkBarrierHit (own option) path;
         Ok (if hit
             then MonteCarloSimulation.vanilla_payoff (own option)
                    (Js.last_of path)
             else Real 0).
Proof.
  intros Hdir Htag Hoption. unfold PricingWorker.createOption in Hoption.
  rewrite Htag in Hoption.
  assert (PricingWorker.split PricingWorker.hyphen
            ("barrier-" ++ dir ++ String PricingWorker.hyphen tail)
          = "barrier" :: dir :: PricingWorker.split PricingWorker.hyphen tail)
    as Hsplit.
  { change ("barrier-" ++ dir ++ String PricingWorker.hyphen tail)%string
      with ("barrier" ++ String PricingWorker.hyphen
              (dir ++ String PricingWorker.hyphen tail))%string.
    rewrite (split_segment "barrier") by reflexivity.
    rewrite (split_segment dir) by (by destruct Hdir as [->| ->]).
    reflexivity. }
  rewrite Hsplit in Hoption.
  cbn [lookup list_lookup default from_option] in Hoption.
  unfold Datatypes.id in Hoption.
  change (String.eqb "barrier" "asian") with false in Hoption.
  change (String.eqb "barrier" "barrier") with true in Hoption.
  cbn iota in Hoption.
  assert (Js.ends_with dir "call" = false
          /\ PricingWorker.strip_call_put dir = dir
          /\ Js.ends_with dir "out" = false
          /\ Js.truthy (VStr dir) = true) as (Hcall & Hstrip & Hout & Htruthy)
    by (by destruct Hdir as [->| ->]).
  cbn [Js.endsWith PricingWorker.replace_call_put obind] in Hoption.
  rewrite Hcall, Hstrip in Hoption.
  unfold new_instance, with_key in Hoption.
  rewrite (barrier_constructor_cases _ dir) in Hoption.
  2:{ unfold effective_barrierType, Js.or_else.
      by rewrite prop_insert_eq, Htruthy. }
  destruct (_ && _) in Hoption; [discriminate|].
  destruct (_ && _) in Hoption; [discriminate|].
  cbn [obind] in Hoption. injection Hoption as <-. cbn [class_of own].
  rewrite (prop_insert_ne _ "barrierType" "type"), prop_insert_eq in * by done.
  assert (Js.prop
            (<["barrier" :=
                 Js.or_else
                   (Js.prop (<["barrierType" := VStr dir]>
                               (<["type" := VStr "put"]> params)) "barrier")
                   (VNum (Js.to_number
                            (Js.prop (<["barrierType" := VStr dir]>
                                        (<["type" := VStr "put"]> params))
                               "strike") * Real 1.2))]>
               (<["barrierType" := VStr dir]>
                  (<["type" := Js.or_else (VStr "put") (VStr "call")]>
                     (MonteCarloSimulation.constructor
                        (<["barrierType" := VStr dir]>
                           (<["type" := VStr "put"]> params))))))
            "barrierType" = VStr dir) as HbarrierType
    by (by rewrite prop_insert_ne, prop_insert_eq).
  split; [done|]. split.
  { by rewrite !prop_insert_ne, prop_insert_eq by done. }
  split; [done|]. intros path.
  unfold BarrierOption.payoff.
  destruct (BarrierOption.checkBarrierHit _ path) as [hit|e]; [|done].
  cbn [obind]. rewrite HbarrierType. cbn [Js.endsWith obind].
  rewrite Hout. by destruct hit.
Qed.

Lemma createOption_barrier_knocks_in_witness :
  let params := <["optionType" := VStr "barrier-up-out"]>
                  (to_params sample_parameters) in
  exists option,
    PricingWorker.createOption params = Ok option
    /\ class_of option = Barrier
    /\ Js.prop (own option) "type" = VStr "put"
    /\ Js.prop (own option) "barrierType" = VStr "up"
    /\ forall path,
         BarrierOption.payoff (own option) path
         = try hit <- BarrierOption.checkBarrierHit (own option) path;
           Ok (if hit
               then MonteCarloSimulation.vanilla_payoff (own option)
                      (Js.last_of path)
               else Real 0).
Proof.
  intros params.
  assert (exists option, PricingWorker.createOption params = Ok option)
    as [option Hcreate].
  { unfold params, PricingWorker.createOption. rewrite prop_insert_eq.
    change "barrier-up-out"
      with ("barrier" ++ String PricingWorker.hyphen
              ("up" ++ String PricingWorker.hyphen "out"))%string.
    rewrite (split_segment "barrier"), (split_segment "up") by reflexivity.
    cbn [lookup list_lookup default from_option
           Js.endsWith PricingWorker.replace_call_put obind].
    unfold Datatypes.id.
    change (String.eqb "barrier" "asian") with false.
    change (String.eqb "barrier" "barrier") with true.
    change (Js.ends_with "up" "call") with false.
    change (PricingWorker.strip_call_put "up") with "up".
    cbn iota. unfold new_instance, with_key.
    rewrite (barrier_constructor_cases _ "up") by reflexivity.
    match goal with
    | |- context [effective_barrier ?p] =>
        replace (effective_barrier p) with (Real (100 * 1.2)) by reflexivity;
        replace (Js.to_number (Js.prop p "spot")) with (Real 100)
          by reflexivity
    end.
    cbn [Num.leb]. rewrite NumFacts.Rleb_false by lra.
    change (String.prefix "down" "up") with false.
    rewrite andb_false_r. cbn [andb obind]. by eexists. }
  exists option. split; [exact Hcreate|].
  apply (createOption_barrier_knocks_in params "up" "out" option);
    [by left | reflexivity | exact Hcreate].
Defined.

(** ** What the worker posts *)

Lemma bind_inv {A B} (m : M A) (k : A -> M B) s b s' :
  bind m k s = Ok (b, s') ->
  exists a s1, m s = Ok (a, s1) /\ k a s1 = Ok (b, s').
Proof.
  unfold bind. destruct (m s) as [[a s1]|e]; [|done].
  intros H. by exists a, s1.
Qed.

Lemma ret_inv {A} (a b : A) s s' : ret a s = Ok (b, s') -> a = b.
Proof. unfold ret. by intros [= -> _]. Qed.

(** Whatever [calculateGreeks] returns is NaN five times: each sensitivity
    is a difference of result objects. *)
Lemma calculateGreeks_result (this : instance) (paths : list (list num))
    (s s' : rng) (g : GreeksResult) :
  calculateGreeks this paths s = Ok (g, s') ->
  g = {| delta := NaN; gamma := NaN; theta := NaN; vega := NaN; rho := NaN |}.
Proof.
  unfold calculateGreeks. cbv zeta. intros H.
  repeat (apply bind_inv in H as (? & ? & _ & H)).
  apply ret_inv in H as <-. unfold result_to_number.
  cbn [Num.sub Num.neg Num.add Num.mul Num.div]. reflexivity.
Qed.

(** X25. Every reply the worker posts carries NaN for all five Greeks,
    whatever the request and the random draws. *)
Theorem worker_reply_greeks (params : obj) (optionType : value) (s : rng)
    (reply : PricingWorker.Reply) :
  PricingWorker.onmessage params optionType s = PricingWorker.Posted reply ->
  PricingWorker.greeks reply
  = {| delta := NaN; gamma := NaN; theta := NaN; vega := NaN; rho := NaN |}.
Proof.
  unfold PricingWorker.onmessage.
  destruct (PricingWorker.handle params optionType s) as [[r s']|e] eqn:Hrun;
    [|done].
  intros [= <-]. unfold PricingWorker.handle in Hrun.
  apply bind_inv in Hrun as (option & s1 & _ & Hrun).
  apply bind_inv in Hrun as (paths & s2 & _ & Hrun).
  apply bind_inv in Hrun as (result & s3 & _ & Hrun).
  apply bind_inv in Hrun as (greeks & s4 & Hgreeks & Hrun).
  apply bind_inv in Hrun as (riskMetrics & s5 & _ & Hrun).
  apply bind_inv in Hrun as (barrier & s6 & _ & Hrun).
  apply bind_inv in Hrun as (finalResult & s7 & _ & Hrun).
  apply ret_inv in Hrun as <-. cbn [PricingWorker.greeks].
  by apply calculateGreeks_result in Hgreeks.
Qed.

Lemma calculateRiskMetrics_ok (this : obj) (paths : list (list num)) :
  paths <> [] ->
  exists rm, MonteCarloSimulation.calculateRiskMetrics this paths = Ok rm.
Proof.
  intros Hne. unfold MonteCarloSimulation.calculateRiskMetrics. cbv zeta.
  destruct paths as [|path paths]; [done|].
  cbn [map Js.reduce1 obind]. by eexists.
Qed.

Lemma to_params_steps (c : SimulationParameters) :
  Js.prop (to_params c) "steps" = VNum (Num.of_nat (steps c)).
Proof. unfold to_params, Js.prop. by simplify_map_eq. Qed.

Lemma to_params_simulations (c : SimulationParameters) :
  Js.prop (to_params c) "simulations" = VNum (Num.of_nat (simulations c)).
Proof. unfold to_params, Js.prop. by simplify_map_eq. Qed.

Lemma present_value_paths (this : obj) (ps : list (list num))
    (payoffs : list num) (res : PricingResult) :
  MonteCarloSimulation.present_value this ps payoffs = Ok res ->
  paths res = ps.
Proof.
  unfold MonteCarloSimulation.present_value.
  destruct (Js.reduce1 Num.add payoffs) as [total|e]; [|done]. cbn [obind].
  destruct (MonteCarloSimulation.calculateConfidenceInterval _) as [ci|e];
    [|done].
  cbn [obind]. by intros [= <-].
Qed.

(** The worker on a request for an Asian call. *)
Lemma handle_asian_call (c : SimulationParameters) (s : rng) :
  (0 < simulations c)%nat ->
  (Z.of_nat (S (steps c)) < 2 ^ 32)%Z ->
  (Z.of_nat (simulations c) < 2 ^ 32)%Z ->
  exists reply s',
    PricingWorker.handle
      (<["optionType" := VStr "asian-call"]> (to_params c))
      (VStr "asian-call") s
    = Ok (reply, s')
    /\ length (paths (PricingWorker.result reply)) = simulations c
    /\ Forall (fun path => length path = S (steps c))
         (paths (PricingWorker.result reply)).
Proof.
  intros Hpos Hn Hm.
  set (params := <["optionType" := VStr "asian-call"]> (to_params c)).
  set (this := AsianOption.constructor (with_key "type" (VStr "call") params)).
  assert (PricingWorker.createOption params
          = Ok {| class_of := Asian; own := this |}) as Hcreate.
  { unfold PricingWorker.createOption, params. rewrite prop_insert_eq.
    change "asian-call"
      with ("asian" ++ String PricingWorker.hyphen "call")%string.
    rewrite (split_segment "asian"), (split_last "call") by reflexivity.
    reflexivity. }
  assert (Js.prop this "steps" = VNum (Num.of_nat (steps c))
          /\ Js.prop this "simulations" = VNum (Num.of_nat (simulations c)))
    as [Hsteps Hsims].
  { unfold this, AsianOption.constructor, with_key, params.
    rewrite !(prop_insert_ne _ _ "steps"), !(prop_insert_ne _ _ "simulations")
      by done.
    rewrite constructor_steps, constructor_simulations.
    rewrite !(prop_insert_ne _ _ "steps"), !(prop_insert_ne _ _ "simulations")
      by done.
    by rewrite to_params_steps, to_params_simulations. }
  destruct (simulatePaths_spec this (steps c) (simulations c) Hsteps Hsims
              Hn Hm s) as (ps & s1 & Hpaths & _ & Hlen & Hall & _).
  assert (ps <> []) as Hne by (destruct ps; [simpl in Hlen; lia | done]).
  assert (Forall (fun path : list num => path <> []) ps) as Hall'.
  { eapply Forall_impl; [exact Hall|]. by intros [|? ?]. }
  destruct (calculatePrice_ok Asian this ps s1 Hne Hall') as [base Hbase];
    [done|].
  destruct (calculateGreeks_nan {| class_of := Asian; own := this |} ps
              (steps c) (simulations c) s1 s1 base Hbase Hsteps Hsims Hn Hm
              Hpos) as [s2 Hgreeks].
  destruct (calculateRiskMetrics_ok this ps Hne) as [rm Hrm].
  unfold PricingWorker.handle.
  rewrite Hcreate. unfold lift at 1. unfold bind at 1. cbn [own].
  rewrite (bind_ok _ _ _ _ _ Hpaths), (bind_ok _ _ _ _ _ Hbase),
    (bind_ok _ _ _ _ _ Hgreeks).
  rewrite Hrm. do 2 eexists. split; [reflexivity|].
  cbn [PricingWorker.result].
  assert (paths base = ps) as ->; [|done].
  unfold calculatePrice, AsianOption.calculatePrice, lift,
    AsianOption.calculatePrice_given in Hbase.
  cbn [class_of own] in Hbase.
  destruct (map_outcome (AsianOption.payoff this) ps) as [payoffs|e];
    [|done].
  cbn [obind] in Hbase.
  destruct (MonteCarloSimulation.present_value this ps payoffs)
    as [res|e] eqn:Hres; [|done].
  injection Hbase as <-. by apply present_value_paths in Hres.
Qed.

(** X26. A request for an Asian call with at least one simulation is
    answered with a reply, never with an error, whatever the random draws:
    no stage of the worker throws on it. The reply carries the simulated
    paths, one per simulation, each of one price per step after the initial
    one. *)
Theorem worker_answers_asian_call (c : SimulationParameters) (s : rng) :
  (0 < simulations c)%nat ->
  (Z.of_nat (S (steps c)) < 2 ^ 32)%Z ->
  (Z.of_nat (simulations c) < 2 ^ 32)%Z ->
  exists reply,
    PricingWorker.onmessage
      (<["optionType" := VStr "asian-call"]> (to_params c))
      (VStr "asian-call") s
    = PricingWorker.Posted reply
    /\ length (paths (PricingWorker.result reply)) = simulations c
    /\ Forall (fun path => length path = S (steps c))
         (paths (PricingWorker.result reply)).
Proof.
  intros Hpos Hn Hm.
  destruct (handle_asian_call c s Hpos Hn Hm)
    as (reply & s' & Hrun & Hlen & Hall).
  exists reply. unfold PricingWorker.onmessage. by rewrite Hrun.
Qed.

Lemma worker_answers_asian_call_witness :
  exists reply,
    PricingWorker.onmessage
      (<["optionType" := VStr "asian-call"]> (to_params sample_parameters))
      (VStr "asian-call") sample_rng
    = PricingWorker.Posted reply
    /\ length (paths (PricingWorker.result reply)) = 3%nat
    /\ Forall (fun path => length path = 3%nat)
         (paths (PricingWorker.result reply)).
Proof.
  apply (worker_answers_asian_call sample_parameters sample_rng);
    simpl; lia.
Defined.

Lemma worker_reply_greeks_witness :
  exists reply,
    PricingWorker.onmessage
      (<["optionType" := VStr "asian-call"]> (to_params sample_parameters))
      (VStr "asian-call") sample_rng
    = PricingWorker.Posted reply
    /\ PricingWorker.greeks reply
       = {| delta := NaN; gamma := NaN; theta := NaN; vega := NaN;
            rho := NaN |}.
Proof.
  destruct (handle_asian_call sample_parameters sample_rng)
    as (reply & s' & Hrun & _); [simpl; lia | simpl; lia | simpl; lia |].
  exists reply.
  assert (PricingWorker.onmessage
            (<["optionType" := VStr "asian-call"]>
               (to_params sample_parameters))
            (VStr "asian-call") sample_rng
          = PricingWorker.Posted reply) as Hreply
    by (unfold PricingWorker.onmessage; by rewrite Hrun).
  split; [exact Hreply|].
  exact (worker_reply_greeks _ _ _ reply Hreply).
Defined.

(** * Further properties: the closed form of the lookback price *)

Lemma normalCDF_real (x : R) : is_real (SpecialFunctions.normalCDF (Real x)).
Proof.
  unfold SpecialFunctions.normalCDF. cbv zeta.
  cbn [Num.abs Num.mul Num.add Num.neg].
  pose proof (Rabs_pos x) as Habs.
  rewrite !(div_real 1) by lra. rewrite !div_real by lra.
  cbn [Num.exp Num.mul Num.add Num.gtb Num.ltb].
  destruct (Num.Rltb 0 x); cbn [Num.sub Num.neg Num.add]; by eexists.
Qed.

Lemma add_not_finite (x : R) (b : num) :
  Num.finite b = false -> Num.finite (Real x + b)%num = false.
Proof. by destruct b. Qed.

Lemma mul_inf_not_finite (w : R) :
  Num.finite (PosInf * Real w)%num = false.
Proof.
  cbn [Num.mul]. unfold Num.signed_inf.
  destruct (Num.Rltb 0 w); [done|]. by destruct (Num.Rltb w 0).
Qed.

(** X27. At a zero rate the closed form of the fixed-strike lookback price
    divides by [2 r = 0]: for positive spot, strike, volatility and
    maturity, [calculateAnalyticalPrice] returns an infinity or NaN, for
    calls and for puts, and throws nothing. *)
Theorem lookback_analytical_zero_rate (this : obj) (s0 k sigma t : R) :
  Js.is_string (Js.prop this "lookbackType") "fixed" = true ->
  numprop this "S0" = Real s0 -> numprop this "K" = Real k ->
  numprop this "sigma" = Real sigma -> numprop this "T" = Real t ->
  numprop this "r" = Real 0 ->
  0 < s0 -> 0 < k -> 0 < sigma -> 0 < t ->
  Num.finite (LookbackAnalytic.calculateAnalyticalPrice this) = false.
Proof.
  intros Hfixed HS0 HK Hsigma HT Hr Hs0 Hk Hsig Ht.
  unfold LookbackAnalytic.calculateAnalyticalPrice. cbv zeta.
  rewrite Hfixed, HS0, HK, Hsigma, HT, Hr.
  assert (0 < sqrt t) as Hroot by (by apply sqrt_lt_R0).
  assert (0 < sigma * sqrt t) as Hden by (by apply Rmult_lt_0_compat).
  assert (0 < s0 / k) as Hratio by (by apply Rdiv_lt_0_compat).
  rewrite (sqrt_real t) by lra.
  cbn [Num.mul Num.add Num.neg Num.sub].
  rewrite (div_real s0 k) by lra.
  cbn [Num.log].
  rewrite (NumFacts.Rltb_false (s0 / k) 0), (NumFacts.Reqb_false (s0 / k) 0)
    by lra.
  rewrite !(div_real _ (sigma * sqrt t)) by lra.
  cbn [Num.mul Num.add Num.neg Num.sub Num.exp].
  assert ((Real (s0 * sigma * sigma * t) / Real (2 * 0))%num = PosInf) as ->.
  { cbn [Num.div]. rewrite NumFacts.Reqb_true by lra.
    unfold Num.signed_inf. rewrite NumFacts.Rltb_true; [done|].
    repeat apply Rmult_lt_0_compat; lra. }
  set (d1 := ln (s0 / k) / (sigma * sqrt t)
             + (0 + 0.5 * (sigma * sigma)) * t / (sigma * sqrt t)).
  set (d2 := d1 + - (sigma * sqrt t)).
  destruct (normalCDF_real d1) as [n1 Hn1].
  destruct (normalCDF_real d2) as [n2 Hn2].
  destruct (normalCDF_real (- d1)) as [m1 Hm1].
  destruct (normalCDF_real (- d2)) as [m2 Hm2].
  rewrite Hn1, Hn2, Hm1, Hm2.
  destruct (Js.is_string (Js.prop this "type") "call");
    cbn [Num.mul Num.add Num.neg Num.sub];
    apply add_not_finite, mul_inf_not_finite.
Qed.

Lemma lookback_analytical_zero_rate_witness :
  let this := LookbackOption.constructor (to_params sample_zero_rate) in
  Num.finite (LookbackAnalytic.calculateAnalyticalPrice this) = false.
Proof.
  intros this.
  apply (lookback_analytical_zero_rate this 100 100 0.2 1);
    try reflexivity; lra.
Defined.
